(** * Operation executor: plans, steps, retries and context threading

    A shallow embedding of [operation-executor.server.ts]: the JSON values the
    executor passes around, [JSON.stringify] / [JSON.parse] and the
    placeholder substitution of [processStepParameters], the step executor
    with its retry policy, the scheduler, the context accumulator, the
    drive loop [executeOperationPlan] and the debug view
    [getOperationDebugInfo]; of the tools the executor calls, in
    [shopify.server.ts]: [callShopifyGraphQL], [executeShopifyQuery],
    [executeShopifyMutation] and [introspectShopifySchema]; and of the
    store the route keeps plans in, [session.server.ts].

    Modelling conventions.
    - A JS string is a [string] (a byte sequence); the source only ever
      inspects ASCII delimiters, so code-unit and byte indexing agree on the
      characters it looks at.
    - A JS number is an integer [Z] printed in decimal.  This is exact for
      the safe integers, those of absolute value below [2 ^ 53], which a
      double holds exactly and prints in decimal digits.  Fractions,
      exponents and larger values are not represented: the parser gives up
      on a fraction or an exponent, which [JSON.parse] accepts, and a
      statement that depends on the text of a number bounds the number, or
      the text it is parsed from ([plain_integers]).
    - A JS object used as a record ([result], [data], [params]) is an
      association list of its own properties in the order its keys were
      added (keys that are array indices, which JS enumerates first, are not
      moved); the names the source reads on such objects ([error], [data],
      [type], ...) are not members of [Object.prototype], so nothing is
      inherited there.  The plan context, which is read and written by
      arbitrary keys, is a [gmap string Json] of its own properties with
      [Object.prototype] behind it: [processStepParameters] finds the
      inherited members under the keys the context does not bind
      ([context_get]).  Assigning the key [__proto__] would replace that
      prototype instead of adding a property; the accumulator is modelled
      as writing it like any other key, and the statements about what it
      writes take no step id and no payload key to be [__proto__].
    - A property whose value is [undefined] is represented as an absent
      key: the two read alike and [JSON.stringify] writes neither.
    - In the drive loop the three Shopify tools are an oracle indexed by
      the number of invocations made so far.  The tools themselves are
      modelled over the network, which is an oracle from the request sent
      to the parsed body of the answer or the error of [fetch] or
      [response.json()].  The message of a [TypeError] is V8's; the message
      of a [SyntaxError] of [JSON.parse], which depends on the position and
      on the version of the engine, is one fixed text.
    - A cookie session is the chat id it holds; reading the cookie that
      [commitSession] returned gives the committed session back.
    - The fields of a step and of a plan are mutated in place by the source;
      here the step travels with its position in [plan.steps] and is written
      back there. *)

From Stdlib Require Import ZArith String Ascii List Bool.
From Stdlib Require Import DecimalString DecimalNat DecimalPos DecimalFacts.
From stdpp Require Import base option list gmap strings fin_maps.
Import ListNotations.

Local Open Scope string_scope.
Local Open Scope Z_scope.

(** ** JSON values *)

#[local] Set Warnings "-register-all".

Inductive Json : Type :=
| JNull
| JBool (b : bool)
| JNum (n : Z)
| JString (s : string)
| JArray (l : list Json)
| JObject (kvs : list (string * Json)).

(** Own-property read [o[k]] on an object literal: [None] is [undefined].
    A key bound twice reads its last binding. *)
Fixpoint obj_get (kvs : list (string * Json)) (k : string) : option Json :=
  match kvs with
  | [] => None
  | (k', v) :: rest =>
      match obj_get rest k with
      | Some v' => Some v'
      | None => if String.eqb k' k then Some v else None
      end
  end.

(** Own-property write [o[k] = v]: an existing key keeps its position. *)
Fixpoint obj_set (kvs : list (string * Json)) (k : string) (v : Json)
  : list (string * Json) :=
  match kvs with
  | [] => [(k, v)]
  | (k', v') :: rest =>
      if String.eqb k' k then (k', v) :: rest else (k', v') :: obj_set rest k v
  end.

(** ** Characters and decimal numerals *)

Definition code (c : ascii) : N := N_of_ascii c.
Definition chr (n : N) : ascii := ascii_of_N n.

Definition dquote : ascii := chr 34.
Definition backslash : ascii := chr 92.

Definition str1 (c : ascii) : string := String c EmptyString.

(** [String(n)] for an integer-valued number. *)
Definition Z_to_string (n : Z) : string := NilZero.string_of_int (Z.to_int n).

(** [String(n)] for an array index. *)
Definition nat_to_string (n : nat) : string :=
  NilZero.string_of_uint (Nat.to_uint n).

Definition hex_digit (n : N) : ascii :=
  if (n <? 10)%N then chr (48 + n) else chr (87 + n).

(** ** [JSON.stringify] *)

(** One character of a quoted JSON string. *)
Definition quote_char (c : ascii) : string :=
  let n := code c in
  if (n =? 8)%N then "\b"
  else if (n =? 9)%N then "\t"
  else if (n =? 10)%N then "\n"
  else if (n =? 12)%N then "\f"
  else if (n =? 13)%N then "\r"
  else if (n =? 34)%N then String backslash (str1 dquote)
  else if (n =? 92)%N then String backslash (str1 backslash)
  else if (n <? 32)%N then
    "\u00" +:+ String (hex_digit (n / 16)) (str1 (hex_digit (n mod 16)))
  else str1 c.

Fixpoint quote_body (s : string) : string :=
  match s with
  | EmptyString => EmptyString
  | String c r => quote_char c +:+ quote_body r
  end.

Definition quote (s : string) : string :=
  String dquote (quote_body s +:+ str1 dquote).

Fixpoint JSON_stringify (j : Json) : string :=
  match j with
  | JNull => "null"
  | JBool true => "true"
  | JBool false => "false"
  | JNum n => Z_to_string n
  | JString s => quote s
  | JArray l => "[" +:+ String.concat "," (map JSON_stringify l) +:+ "]"
  | JObject kvs =>
      "{" +:+ String.concat ","
                (map (fun kv => quote (fst kv) +:+ ":" +:+ JSON_stringify (snd kv)) kvs)
          +:+ "}"
  end.

(** [String(v)], as [new Error(result.error)] applies it to its argument. *)
Fixpoint js_String (j : Json) : string :=
  match j with
  | JNull => "null"
  | JBool true => "true"
  | JBool false => "false"
  | JNum n => Z_to_string n
  | JString s => s
  | JArray l =>
      String.concat ","
        (map (fun x => match x with JNull => EmptyString | _ => js_String x end) l)
  | JObject _ => "[object Object]"
  end.

(** [Boolean(v)] for a present value. *)
Definition truthy (j : Json) : bool :=
  match j with
  | JNull => false
  | JBool b => b
  | JNum n => negb (n =? 0)
  | JString s => negb (String.eqb s EmptyString)
  | JArray _ | JObject _ => true
  end.

(** Truthiness of a possibly [undefined] value. *)
Definition truthy_opt (o : option Json) : bool :=
  match o with Some j => truthy j | None => false end.

(** ** [JSON.parse] *)

Definition is_ws (c : ascii) : bool :=
  let n := code c in
  ((n =? 32) || (n =? 9) || (n =? 10) || (n =? 13))%N.

Fixpoint skip_ws (s : string) : string :=
  match s with
  | String c r => if is_ws c then skip_ws r else s
  | EmptyString => s
  end.

Definition is_digit (c : ascii) : bool :=
  let n := code c in ((48 <=? n) && (n <=? 57))%N.

Definition hex_value (c : ascii) : option N :=
  let n := code c in
  if ((48 <=? n) && (n <=? 57))%N then Some (n - 48)%N
  else if ((97 <=? n) && (n <=? 102))%N then Some (n - 87)%N
  else if ((65 <=? n) && (n <=? 70))%N then Some (n - 55)%N
  else None.

(** The bytes of the code point of a [\uXXXX] escape (UTF-8). *)
Definition utf8 (n : N) : string :=
  (if n <? 128 then str1 (chr n)
   else if n <? 2048 then
     String (chr (192 + n / 64)) (str1 (chr (128 + n mod 64)))
   else
     String (chr (224 + n / 4096))
       (String (chr (128 + (n / 64) mod 64)) (str1 (chr (128 + n mod 64)))))%N.

(** The characters of a string literal after its opening quote, up to and
    including the closing quote. *)
Fixpoint parse_string_body (s : string) : option (string * string) :=
  match s with
  | EmptyString => None
  | String c r =>
      if (code c =? 34)%N then Some (EmptyString, r)
      else if (code c =? 92)%N then
        match r with
        | String e r1 =>
            let simple (x : string) :=
              match parse_string_body r1 with
              | Some (body, rest) => Some (x +:+ body, rest)
              | None => None
              end in
            let n := code e in
            if (n =? 34)%N then simple (str1 dquote)
            else if (n =? 92)%N then simple (str1 backslash)
            else if (n =? 47)%N then simple "/"
            else if (n =? 98)%N then simple (str1 (chr 8))
            else if (n =? 102)%N then simple (str1 (chr 12))
            else if (n =? 110)%N then simple (str1 (chr 10))
            else if (n =? 114)%N then simple (str1 (chr 13))
            else if (n =? 116)%N then simple (str1 (chr 9))
            else if (n =? 117)%N then
              match r1 with
              | String h1 (String h2 (String h3 (String h4 r2))) =>
                  match hex_value h1, hex_value h2, hex_value h3, hex_value h4 with
                  | Some a, Some b, Some c', Some d =>
                      match parse_string_body r2 with
                      | Some (body, rest) =>
                          Some (utf8 (((a * 16 + b) * 16 + c') * 16 + d)%N +:+ body, rest)
                      | None => None
                      end
                  | _, _, _, _ => None
                  end
              | _ => None
              end
            else None
        | EmptyString => None
        end
      else if (code c <? 32)%N then None
      else
        match parse_string_body r with
        | Some (body, rest) => Some (String c body, rest)
        | None => None
        end
  end.

(** The maximal run of decimal digits at the head of [s]. *)
Fixpoint span_digits (s : string) : string * string :=
  match s with
  | String c r =>
      if is_digit c then let (d, rest) := span_digits r in (String c d, rest)
      else (EmptyString, s)
  | EmptyString => (EmptyString, s)
  end.

Definition starts_fraction_or_exponent (s : string) : bool :=
  match s with
  | String c _ => let n := code c in ((n =? 46) || (n =? 101) || (n =? 69))%N
  | EmptyString => false
  end.

(** An integer literal: no leading zero, no fraction, no exponent. *)
Definition parse_digits (s : string) : option (Z * string) :=
  let (d, rest) := span_digits s in
  match d with
  | EmptyString => None
  | String c d' =>
      if (code c =? 48)%N && negb (String.eqb d' EmptyString) then None
      else if starts_fraction_or_exponent rest then None
      else
        match NilZero.uint_of_string d with
        | Some u => Some (Z.of_uint u, rest)
        | None => None
        end
  end.

Definition parse_number (s : string) : option (Z * string) :=
  match s with
  | String c r =>
      if (code c =? 45)%N then
        match parse_digits r with
        | Some (n, rest) => Some (- n, rest)
        | None => None
        end
      else parse_digits s
  | EmptyString => None
  end.

(** [s] with the keyword [kw] removed from its head. *)
Fixpoint expect (kw s : string) : option string :=
  match kw, s with
  | EmptyString, _ => Some s
  | String a kw', String b s' => if Ascii.eqb a b then expect kw' s' else None
  | String _ _, EmptyString => None
  end.

Inductive Parsed (A : Type) : Type :=
| POk (a : A) (rest : string)
| PSyntaxError
| POutOfFuel.
Arguments POk {A} a rest.
Arguments PSyntaxError {A}.
Arguments POutOfFuel {A}.

Fixpoint parse_value (fuel : nat) (s : string) : Parsed Json :=
  match fuel with
  | O => POutOfFuel
  | S fuel =>
      match skip_ws s with
      | EmptyString => PSyntaxError
      | String c r =>
          let n := code c in
          if (n =? 123)%N then
            match skip_ws r with
            | String c' r' =>
                if (code c' =? 125)%N then POk (JObject []) r'
                else parse_members fuel [] (String c' r')
            | EmptyString => PSyntaxError
            end
          else if (n =? 91)%N then
            match skip_ws r with
            | String c' r' =>
                if (code c' =? 93)%N then POk (JArray []) r'
                else parse_elems fuel [] (String c' r')
            | EmptyString => PSyntaxError
            end
          else if (n =? 34)%N then
            match parse_string_body r with
            | Some (str, rest) => POk (JString str) rest
            | None => PSyntaxError
            end
          else if (n =? 116)%N then
            match expect "rue" r with
            | Some rest => POk (JBool true) rest
            | None => PSyntaxError
            end
          else if (n =? 102)%N then
            match expect "alse" r with
            | Some rest => POk (JBool false) rest
            | None => PSyntaxError
            end
          else if (n =? 110)%N then
            match expect "ull" r with
            | Some rest => POk JNull rest
            | None => PSyntaxError
            end
          else
            match parse_number (String c r) with
            | Some (z, rest) => POk (JNum z) rest
            | None => PSyntaxError
            end
      end
  end

with parse_elems (fuel : nat) (acc : list Json) (s : string) : Parsed Json :=
  match fuel with
  | O => POutOfFuel
  | S fuel =>
      match parse_value fuel s with
      | POk v rest =>
          match skip_ws rest with
          | String c r =>
              if (code c =? 44)%N then parse_elems fuel (acc ++ [v]) r
              else if (code c =? 93)%N then POk (JArray (acc ++ [v])) r
              else PSyntaxError
          | EmptyString => PSyntaxError
          end
      | PSyntaxError => PSyntaxError
      | POutOfFuel => POutOfFuel
      end
  end

with parse_members (fuel : nat) (acc : list (string * Json)) (s : string)
  : Parsed Json :=
  match fuel with
  | O => POutOfFuel
  | S fuel =>
      match skip_ws s with
      | String q r =>
          if (code q =? 34)%N then
            match parse_string_body r with
            | Some (k, rest) =>
                match skip_ws rest with
                | String colon r1 =>
                    if (code colon =? 58)%N then
                      match parse_value fuel r1 with
                      | POk v rest1 =>
                          match skip_ws rest1 with
                          | String c r2 =>
                              if (code c =? 44)%N then
                                parse_members fuel (obj_set acc k v) r2
                              else if (code c =? 125)%N then
                                POk (JObject (obj_set acc k v)) r2
                              else PSyntaxError
                          | EmptyString => PSyntaxError
                          end
                      | PSyntaxError => PSyntaxError
                      | POutOfFuel => POutOfFuel
                      end
                    else PSyntaxError
                | EmptyString => PSyntaxError
                end
            | None => PSyntaxError
            end
          else PSyntaxError
      | EmptyString => PSyntaxError
      end
  end.

(** Outcome of a JS computation that may throw: the value, or the message of
    the error thrown. *)
Inductive Completion (A : Type) : Type :=
| Normal (a : A)
| Throw (msg : string).
Arguments Normal {A} a.
Arguments Throw {A} msg.

(** [JSON.parse(text)]: one value, then only white space.  Two units of
    fuel per character are enough: a value is entered, then its elements. *)
Definition JSON_parse (text : string) : Completion Json :=
  match parse_value (S (2 * String.length text)) text with
  | POk v rest =>
      match skip_ws rest with
      | EmptyString => Normal v
      | String _ _ => Throw "SyntaxError: Unexpected non-whitespace character after JSON"
      end
  | PSyntaxError => Throw "SyntaxError: Unexpected token in JSON"
  | POutOfFuel => Throw "out of fuel"
  end.

(** ** Values that print and parse back *)

(** What may follow a number for the number parser to stop right there: the
    end of the text, or a character that continues neither the digits nor a
    fraction or exponent. *)
Definition number_end (rest : string) : Prop :=
  match rest with
  | EmptyString => True
  | String c _ => is_digit c = false /\ starts_fraction_or_exponent rest = false
  end.

(** A numeral without superfluous leading zero. *)
Definition canonical (d : Decimal.uint) : Prop :=
  match d with
  | Decimal.Nil => False
  | Decimal.D0 Decimal.Nil => True
  | Decimal.D0 _ => False
  | _ => True
  end.

(** Values as [JSON.parse] produces them: no object binds a key twice. *)
Fixpoint well_formed (j : Json) : Prop :=
  match j with
  | JArray l =>
      (fix all (l : list Json) : Prop :=
         match l with
         | [] => True
         | x :: r => well_formed x /\ all r
         end) l
  | JObject kvs =>
      NoDup (map fst kvs) /\
      (fix all (kvs : list (string * Json)) : Prop :=
         match kvs with
         | [] => True
         | kv :: r => well_formed (snd kv) /\ all r
         end) kvs
  | JNull | JBool _ | JNum _ | JString _ => True
  end.

(** A character a serialized value can start with: it is not white space
    and closes neither an array nor an object. *)
Definition value_start (c : ascii) : Prop :=
  is_ws c = false /\ (code c =? 93)%N = false /\ (code c =? 125)%N = false.

(** What a parser with fuel at least [F0] answers on the text of [x]
    followed by [rest]. *)
Definition parses_back (F0 : nat) (x : Json) : Prop :=
  forall F rest, (F0 <= F)%nat -> number_end rest ->
    parse_value F (JSON_stringify x +:+ rest) = POk x rest.

(** The text of one object member, as [JSON.stringify] writes it. *)
Definition member_text (kv : string * Json) : string :=
  quote (fst kv) +:+ ":" +:+ JSON_stringify (snd kv).

(** ** Property reads on arbitrary values *)

(** A canonical array index: the decimal numeral of a natural number. *)
Definition index_of_key (k : string) : option nat :=
  match NilZero.uint_of_string k with
  | Some u =>
      let n := Nat.of_uint u in
      if String.eqb (nat_to_string n) k then Some n else None
  | None => None
  end.

Fixpoint string_nth (s : string) (n : nat) : option ascii :=
  match s, n with
  | EmptyString, _ => None
  | String c _, O => Some c
  | String _ r, S n' => string_nth r n'
  end.

(** [v[k]] for a value [v] that is neither [null] nor [undefined]. *)
Definition js_index (v : Json) (k : string) : option Json :=
  match v with
  | JObject kvs => obj_get kvs k
  | JArray l =>
      if String.eqb k "length" then Some (JNum (Z.of_nat (List.length l)))
      else match index_of_key k with Some n => l !! n | None => None end
  | JString str =>
      if String.eqb k "length" then Some (JNum (Z.of_nat (String.length str)))
      else match index_of_key k with
           | Some n => (fun c => JString (str1 c)) <$> string_nth str n
           | None => None
           end
  | JNull | JBool _ | JNum _ => None
  end.

(** [Object.keys(v)]. *)
Definition js_keys (v : Json) : list string :=
  match v with
  | JObject kvs => map fst kvs
  | JArray l => map nat_to_string (seq 0 (List.length l))
  | JString str => map nat_to_string (seq 0 (String.length str))
  | JNull | JBool _ | JNum _ => []
  end.

(** [v.k] where [v] may be [null] or [undefined] ([None]): reading a
    property of either throws a [TypeError]. *)
Definition js_prop (v : option Json) (k : string) : Completion (option Json) :=
  match v with
  | None => Throw ("Cannot read properties of undefined (reading '" +:+ k +:+ "')")
  | Some JNull => Throw ("Cannot read properties of null (reading '" +:+ k +:+ "')")
  | Some j => Normal (js_index j k)
  end.

(** ** Parameter resolver *)

(** The maximal run of characters other than [}] at the head of [s]:
    what [[^}]+] consumes. *)
Fixpoint span_key (s : string) : string * string :=
  match s with
  | String c r =>
      if (code c =? 125)%N then (EmptyString, s)
      else let (k, rest) := span_key r in (String c k, rest)
  | EmptyString => (EmptyString, s)
  end.

(** A match of [/{{([^}]+)}}/] anchored at the head of [s]: the captured
    key.  The class excludes [}], so the greedy run is the only candidate. *)
Definition match_placeholder (s : string) : option string :=
  match s with
  | String c1 (String c2 r) =>
      if ((code c1 =? 123) && (code c2 =? 123))%N then
        match span_key r with
        | (String k0 k, String e1 (String e2 _)) =>
            if ((code e1 =? 125) && (code e2 =? 125))%N
            then Some (String k0 k) else None
        | _ => None
        end
      else None
  | _ => None
  end.

Fixpoint drop_last (s : string) : string :=
  match s with
  | EmptyString => EmptyString
  | String c EmptyString => EmptyString
  | String c r => String c (drop_last r)
  end.

(** [s.slice(1, -1)]. *)
Definition slice_1_m1 (s : string) : string :=
  match s with
  | EmptyString => EmptyString
  | String _ r => drop_last r
  end.

(** The members of [Object.prototype] that are functions. *)
Definition prototype_methods : list string :=
  ["constructor"; "__defineGetter__"; "__defineSetter__"; "hasOwnProperty";
   "__lookupGetter__"; "__lookupSetter__"; "isPrototypeOf";
   "propertyIsEnumerable"; "toString"; "valueOf"; "toLocaleString"].

(** What [context[key]] evaluates to.  The context is a plain object ([{}]
    in [createOperationPlan]): a key it does not bind itself is looked up
    in [Object.prototype], where [__proto__] reads the prototype itself. *)
Inductive Member : Type :=
| Bound (v : Json)
| ObjectPrototype
| Method
| Undefined.

(** The names a plain object inherits. *)
Definition inherited (key : string) : bool :=
  String.eqb key "__proto__" || existsb (String.eqb key) prototype_methods.

Definition context_get (context : gmap string Json) (key : string) : Member :=
  match context !! key with
  | Some v => Bound v
  | None =>
      if String.eqb key "__proto__" then ObjectPrototype
      else if existsb (String.eqb key) prototype_methods then Method
      else Undefined
  end.

(** The replacement callback of [processStepParameters].  [JSON.stringify]
    gives [undefined] for a function, of which [slice] cannot be read, and
    the text of an empty object for [Object.prototype], which has no
    enumerable property. *)
Definition substitute (context : gmap string Json) (key : string)
  : Completion string :=
  match context_get context key with
  | Bound v => Normal (slice_1_m1 (JSON_stringify v))
  | ObjectPrototype => Normal (slice_1_m1 "{}")
  | Method => Throw "Cannot read properties of undefined (reading 'slice')"
  | Undefined => Normal ("{{" +:+ key +:+ "}}")
  end.

(** [s.replace(/{{([^}]+)}}/g, cb)]: leftmost matches, scanned left to
    right, never rescanning a replacement; an exception of the callback
    ends the call.  [skip] counts the characters of the current match still
    to be dropped. *)
Fixpoint replace_placeholders (cb : string -> Completion string) (skip : nat)
    (s : string) : Completion string :=
  match s with
  | EmptyString => Normal EmptyString
  | String c r =>
      match skip with
      | S k => replace_placeholders cb k r
      | O =>
          match match_placeholder s with
          | Some key =>
              match cb key with
              | Normal text =>
                  match replace_placeholders cb (String.length key + 3) r with
                  | Normal rest => Normal (text +:+ rest)
                  | Throw m => Throw m
                  end
              | Throw m => Throw m
              end
          | None =>
              match replace_placeholders cb 0 r with
              | Normal rest => Normal (String c rest)
              | Throw m => Throw m
              end
          end
      end
  end.

Definition processStepParameters (params : Json) (context : gmap string Json)
  : Completion Json :=
  let paramsStr := JSON_stringify params in
  match replace_placeholders (substitute context) 0 paramsStr with
  | Normal processedParamsStr => JSON_parse processedParamsStr
  | Throw m => Throw m
  end.

(** ** Steps and plans *)

Inductive StepStatus : Type := pending | running | completed | failed.

Inductive PlanStatus : Type :=
| planning | executing | plan_completed | plan_failed | waiting_for_input.

#[global] Instance StepStatus_eq_dec : EqDecision StepStatus.
Proof. solve_decision. Defined.

#[global] Instance PlanStatus_eq_dec : EqDecision PlanStatus.
Proof. solve_decision. Defined.

Module Step.
Record t : Type := mk {
  id : string;
  toolName : string;
  params : Json;
  dependsOn : option (list string);
  status : StepStatus;
  result : option Json;
  error : option string;
  retryCount : Z;
  maxRetries : Z
}.

Definition set_status (st : StepStatus) (s : t) : t :=
  mk (id s) (toolName s) (params s) (dependsOn s) st
     (result s) (error s) (retryCount s) (maxRetries s).
Definition set_result (r : Json) (s : t) : t :=
  mk (id s) (toolName s) (params s) (dependsOn s) (status s)
     (Some r) (error s) (retryCount s) (maxRetries s).
Definition set_error (e : string) (s : t) : t :=
  mk (id s) (toolName s) (params s) (dependsOn s) (status s)
     (result s) (Some e) (retryCount s) (maxRetries s).
Definition set_retryCount (n : Z) (s : t) : t :=
  mk (id s) (toolName s) (params s) (dependsOn s) (status s)
     (result s) (error s) n (maxRetries s).
End Step.

Module Plan.
Record t : Type := mk {
  id : string;
  steps : list Step.t;
  currentStepIndex : Z;
  status : PlanStatus;
  context : gmap string Json;
  userMessage : string;
  response : option string
}.

Definition set_status (st : PlanStatus) (p : t) : t :=
  mk (id p) (steps p) (currentStepIndex p) st (context p)
     (userMessage p) (response p).
Definition set_steps (l : list Step.t) (p : t) : t :=
  mk (id p) l (currentStepIndex p) (status p) (context p)
     (userMessage p) (response p).
Definition set_context (c : gmap string Json) (p : t) : t :=
  mk (id p) (steps p) (currentStepIndex p) (status p) c
     (userMessage p) (response p).
End Plan.

Abbreviation OperationStep := Step.t.
Abbreviation OperationPlan := Plan.t.

(** ** Building a plan *)

(** One entry of the model's [tool_calls]. *)
Record ToolCall : Type := {
  tc_id : string;
  tc_type : string;
  tc_name : string;
  tc_arguments : string
}.

(** The [map] of [createOperationPlan], with the [filter] folded in;
    [JSON.parse] of a call's arguments may throw. *)
Fixpoint build_steps (toolCalls : list ToolCall) : Completion (list OperationStep) :=
  match toolCalls with
  | [] => Normal []
  | toolCall :: rest =>
      if negb (String.eqb (tc_type toolCall) "function") then build_steps rest
      else
        match JSON_parse (tc_arguments toolCall) with
        | Throw m => Throw m
        | Normal args =>
            match build_steps rest with
            | Throw m => Throw m
            | Normal steps =>
                Normal (Step.mk (tc_id toolCall) (tc_name toolCall) args None
                                pending None None 0 3 :: steps)
            end
        end
  end.

(** [uuid] stands for the value [uuidv4()] returns. *)
Definition createOperationPlan (uuid : string) (toolCalls : list ToolCall)
    (userMessage : string) : Completion OperationPlan :=
  match build_steps toolCalls with
  | Throw m => Throw m
  | Normal steps => Normal (Plan.mk uuid steps 0 planning ∅ userMessage None)
  end.

(** ** The outside world *)

(** What a step does that an observer can see: a write to its [status]
    field, or a call of one of the three Shopify tools. *)
Inductive Event : Type :=
| Wrote (st : StepStatus)
| Invoked (tool : string) (args : Json).

(** [calls] counts the tool invocations made so far; [trace] records every
    event together with the position in [plan.steps] of the step concerned. *)
Record World : Type := mkWorld {
  calls : nat;
  trace : list (nat * Event)
}.

Definition emit (i : nat) (e : Event) (w : World) : World :=
  mkWorld (calls w) (trace w ++ [(i, e)]).

Definition web_search_error : string :=
  "Web search is not available in the current implementation. Please use introspect_schema instead.".

Section Executor.

(** The tools: [invoke n name args] is what the [n]-th invocation overall
    yields when it calls tool [name] with [args], either a returned value
    or a propagated exception. *)
Variable invoke : nat -> string -> Json -> Completion Json.

Definition call_tool (i : nat) (name : string) (args : Json) (w : World)
  : World * Completion Json :=
  (mkWorld (S (calls w)) (trace w ++ [(i, Invoked name args)]),
   invoke (calls w) name args).

(** The [if]/[else if] chain of [executeStep] that picks the tool. *)
Definition dispatch (i : nat) (w : World) (step : OperationStep)
    (processedParams : Json) : World * Completion Json :=
  if String.eqb (Step.toolName step) "execute_query" then
    call_tool i "execute_query" processedParams w
  else if String.eqb (Step.toolName step) "execute_mutation" then
    call_tool i "execute_mutation" processedParams w
  else if String.eqb (Step.toolName step) "introspect_schema" then
    call_tool i "introspect_schema" processedParams w
  else if String.eqb (Step.toolName step) "web_search" then
    (w, Normal (JObject [("error", JString web_search_error)]))
  else (w, Throw ("Unknown tool: " +:+ Step.toolName step)).

(** [if (result.error) throw new Error(result.error)]. *)
Definition check_result (result : Json) : Completion Json :=
  match js_prop (Some result) "error" with
  | Throw m => Throw m
  | Normal e =>
      if truthy_opt e
      then Throw (match e with Some v => js_String v | None => EmptyString end)
      else Normal result
  end.

(** The statements of the [try] block of [executeStep] up to the check of
    [result.error]. *)
Definition attempt (i : nat) (w : World) (step : OperationStep)
    (context : gmap string Json) : World * Completion Json :=
  match processStepParameters (Step.params step) context with
  | Throw m => (w, Throw m)
  | Normal processedParams =>
      let '(w1, r) := dispatch i w step processedParams in
      match r with
      | Throw m => (w1, Throw m)
      | Normal result => (w1, check_result result)
      end
  end.

Definition retry_message (retryCount maxRetries : Z) (msg : string) : string :=
  "Error (retry " +:+ Z_to_string retryCount +:+ "/" +:+ Z_to_string maxRetries
    +:+ "): " +:+ msg.

(** [executeStep(step, context)]: the step after the call and what the
    call completes with.  [i], the step's position, only labels the trace. *)
Definition executeStep (i : nat) (w : World) (step : OperationStep)
    (context : gmap string Json) : World * OperationStep * Completion Json :=
  let step := Step.set_status running step in
  let w := emit i (Wrote running) w in
  match attempt i w step context with
  | (w, Normal result) =>
      let step := Step.set_status completed step in
      let w := emit i (Wrote completed) w in
      let step := Step.set_result result step in
      (w, step, Normal result)
  | (w, Throw message) =>
      let step := Step.set_retryCount (Step.retryCount step + 1) step in
      if Step.maxRetries step <? Step.retryCount step then
        let step := Step.set_status failed step in
        let w := emit i (Wrote failed) w in
        let step := Step.set_error message step in
        (w, step, Throw message)
      else
        let step := Step.set_status pending step in
        let w := emit i (Wrote pending) w in
        let step :=
          Step.set_error
            (retry_message (Step.retryCount step) (Step.maxRetries step) message)
            step in
        (w, step, Throw message)
  end.

(** ** Scheduler *)

(** The callback of [dependsOn.every]: the first step with that id exists
    and is completed. *)
Definition dependency_met (steps : list OperationStep) (depId : string) : bool :=
  match List.find (fun s => String.eqb (Step.id s) depId) steps with
  | Some depStep => bool_decide (Step.status depStep = completed)
  | None => false
  end.

(** The body of the scheduler's loop: [true] when it reaches [return step]. *)
Definition runnable (steps : list OperationStep) (step : OperationStep) : bool :=
  if bool_decide (Step.status step = completed)
     || bool_decide (Step.status step = running)
  then false
  else
    match Step.dependsOn step with
    | Some deps => forallb (dependency_met steps) deps
    | None => true
    end.

Fixpoint scan (all : list OperationStep) (i : nat) (rest : list OperationStep)
  : option (nat * OperationStep) :=
  match rest with
  | [] => None
  | step :: rest' =>
      if runnable all step then Some (i, step) else scan all (S i) rest'
  end.

(** The step returned and its position in [plan.steps]: the source returns
    the object itself, which the caller then mutates in place. *)
Definition getNextExecutableStep (plan : OperationPlan)
  : option (nat * OperationStep) :=
  scan (Plan.steps plan) 0 (Plan.steps plan).

(** ** Context accumulator *)

(** [Object.keys(data).forEach(key => context[key] = data[key])]. *)
Definition copy_data (data : Json) (context : gmap string Json)
  : gmap string Json :=
  foldl (fun c key =>
           match js_index data key with
           | Some v => <[key := v]> c
           | None => delete key c
           end)
        context (js_keys data).

(** One of the two guarded blocks of [updateOperationContext]. *)
Definition copy_if (tool : string) (step : OperationStep)
    (context : gmap string Json) : gmap string Json * Completion unit :=
  if String.eqb (Step.toolName step) tool then
    match js_prop (Step.result step) "data" with
    | Throw m => (context, Throw m)
    | Normal d =>
        match d with
        | Some data =>
            if truthy data then (copy_data data context, Normal tt)
            else (context, Normal tt)
        | None => (context, Normal tt)
        end
    end
  else (context, Normal tt).

(** [updateOperationContext(plan, step)]: the plan with its context
    updated, and whether the call threw. *)
Definition updateOperationContext (plan : OperationPlan) (step : OperationStep)
  : OperationPlan * Completion unit :=
  let context :=
    match Step.result step with
    | Some result => <[Step.id step := result]> (Plan.context plan)
    | None => delete (Step.id step) (Plan.context plan)
    end in
  match copy_if "execute_query" step context with
  | (context, Throw m) => (Plan.set_context context plan, Throw m)
  | (context, Normal _) =>
      match copy_if "execute_mutation" step context with
      | (context, c) => (Plan.set_context context plan, c)
      end
  end.

(** ** Orchestrator *)

Definition isOperationComplete (plan : OperationPlan) : bool :=
  forallb (fun step => bool_decide (Step.status step = completed)) (Plan.steps plan).

Definition hasFailedSteps (plan : OperationPlan) : bool :=
  existsb (fun step => bool_decide (Step.status step = failed)) (Plan.steps plan).

(** The statements after the [while] loop. *)
Definition settle (plan : OperationPlan) : OperationPlan :=
  if isOperationComplete plan then Plan.set_status plan_completed plan
  else if hasFailedSteps plan then Plan.set_status plan_failed plan
  else plan.

(** The [while] loop and what follows it.  Each iteration that does not
    return completes one more step, so [fuel] bounds the iterations. *)
Fixpoint drive_loop (fuel : nat) (w : World) (plan : OperationPlan)
  : option (World * OperationPlan) :=
  match fuel with
  | O => None
  | S fuel =>
      match getNextExecutableStep plan with
      | None => Some (w, settle plan)
      | Some (i, nextStep) =>
          let '(w, nextStep, c) := executeStep i w nextStep (Plan.context plan) in
          let plan := Plan.set_steps (<[i := nextStep]> (Plan.steps plan)) plan in
          let caught (plan : OperationPlan) :=
            if bool_decide (Step.status nextStep = failed)
            then Plan.set_status plan_failed plan
            else plan in
          match c with
          | Throw _ => Some (w, caught plan)
          | Normal _ =>
              match updateOperationContext plan nextStep with
              | (plan, Normal _) => drive_loop fuel w plan
              | (plan, Throw _) => Some (w, caught plan)
              end
          end
      end
  end.

Definition executeOperationPlan (w : World) (plan : OperationPlan)
  : option (World * OperationPlan) :=
  let plan := Plan.set_status executing plan in
  drive_loop (S (List.length (Plan.steps plan))) w plan.

End Executor.

(** ** Repeated driving, failing tools, and what a trace shows *)

(** [n] successive calls of [executeOperationPlan] on the same plan object. *)
Fixpoint drive_n (invoke : nat -> string -> Json -> Completion Json)
    (n : nat) (w : World) (plan : OperationPlan) : option (World * OperationPlan) :=
  match n with
  | O => Some (w, plan)
  | S n' =>
      match executeOperationPlan invoke w plan with
      | Some (w', plan') => drive_n invoke n' w' plan'
      | None => None
      end
  end.

(** A tool outcome that [executeStep] treats as a failure: an exception, a
    [null] result, or a result with a truthy [error]. *)
Definition tool_fails (c : Completion Json) : Prop :=
  match c with
  | Throw _ => True
  | Normal JNull => True
  | Normal r => truthy_opt (js_index r "error") = true
  end.

(** The tool called [name] fails at every invocation from the [n0]-th
    invocation overall onwards. *)
Definition fails_from (invoke : nat -> string -> Json -> Completion Json)
    (n0 : nat) (name : string) : Prop :=
  forall n args, (n0 <= n)%nat -> tool_fails (invoke n name args).

(** The names [executeStep] dispatches on. *)
Definition recognized (name : string) : Prop :=
  name = "execute_query" \/ name = "execute_mutation"
  \/ name = "introspect_schema" \/ name = "web_search".

Definition is_attempt (i : nat) (e : nat * Event) : bool :=
  match e with
  | (j, Wrote running) => Nat.eqb j i
  | _ => false
  end.

(** How many times the step at position [i] was started. *)
Definition attempts (i : nat) (tr : list (nat * Event)) : nat :=
  List.length (List.filter (is_attempt i) tr).

Definition is_write (i : nat) (e : nat * Event) : option StepStatus :=
  match e with
  | (j, Wrote st) => if Nat.eqb j i then Some st else None
  | _ => None
  end.

(** The successive values written to the status of the step at position [i]. *)
Definition status_writes (i : nat) (tr : list (nat * Event)) : list StepStatus :=
  omap (is_write i) tr.

(** ** Plans the engine can be in *)

(** A plan none of whose steps has been started. *)
Definition fresh (plan : OperationPlan) : Prop :=
  Forall (fun s => Step.status s = pending) (Plan.steps plan).

(** The plans obtained from a fresh one by driving it any number of times,
    against any tools. *)
Inductive reachable : OperationPlan -> Prop :=
| reach_fresh plan : fresh plan -> reachable plan
| reach_drive invoke w plan w' plan' :
    reachable plan ->
    executeOperationPlan invoke w plan = Some (w', plan') ->
    reachable plan'.

(** ** The scheduler's contract, in the words of the design *)

(** The step an id refers to: the first step of the plan carrying it. *)
Definition refers_to (steps : list OperationStep) (d : string)
    (dep : OperationStep) : Prop :=
  exists j, steps !! j = Some dep /\ Step.id dep = d /\
    forall j' s', (j' < j)%nat -> steps !! j' = Some s' -> Step.id s' <> d.

(** A step qualifies when it is neither completed nor running and every
    step it depends on exists and is completed. *)
Definition qualifies (steps : list OperationStep) (s : OperationStep) : Prop :=
  Step.status s <> completed /\ Step.status s <> running /\
  forall deps, Step.dependsOn s = Some deps ->
    forall d, d ∈ deps -> exists dep, refers_to steps d dep /\ Step.status dep = completed.

(** ** Closed forms of what [executeStep] leaves behind *)

(** The step as the success path leaves it. *)
Definition after_success (r : Json) (s : OperationStep) : OperationStep :=
  Step.mk (Step.id s) (Step.toolName s) (Step.params s) (Step.dependsOn s)
          completed (Some r) (Step.error s) (Step.retryCount s) (Step.maxRetries s).

(** The step as the [catch] block leaves it. *)
Definition after_failure (message : string) (s : OperationStep) : OperationStep :=
  let n := Step.retryCount s + 1 in
  if Step.maxRetries s <? n then
    Step.mk (Step.id s) (Step.toolName s) (Step.params s) (Step.dependsOn s)
            failed (Step.result s) (Some message) n (Step.maxRetries s)
  else
    Step.mk (Step.id s) (Step.toolName s) (Step.params s) (Step.dependsOn s)
            pending (Step.result s)
            (Some (retry_message n (Step.maxRetries s) message)) n (Step.maxRetries s).

(** The events between the two status writes of one attempt: at most one
    invocation, of the step's own tool. *)
Definition invocations_of (i : nat) (s : OperationStep) (mid : list (nat * Event))
  : Prop :=
  mid = [] \/ exists args, mid = [(i, Invoked (Step.toolName s) args)].

(** What the scheduler looks at in a step. *)
Definition sched_eq (a b : OperationStep) : Prop :=
  Step.id a = Step.id b /\ Step.dependsOn a = Step.dependsOn b /\
  (Step.status a = completed <-> Step.status b = completed) /\
  (Step.status a = running <-> Step.status b = running).

(** The step after an attempt that completed with [c]. *)
Definition step_after (c : Completion Json) (s : OperationStep) : OperationStep :=
  match c with
  | Normal r => after_success r s
  | Throw m => after_failure m s
  end.

(** The world after an attempt of the step at position [i] that made the
    invocations [mid] and left the step with status [st]. *)
Definition world_after (i : nat) (mid : list (nat * Event)) (st : StepStatus)
    (w : World) : World :=
  mkWorld (calls w + List.length mid)
          (trace w ++ (i, Wrote running) :: mid ++ [(i, Wrote st)]).

(** The context as [updateOperationContext] leaves it for a step whose
    result is [r]. *)
Definition folded (r : Json) (step : OperationStep) (context : gmap string Json)
  : gmap string Json :=
  let c0 := <[Step.id step := r]> context in
  let c1 := fst (copy_if "execute_query" step c0) in
  fst (copy_if "execute_mutation" step c1).

(** The plan after one iteration of the drive loop that ran the step [s]
    at position [i] and saw it complete with [c]. *)
Definition plan_after (i : nat) (c : Completion Json) (s : OperationStep)
    (plan : OperationPlan) : OperationPlan :=
  let s' := step_after c s in
  let plan1 := Plan.set_steps (<[i := s']> (Plan.steps plan)) plan in
  match c with
  | Normal r => Plan.set_context (folded r s' (Plan.context plan)) plan1
  | Throw _ =>
      if bool_decide (Step.status s' = failed)
      then Plan.set_status plan_failed plan1
      else plan1
  end.

(** Steps that are not yet completed: what bounds the drive loop. *)
Definition remaining (steps : list OperationStep) : nat :=
  List.length
    (List.filter (fun s => negb (bool_decide (Step.status s = completed))) steps).

(** What holds of the steps of a plan between two drives: no step is
    running, and a failed step has exhausted its retries and is the very
    step the scheduler would pick next. *)
Definition settled (steps : list OperationStep) : Prop :=
  Forall (fun s => Step.status s <> running) steps /\
  forall j s, steps !! j = Some s -> Step.status s = failed ->
    Step.maxRetries s < Step.retryCount s /\
    fst <$> scan steps 0 steps = Some j.

(** The relation between a plan's status and its steps' statuses. *)
Definition status_agrees (plan : OperationPlan) : Prop :=
  (Plan.status plan = plan_completed <->
   Forall (fun s => Step.status s = completed) (Plan.steps plan)) /\
  (Plan.status plan = plan_failed <->
   Exists (fun s => Step.status s = failed) (Plan.steps plan)) /\
  (~ Forall (fun s => Step.status s = completed) (Plan.steps plan) ->
   ~ Exists (fun s => Step.status s = failed) (Plan.steps plan) ->
   Plan.status plan = executing).

(** [s'] is [s] after [k] failed attempts: only the status, the retry
    counter and the recorded error have changed. *)
Definition retried (k : nat) (s s' : OperationStep) : Prop :=
  Step.id s' = Step.id s /\ Step.toolName s' = Step.toolName s /\
  Step.params s' = Step.params s /\ Step.dependsOn s' = Step.dependsOn s /\
  Step.maxRetries s' = Step.maxRetries s /\ Step.result s' = Step.result s /\
  Step.retryCount s' = Step.retryCount s + Z.of_nat k /\
  ((k = 0%nat /\ s' = s) \/
   ((1 <= k)%nat /\
    ((Step.maxRetries s < Step.retryCount s' /\ Step.status s' = failed /\
      exists m, Step.error s' = Some m) \/
     (Step.retryCount s' <= Step.maxRetries s /\ Step.status s' = pending /\
      exists m, Step.error s'
                = Some (retry_message (Step.retryCount s') (Step.maxRetries s) m))))).

(** Every event of [tr] concerns the step at position [i]. *)
Definition only_step (i : nat) (tr : list (nat * Event)) : Prop :=
  Forall (fun e => fst e = i) tr.

(** What one drive may do to the step [s] at position [i], given the events
    [new] of the drive and the plan it returns: leave it alone, or run it
    once. *)
Definition untouched (i : nat) (s : OperationStep) (new : list (nat * Event))
    (plan' : OperationPlan) : Prop :=
  (forall e, (i, e) ∉ new) /\ Plan.steps plan' !! i = Some s.

Definition ran_once (i : nat) (s : OperationStep) (new : list (nat * Event))
    (plan' : OperationPlan) : Prop :=
  (Step.status s = pending \/ Step.status s = failed) /\
  exists s', Plan.steps plan' !! i = Some s' /\
    status_writes i new = [running; Step.status s'] /\
    (Step.status s' = completed \/
     ((Step.status s' = pending \/ Step.status s' = failed) /\
      Step.retryCount s' = Step.retryCount s + 1)).

(** ** What [createOperationPlan] makes of one tool call *)

(** The test of the [map] callback: only calls of type [function] give a
    step. *)
Definition is_function (toolCall : ToolCall) : bool :=
  String.eqb (tc_type toolCall) "function".

(** The object literal the callback returns for a call whose arguments
    parsed to [args]. *)
Definition step_of_call (toolCall : ToolCall) (args : Json) : OperationStep :=
  Step.mk (tc_id toolCall) (tc_name toolCall) args None pending None None 0 3.

(** The keys the replacement callback is called with, in order: the
    captures of the successive matches of [/{{([^}]+)}}/g] in [s]. *)
Fixpoint placeholder_keys (skip : nat) (s : string) : list string :=
  match s with
  | EmptyString => []
  | String c r =>
      match skip with
      | S k => placeholder_keys k r
      | O =>
          match match_placeholder s with
          | Some key => key :: placeholder_keys (String.length key + 3) r
          | None => placeholder_keys 0 r
          end
      end
  end.

Fixpoint all_chars (p : ascii -> bool) (s : string) : bool :=
  match s with
  | EmptyString => true
  | String c r => p c && all_chars p r
  end.

(** A character that needs no escape inside a JSON string literal. *)
Definition is_plain (c : ascii) : bool :=
  ((32 <=? code c) && negb (code c =? 34) && negb (code c =? 92))%N.

(** ** Tools that answer, and steps that wait for others *)

(** The names for which [executeStep] calls a Shopify tool. *)
Definition calls_tool (name : string) : Prop :=
  name = "execute_query" \/ name = "execute_mutation" \/ name = "introspect_schema".

(** A tool outcome that [executeStep] accepts: a value other than [null]
    whose [error] is falsy. *)
Definition tool_succeeds (c : Completion Json) : Prop :=
  match c with
  | Normal r => r <> JNull /\ truthy_opt (js_index r "error") = false
  | Throw _ => False
  end.

(** The events of one successful attempt of the step [s] at position [i]
    whose parameters resolve to themselves. *)
Definition attempt_events (i : nat) (s : OperationStep) : list (nat * Event) :=
  [(i, Wrote running); (i, Invoked (Step.toolName s) (Step.params s));
   (i, Wrote completed)].

(** The events of a drive in which the steps from position [i] on succeed
    one after the other. *)
Fixpoint happy_trace (i : nat) (steps : list OperationStep) : list (nat * Event) :=
  match steps with
  | [] => []
  | s :: rest => attempt_events i s ++ happy_trace (S i) rest
  end.

(** The position of the step an id refers to: the first step carrying it,
    as [plan.steps.find] returns it. *)
Fixpoint first_with_id (steps : list OperationStep) (d : string) : option nat :=
  match steps with
  | [] => None
  | s :: rest =>
      if String.eqb (Step.id s) d then Some 0%nat else S <$> first_with_id rest d
  end.

(** Whether every dependency of the step at position [i] refers to a step
    whose position is in [done]. *)
Definition dependencies_in (steps : list OperationStep) (fin : list nat) (i : nat)
  : bool :=
  match steps !! i with
  | Some s =>
      match Step.dependsOn s with
      | Some deps =>
          forallb (fun d => match first_with_id steps d with
                            | Some j => bool_decide (j ∈ fin)
                            | None => false
                            end) deps
      | None => true
      end
  | None => true
  end.

(** The positions completed once the event [e] of the step at position [i]
    has happened. *)
Definition done_after (fin : list nat) (ev : nat * Event) : list nat :=
  match ev with
  | (i, Wrote completed) => i :: fin
  | _ => fin
  end.

(** Replaying a trace from the completed positions [done]: every event of
    a step finds the dependencies of that step completed. *)
Fixpoint respects_dependencies (steps : list OperationStep) (fin : list nat)
    (tr : list (nat * Event)) : bool :=
  match tr with
  | [] => true
  | ev :: rest =>
      dependencies_in steps fin (fst ev)
      && respects_dependencies steps (done_after fin ev) rest
  end.

(** The positions, counted from [i], of the completed steps. *)
Fixpoint completed_from (i : nat) (steps : list OperationStep) : list nat :=
  match steps with
  | [] => []
  | s :: rest =>
      if bool_decide (Step.status s = completed)
      then i :: completed_from (S i) rest else completed_from (S i) rest
  end.

(** A set of positions whose steps wait for one another or for an id no
    step carries: each is not completed and has a dependency that refers to
    no step or to a step of the set. *)
Definition blocked (steps : list OperationStep) (B : list nat) : Prop :=
  forall i, i ∈ B ->
    exists s deps d,
      steps !! i = Some s /\ Step.status s <> completed /\
      Step.dependsOn s = Some deps /\ d ∈ deps /\
      match first_with_id steps d with
      | Some j => j ∈ B
      | None => True
      end.

(** ** The Shopify tools ([shopify.server.ts]) *)

(** An object literal some of whose property values may be [undefined].
    Such a property reads as [undefined] and is left out by
    [JSON.stringify], like an absent one: it is represented as absent. *)
Definition object_literal (fields : list (string * option Json)) : Json :=
  JObject (omap (fun kv => match snd kv with
                           | Some v => Some (fst kv, v)
                           | None => None
                           end) fields).

(** [a || b] where [a] may be [undefined]. *)
Definition js_or (a : option Json) (b : Json) : Json :=
  match a with
  | Some v => if truthy v then v else b
  | None => b
  end.

(** [typeof v] for a primitive [v], as the engine names it in a message. *)
Definition js_typeof (v : Json) : string :=
  match v with
  | JBool _ => "boolean"
  | JNum _ => "number"
  | JString _ => "string"
  | JNull | JArray _ | JObject _ => "object"
  end.

(** The part of [process.env] the client reads. *)
Record Env : Type := {
  SHOPIFY_STORE_DOMAIN : option string;
  SHOPIFY_ADMIN_TOKEN : option string
}.

(** Whether an environment variable is set to a non-empty string. *)
Definition env_set (v : option string) : bool :=
  match v with
  | Some s => negb (String.eqb s EmptyString)
  | None => false
  end.

(** What [fetch] is called with. *)
Record Request : Type := {
  req_url : string;
  req_method : string;
  req_headers : list (string * string);
  req_body : string
}.

Definition missing_credentials : string :=
  "Missing Shopify API credentials. Check your .env file.".

(** [result.errors && Array.isArray(result.errors) && result.errors.length > 0]:
    the first error when the test holds. *)
Definition first_error (result : Json) : option Json :=
  match js_index result "errors" with
  | Some (JArray (e :: _)) => Some e
  | _ => None
  end.

(** [e?.message]. *)
Definition message_of (e : Json) : option Json :=
  match e with
  | JNull => None
  | _ => js_index e "message"
  end.

(** [a === b] for a value [a] read from a response and a value [b] read
    from the arguments: two objects or two arrays are then never the same
    object. *)
Definition strict_equal (a : option Json) (b : Json) : bool :=
  match a, b with
  | Some JNull, JNull => true
  | Some (JBool x), JBool y => Bool.eqb x y
  | Some (JNum x), JNum y => (x =? y)%Z
  | Some (JString x), JString y => String.eqb x y
  | _, _ => false
  end.

(** [fields.find(f => f.name === name)]. *)
Fixpoint find_field (fields : list Json) (name : Json) : Completion (option Json) :=
  match fields with
  | [] => Normal None
  | f :: rest =>
      match f with
      | JNull => Throw "Cannot read properties of null (reading 'name')"
      | _ =>
          if strict_equal (js_index f "name") name then Normal (Some f)
          else find_field rest name
      end
  end.

(** The query text of the focused branch of [introspectShopifySchema]. *)
Definition type_query (typeName : string) : string :=
  "
        query {
          __type(name: " +:+ str1 dquote +:+ typeName +:+ str1 dquote +:+ ") {
            name
            kind
            description
            fields {
              name
              description
              type {
                name
                kind
                ofType {
                  name
                  kind
                }
              }
              args {
                name
                description
              }
            }
            inputFields {
              name
              description
            }
          }
        }
      ".

Definition common_type_names : list string :=
  ["Product"; "ProductVariant"; "Order"; "Customer";
   "Shop"; "Collection"; "Metafield"; "Money"].

(** The answer of [introspectShopifySchema] to a general request. *)
Definition common_types_answer : Json :=
  JObject
    [("data",
      JObject
        [("commonTypes",
          JArray
            (map (fun typeName =>
                    JObject
                      [("name", JString typeName);
                       ("usage",
                        JString ("Query this type directly with introspect_schema({ type: "
                                 +:+ str1 dquote +:+ typeName +:+ str1 dquote +:+ " })"))])
                 common_type_names));
         ("queryExample",
          JString "To see available query fields, use introspect_schema({ type: 'QueryRoot' })");
         ("mutationExample",
          JString "To see available mutation fields, use introspect_schema({ type: 'MutationRoot' })")])].

Definition type_not_found (typeName : string) : string :=
  "Type " +:+ str1 dquote +:+ typeName +:+ str1 dquote +:+ " not found in schema".

Definition field_not_found (fieldName typeName : string) : string :=
  "Field " +:+ str1 dquote +:+ fieldName +:+ str1 dquote +:+ " not found on type "
    +:+ str1 dquote +:+ typeName +:+ str1 dquote.

Section Shopify.

Variable env : Env.

(** The network: [await fetch(url, init)] followed by
    [await response.json()] yields the parsed body, or the error either of
    them rejects with. *)
Variable fetch : Request -> Completion Json.

(** [callShopifyGraphQL(query, variables)]: the request sent, if any, and
    the result.  The source returns the parsed body with one more property,
    [_graphql]; its callers read the properties of the body and that one,
    which are returned side by side.  Assigning a property to a primitive
    throws, as in every ES module. *)
Definition callShopifyGraphQL (query : option Json) (variables : option Json)
  : option Request * Completion (Json * Json) :=
  let variables := match variables with Some v => v | None => JObject [] end in
  match SHOPIFY_STORE_DOMAIN env, SHOPIFY_ADMIN_TOKEN env with
  | Some shopDomain, Some shopToken =>
      if env_set (Some shopDomain) && env_set (Some shopToken) then
        let request :=
          {| req_url := "https://" +:+ shopDomain +:+ "/admin/api/2025-01/graphql.json";
             req_method := "POST";
             req_headers := [("Content-Type", "application/json");
                             ("X-Shopify-Access-Token", shopToken)];
             req_body := JSON_stringify (object_literal [("query", query);
                                                         ("variables", Some variables)]) |} in
        match fetch request with
        | Throw m => (Some request, Throw m)
        | Normal JNull =>
            (Some request, Throw "Cannot read properties of null (reading 'data')")
        | Normal result =>
            let graphql :=
              object_literal
                [("query", query); ("variables", Some variables);
                 ("response",
                  Some (object_literal [("data", js_index result "data");
                                        ("errors", js_index result "errors")]))] in
            match result with
            | JObject _ | JArray _ => (Some request, Normal (result, graphql))
            | _ =>
                (Some request,
                 Throw ("Cannot create property '_graphql' on " +:+ js_typeof result
                        +:+ " '" +:+ js_String result +:+ "'"))
            end
        end
      else (None, Throw missing_credentials)
  | _, _ => (None, Throw missing_credentials)
  end.

(** The common text of [executeShopifyQuery] and [executeShopifyMutation],
    which differ in the property that carries the document and in the
    message used for an error without one.  The parameter is destructured
    before the [try] block is entered: [null] arguments throw. *)
Definition graphql_tool (property fallback : string) (args : Json)
  : option Request * Completion Json :=
  match args with
  | JNull =>
      (None, Throw ("Cannot destructure property '" +:+ property
                    +:+ "' of 'object null' as it is null."))
  | _ =>
      let document := js_index args property in
      let variables :=
        match js_index args "variables" with Some v => v | None => JObject [] end in
      match callShopifyGraphQL document (Some variables) with
      | (request, Normal (result, graphql)) =>
          match first_error result with
          | Some e =>
              let errorMessage :=
                js_or (message_of e)
                      (match e with JString _ => e | _ => JString "Unknown error" end) in
              (request, Normal (object_literal [("error", Some errorMessage);
                                                ("_graphql", Some graphql)]))
          | None =>
              (request, Normal (object_literal [("data", js_index result "data");
                                                ("_graphql", Some graphql)]))
          end
      | (request, Throw message) =>
          (request,
           Normal (object_literal
                     [("error", Some (JString (if String.eqb message EmptyString
                                               then fallback else message)))]))
      end
  end.

Definition executeShopifyQuery : Json -> option Request * Completion Json :=
  graphql_tool "query" "Error executing GraphQL query".

Definition executeShopifyMutation : Json -> option Request * Completion Json :=
  graphql_tool "mutation" "Error executing GraphQL mutation".

(** The [try] block of [introspectShopifySchema]. *)
Definition introspect (options : Json) : option Request * Completion Json :=
  match js_prop (Some options) "type" with
  | Throw m => (None, Throw m)
  | Normal type =>
      if truthy_opt type then
        let typeName := match type with Some v => js_String v | None => EmptyString end in
        match callShopifyGraphQL (Some (JString (type_query typeName))) None with
        | (request, Throw m) => (request, Throw m)
        | (request, Normal (result, _)) =>
            match first_error result with
            | Some e =>
                (request,
                 Normal (object_literal
                           [("error", Some (js_or (message_of e)
                                                  (JString "Error fetching type")))]))
            | None =>
                let typeInfo :=
                  match js_index result "data" with
                  | Some JNull | None => None
                  | Some data => js_index data "__type"
                  end in
                match typeInfo with
                | Some info =>
                    if truthy info then
                      match js_index options "field" with
                      | Some field =>
                          if truthy field && truthy_opt (js_index info "fields") then
                            match js_index info "fields" with
                            | Some (JArray fields) =>
                                match find_field fields field with
                                | Throw m => (request, Throw m)
                                | Normal found =>
                                    if truthy_opt found then
                                      (request,
                                       Normal (JObject
                                                 [("data", object_literal [("field", found)])]))
                                    else
                                      (request,
                                       Normal (JObject
                                                 [("error",
                                                   JString (field_not_found (js_String field)
                                                                            typeName))]))
                                end
                            | _ => (request, Throw "typeInfo.fields.find is not a function")
                            end
                          else (request, Normal (JObject [("data", JObject [("type", info)])]))
                      | None => (request, Normal (JObject [("data", JObject [("type", info)])]))
                      end
                    else (request, Normal (JObject [("error", JString (type_not_found typeName))]))
                | None => (request, Normal (JObject [("error", JString (type_not_found typeName))]))
                end
            end
        end
      else (None, Normal common_types_answer)
  end.

(** [introspectShopifySchema(options)]: whatever the [try] block throws is
    returned as an [error]. *)
Definition introspectShopifySchema (options : Json) : option Request * Completion Json :=
  match introspect options with
  | (request, Throw m) => (request, Normal (JObject [("error", JString m)]))
  | (request, Normal r) => (request, Normal r)
  end.

End Shopify.

(** The three tools as [executeStep] invokes them, the [n]-th invocation
    against the network as it answers then; [dispatch] asks for no other
    name. *)
Definition shopify_tools (env : Env) (net : nat -> Request -> Completion Json)
    (n : nat) (name : string) (args : Json) : Completion Json :=
  if String.eqb name "execute_query" then snd (executeShopifyQuery env (net n) args)
  else if String.eqb name "execute_mutation" then
    snd (executeShopifyMutation env (net n) args)
  else if String.eqb name "introspect_schema" then
    snd (introspectShopifySchema env (net n) args)
  else Throw ("Unknown tool: " +:+ name).

(** ** Debug information ([getOperationDebugInfo]) *)

Record DebugStep : Type := {
  debug_id : string;
  debug_toolName : string;
  debug_status : StepStatus;
  debug_retryCount : Z;
  debug_error : option string;
  debug_result : option Json
}.

Record DebugInfo : Type := {
  info_id : string;
  info_status : PlanStatus;
  info_steps : list DebugStep;
  info_context : gmap string Json
}.

(** [{...v}]: the own enumerable properties of [v], in order. *)
Definition spread (v : Json) : list (string * Json) :=
  match v with
  | JObject kvs => kvs
  | _ =>
      omap (fun k => match js_index v k with
                     | Some x => Some (k, x)
                     | None => None
                     end) (js_keys v)
  end.

(** The [result] of a step in the debug information: when the result has a
    truthy [_graphql], a copy of it in which [_graphql] holds the query and
    the variables only. *)
Definition strip_response (result : option Json) : option Json :=
  match result with
  | None | Some JNull => result
  | Some r =>
      match js_index r "_graphql" with
      | Some g =>
          if truthy g then
            Some (JObject
                    (obj_set (spread r) "_graphql"
                       (object_literal [("query", js_index g "query");
                                        ("variables", js_index g "variables")])))
          else result
      | None => result
      end
  end.

Definition getOperationDebugInfo (plan : OperationPlan) : DebugInfo :=
  {| info_id := Plan.id plan;
     info_status := Plan.status plan;
     info_steps :=
       map (fun step =>
              {| debug_id := Step.id step;
                 debug_toolName := Step.toolName step;
                 debug_status := Step.status step;
                 debug_retryCount := Step.retryCount step;
                 debug_error := Step.error step;
                 debug_result := strip_response (Step.result step) |})
           (Plan.steps plan);
     info_context := Plan.context plan |}.

(** ** The session store ([session.server.ts]) *)

(** The two in-memory maps, keyed by chat id. *)
Record Store : Type := mkStore {
  chatHistories : gmap string (list Json);
  activeOperations : gmap string OperationPlan
}.

(** A cookie session holds at most a [chatId]: [None] is a session without
    one.  [getSession] of the cookie [commitSession] returned is taken to
    give the committed session back. *)
Definition Session : Type := option string.

(** [session.get("chatId")] when it is truthy. *)
Definition chat_id (session : Session) : option string :=
  match session with
  | Some chatId => if String.eqb chatId EmptyString then None else Some chatId
  | None => None
  end.

(** [generateSessionId()], given what [Date.now()] and
    [Math.random().toString(36).substring(2, 9)] return. *)
Definition generateSessionId (now : Z) (random : string) : string :=
  "chat_" +:+ Z_to_string now +:+ "_" +:+ random.

Definition getChatHistory (store : Store) (session : Session) : list Json :=
  match chat_id session with
  | Some chatId =>
      match chatHistories store !! chatId with
      | Some messages => messages
      | None => []
      end
  | None => []
  end.

(** The functions that write return the store and the session they
    commit; [newId] is the id [generateSessionId()] returns when it is called. *)
Definition storeChatHistory (newId : string) (store : Store) (session : Session)
    (messages : list Json) : Store * Session :=
  let chatId := match chat_id session with Some chatId => chatId | None => newId end in
  (mkStore (<[chatId := messages]> (chatHistories store)) (activeOperations store),
   Some chatId).

Definition clearChatHistory (store : Store) (session : Session) : Store * Session :=
  match chat_id session with
  | Some chatId =>
      (mkStore (delete chatId (chatHistories store))
               (delete chatId (activeOperations store)), session)
  | None => (store, session)
  end.

Definition getActiveOperation (store : Store) (session : Session)
  : option OperationPlan :=
  match chat_id session with
  | Some chatId => activeOperations store !! chatId
  | None => None
  end.

Definition storeActiveOperation (newId : string) (store : Store) (session : Session)
    (operation : OperationPlan) : Store * Session :=
  let chatId := match chat_id session with Some chatId => chatId | None => newId end in
  (mkStore (chatHistories store) (<[chatId := operation]> (activeOperations store)),
   Some chatId).

Definition clearActiveOperation (store : Store) (session : Session)
  : Store * Session :=
  match chat_id session with
  | Some chatId =>
      (mkStore (chatHistories store) (delete chatId (activeOperations store)), session)
  | None => (store, session)
  end.

(** What the route's [action] does with the outcome of a message: it
    stores the history, then stores or clears the operation, each time
    from the session of the request, and answers with the cookie of the
    last of these calls. *)
Definition persist (id1 id2 : string) (store : Store) (session : Session)
    (messages : list Json) (operation : option OperationPlan)
    (operationAborted : bool) (activeOperation : option OperationPlan)
  : Store * Session :=
  let '(store, cookie) := storeChatHistory id1 store session messages in
  match operation with
  | Some operation => storeActiveOperation id2 store session operation
  | None =>
      if operationAborted || bool_decide (is_Some activeOperation)
      then clearActiveOperation store session
      else (store, cookie)
  end.

(** ** What a run folds into the context *)

(** The top-level keys of the payload that [updateOperationContext] copies
    for a completed step: those of [result.data], for a query or a mutation
    with a truthy payload. *)
Definition copied (s : OperationStep) : list string :=
  match Step.result s with
  | Some r =>
      match js_index r "data" with
      | Some data =>
          if (String.eqb (Step.toolName s) "execute_query"
              || String.eqb (Step.toolName s) "execute_mutation") && truthy data
          then js_keys data else []
      | None => []
      end
  | None => []
  end.

(** The keys [updateOperationContext] assigns for a completed step. *)
Definition writes (s : OperationStep) : list string := Step.id s :: copied s.

(** The context after the steps that the events [tr] show completing have
    been folded into [context], in the order of their completion; [steps]
    holds the completed steps with their results. *)
Fixpoint context_after (steps : list OperationStep) (tr : list (nat * Event))
    (context : gmap string Json) : gmap string Json :=
  match tr with
  | [] => context
  | (i, Wrote completed) :: tr =>
      match steps !! i with
      | Some s =>
          match Step.result s with
          | Some r => context_after steps tr (folded r s context)
          | None => context_after steps tr context
          end
      | None => context_after steps tr context
      end
  | _ :: tr => context_after steps tr context
  end.

(** Every invocation that [tr] shows passed the parameters of its step as
    resolved under the context folded so far. *)
Fixpoint resolved_in (before steps : list OperationStep)
    (tr : list (nat * Event)) (context : gmap string Json) : Prop :=
  match tr with
  | [] => True
  | (j, Invoked name args) :: tr' =>
      (exists t, before !! j = Some t /\ name = Step.toolName t /\
                 processStepParameters (Step.params t) context = Normal args) /\
      resolved_in before steps tr' context
  | e :: tr' => resolved_in before steps tr' (context_after steps [e] context)
  end.

(** The two fields of a step that an invocation depends on; no drive
    changes them. *)
Definition same_call (t t' : OperationStep) : Prop :=
  Step.toolName t = Step.toolName t' /\ Step.params t = Step.params t'.

(** The results of the completed steps of a plan are in its context: each
    under the id of its step, unless a completed step with the same id, or
    a payload key of that name, was written over it. *)
Definition results_kept (plan : OperationPlan) : Prop :=
  forall i s r,
    Plan.steps plan !! i = Some s -> Step.status s = completed ->
    Step.result s = Some r ->
    Plan.context plan !! Step.id s = Some r \/
    exists j t,
      Plan.steps plan !! j = Some t /\ Step.status t = completed /\
      (Step.id s ∈ copied t \/ (j <> i /\ Step.id t = Step.id s)).

(** ** Numbers the model holds *)


(** ** Scenarios *)

Module Scenario.

Definition world0 : World := mkWorld 0 [].

(** A tool that reports an error at every invocation. *)
Definition boom (n : nat) (name : string) (args : Json) : Completion Json :=
  Normal (JObject [("error", JString "boom")]).

Definition variant_payload : Json :=
  JObject [("data", JObject [("variantId", JString "gid://1")])].

(** A tool that always answers with a payload. *)
Definition answers (n : nat) (name : string) (args : Json) : Completion Json :=
  Normal variant_payload.

(** A tool that answers once and reports an error ever after. *)
Definition answers_once (n : nat) (name : string) (args : Json)
  : Completion Json :=
  match n with
  | O => Normal variant_payload
  | S _ => Normal (JObject [("error", JString "boom")])
  end.

Definition type_payload : Json :=
  JObject [("data", JObject [("type", JObject [("name", JString "Product")])])].

(** The schema tool answering a question about one type. *)
Definition describes (n : nat) (name : string) (args : Json) : Completion Json :=
  Normal type_payload.

Definition query_params : Json :=
  JObject [("query", JString "{ productVariants(first: 1) { id } }")].

Definition query_step : OperationStep :=
  Step.mk "call_1" "execute_query" query_params None pending None None 0 3.

Definition mutation_step : OperationStep :=
  Step.mk "call_2" "execute_mutation"
    (JObject [("mutation", JString "mutation { touch(id: {{variantId}}) }")])
    None pending None None 0 3.

Definition dependent_step : OperationStep :=
  Step.mk "call_2" "execute_mutation"
    (JObject [("mutation", JString "mutation { touch }");
              ("variables", JObject [("id", JString "{{variantId}}")])])
    (Some ["call_1"]) pending None None 0 3.

Definition third_step : OperationStep :=
  Step.mk "call_3" "execute_query" query_params None pending None None 0 3.

Definition introspect_step : OperationStep :=
  Step.mk "call_1" "introspect_schema" (JObject [("type", JString "Product")])
    None pending None None 0 3.

Definition unknown_step : OperationStep :=
  Step.mk "call_1" "send_email" (JObject []) None pending None None 0 3.

Definition single_plan : OperationPlan :=
  Plan.mk "plan-1" [query_step] 0 planning ∅ "find a variant" None.

Definition three_plan : OperationPlan :=
  Plan.mk "plan-3" [query_step; mutation_step; third_step] 0 planning ∅
    "find a variant and touch it" None.

Definition chained_plan : OperationPlan :=
  Plan.mk "plan-2" [dependent_step; query_step] 0 planning ∅
    "find a variant and touch it" None.

(** [single_plan] after four drives against [boom]. *)
Definition failed_step : OperationStep :=
  Step.mk "call_1" "execute_query" query_params None failed None (Some "boom") 4 3.

Definition failed_plan : OperationPlan :=
  Plan.mk "plan-1" [failed_step] 0 plan_failed ∅ "find a variant" None.

(** [single_plan] after one drive against [answers]. *)
Definition completed_step : OperationStep :=
  Step.mk "call_1" "execute_query" query_params None completed
    (Some variant_payload) None 0 3.

Definition completed_plan : OperationPlan :=
  Plan.mk "plan-1" [completed_step] 0 plan_completed
    (<["variantId" := JString "gid://1"]> {["call_1" := variant_payload]})
    "find a variant" None.

(** The arguments of a tool call as the model sends them: JSON text. *)
Definition query_call : ToolCall :=
  {| tc_id := "call_1"; tc_type := "function"; tc_name := "execute_query";
     tc_arguments := JSON_stringify query_params |}.


End Scenario.

(** ** More scenarios *)

Module Cases.

(** A call that is not of type [function]; its arguments are not JSON. *)
Definition search_call : ToolCall :=
  {| tc_id := "ws_1"; tc_type := "web_search"; tc_name := "web_search";
     tc_arguments := "shopify variants" |}.


(** A step for the tool the executor answers itself. *)
Definition search_step : OperationStep :=
  Step.mk "call_1" "web_search" (JObject [("q", JString "variants")])
    None pending None None 0 3.

(** [query_step] after one failed attempt. *)
Definition retried_step : OperationStep :=
  Step.mk "call_1" "execute_query" Scenario.query_params None pending None
    (Some "Error (retry 1/3): boom") 1 3.

Definition retried_plan : OperationPlan :=
  Plan.mk "plan-1" [retried_step] 0 executing ∅ "find a variant" None.

Definition two_plan : OperationPlan :=
  Plan.mk "plan-2" [Scenario.query_step; Scenario.third_step] 0 planning ∅
    "find two variants" None.

(** A step that depends on an id no step carries. *)
Definition waiting_step : OperationStep :=
  Step.mk "call_9" "execute_query" Scenario.query_params (Some ["call_0"])
    pending None None 0 3.

Definition waiting_plan : OperationPlan :=
  Plan.mk "plan-9" [Scenario.query_step; waiting_step] 0 planning ∅
    "find a variant, then another" None.

Definition no_token : Env :=
  {| SHOPIFY_STORE_DOMAIN := Some "shop.example"; SHOPIFY_ADMIN_TOKEN := None |}.

Definition shop : Env :=
  {| SHOPIFY_STORE_DOMAIN := Some "shop.example";
     SHOPIFY_ADMIN_TOKEN := Some "shpat_1" |}.

(** The request [executeShopifyQuery] sends for [query_params]. *)
Definition query_request : Request :=
  {| req_url := "https://shop.example/admin/api/2025-01/graphql.json";
     req_method := "POST";
     req_headers := [("Content-Type", "application/json");
                     ("X-Shopify-Access-Token", "shpat_1")];
     req_body :=
       JSON_stringify
         (JObject [("query", JString "{ productVariants(first: 1) { id } }");
                   ("variables", JObject [])]) |}.

(** An answer with one GraphQL error. *)
Definition refuses (request : Request) : Completion Json :=
  Normal (JObject [("errors",
                    JArray [JObject [("message", JString "Field 'id' doesn't exist")]])]).

(** The answer to a wrong access token: [errors] is a string. *)
Definition unauthorized (request : Request) : Completion Json :=
  Normal (JObject [("errors", JString "[API] Invalid API key or access token")]).

Definition product_options : Json :=
  JObject [("type", JString "Product"); ("field", JString "title")].

Definition title_field : Json :=
  JObject [("name", JString "title"); ("description", JString "The title")].

(** The answer to the type query for [Product]. *)
Definition describes_product (request : Request) : Completion Json :=
  Normal
    (JObject
       [("data",
         JObject
           [("__type",
             JObject [("name", JString "Product");
                      ("fields", JArray [JObject [("name", JString "id")];
                                         title_field])])])]).

(** The request [introspectShopifySchema] sends for [product_options]. *)
Definition product_request : Request :=
  {| req_url := "https://shop.example/admin/api/2025-01/graphql.json";
     req_method := "POST";
     req_headers := [("Content-Type", "application/json");
                     ("X-Shopify-Access-Token", "shpat_1")];
     req_body :=
       JSON_stringify (JObject [("query", JString (type_query "Product"));
                                ("variables", JObject [])]) |}.

(** The result of a query as [executeShopifyQuery] returns it. *)
Definition traced_result : Json :=
  JObject
    [("data", JObject [("variantId", JString "gid://1")]);
     ("_graphql",
      JObject [("query", JString "{ productVariants(first: 1) { id } }");
               ("variables", JObject []);
               ("response",
                JObject [("data", JObject [("variantId", JString "gid://1")])])])].

Definition traced_step : OperationStep :=
  Step.mk "call_1" "execute_query" Scenario.query_params None completed
    (Some traced_result) None 0 3.

Definition traced_plan : OperationPlan :=
  Plan.mk "plan-1" [traced_step] 0 plan_completed ∅ "find a variant" None.

Definition empty_store : Store := mkStore ∅ ∅.

(** A network that is down. *)
Definition offline (request : Request) : Completion Json :=
  Throw "fetch failed".

Definition gadget_options : Json := JObject [("type", JString "Gadget")].

(** The answer to the type query for a type the schema does not have. *)
Definition no_such_type (request : Request) : Completion Json :=
  Normal (JObject [("data", JObject [("__type", JNull)])]).

(** The request [introspectShopifySchema] sends for [gadget_options]. *)
Definition gadget_request : Request :=
  {| req_url := "https://shop.example/admin/api/2025-01/graphql.json";
     req_method := "POST";
     req_headers := [("Content-Type", "application/json");
                     ("X-Shopify-Access-Token", "shpat_1")];
     req_body :=
       JSON_stringify (JObject [("query", JString (type_query "Gadget"));
                                ("variables", JObject [])]) |}.

(** A store that answers every request with the same payload. *)
Definition stocked (n : nat) (request : Request) : Completion Json :=
  Normal (JObject [("data", JObject [("variantId", JString "gid://1")])]).

(** A step that names the first step's result in a string field, and the
    plan that holds it once the first step is completed. *)
Definition follow_step : OperationStep :=
  Step.mk "call_2" "execute_mutation" (JObject [("id", JString "{{call_1}}")])
    (Some ["call_1"]) pending None None 0 3.

Definition follow_plan : OperationPlan :=
  Plan.mk "plan-1" [traced_step; follow_step] 0 executing
    (<["variantId" := JString "gid://1"]> {["call_1" := traced_result]})
    "update the variant" None.

(** A request that carries a chat id. *)
Definition returning : Session := Some "chat_1_a".

End Cases.

(** * Properties *)

(** ** Serializer and parser on samples *)

(** A value with nesting, escapes, a control character and a negative
    number survives serialization followed by parsing. *)
Example parse_stringify_sample :
  let sample :=
    JObject [("id", JString "{{foo}}"); ("n", JNum (-42));
             ("a", JArray [JNull; JBool true; JArray [];
                           JString (String (chr 10) (String dquote "x\y"));
                           JString (str1 (chr 1))]);
             ("o", JObject [("k", JObject [])])] in
  JSON_parse (JSON_stringify sample) = Normal sample.
Proof. vm_compute. reflexivity. Qed.

(** A leading zero, a trailing comma and text after the value are syntax
    errors; a later duplicate key overwrites the earlier one in place. *)
Example parse_rejects_and_overwrites :
  (exists m, JSON_parse "[01]" = Throw m) /\
  (exists m, JSON_parse "[1,]" = Throw m) /\
  (exists m, JSON_parse "1 2" = Throw m) /\
  JSON_parse (JSON_stringify (JObject [("a", JNum 1); ("b", JNum 2); ("a", JNum 3)]))
  = Normal (JObject [("a", JNum 3); ("b", JNum 2)]).
Proof. vm_compute. repeat split; eexists; reflexivity. Qed.

(** Where the regular expression matches: a key may contain an opening
    brace but no closing one, and an empty key is no match. *)
Example placeholder_matches :
  match_placeholder "{{a}}" = Some "a" /\
  match_placeholder "{{{a}}" = Some "{a" /\
  match_placeholder "{{}}" = None /\
  match_placeholder "{{a}b}}" = None /\
  replace_placeholders (fun key => Normal ("<" +:+ key +:+ ">")) 0
    "x{{a}}{{}}{{b c}}y"
  = Normal "x<a>{{}}<b c>y".
Proof. vm_compute. repeat split. Qed.

(** ** The parser never runs out of fuel *)

Lemma skip_ws_length (s : string) :
  (String.length (skip_ws s) <= String.length s)%nat.
Proof.
  induction s as [|c s IH]; simpl; [lia|].
  destruct (is_ws c); simpl; lia.
Qed.

Local Ltac shorter_by IH t :=
  let Ht := fresh "Ht" in
  let H := fresh "H" in
  destruct (parse_string_body t) as [[? ?]|] eqn:Ht;
  [ intros H; cbv beta iota in H; injection H as _ <-;
    apply IH in Ht; simpl in *; lia
  | intros H; cbv beta iota in H; discriminate H ].

Lemma parse_string_body_length_aux (n : nat) (s body rest : string) :
  (String.length s <= n)%nat ->
  parse_string_body s = Some (body, rest) ->
  (String.length rest < String.length s)%nat.
Proof.
  revert s body rest. induction n as [|n IH]; intros s body rest Hn;
    destruct s as [|c r]; simpl in *; try discriminate; [lia|].
  destruct (code c =? 34)%N.
  { intros H. change (Some (EmptyString, r) = Some (body, rest)) in H.
    injection H as _ <-. lia. }
  destruct (code c =? 92)%N.
  - destruct r as [|e r1]; [discriminate|].
    repeat match goal with
           | |- (if ?b then match parse_string_body _ with _ => _ end else _) = _
                -> _ =>
               destruct b; [shorter_by IH r1|cbv iota]
           end.
    destruct (code e =? 117)%N; [|intros H; cbv iota in H; discriminate H].
    destruct r1 as [|h1 [|h2 [|h3 [|h4 r2]]]]; try discriminate.
    destruct (hex_value h1), (hex_value h2), (hex_value h3), (hex_value h4);
      try discriminate.
    shorter_by IH r2.
  - destruct (code c <? 32)%N; [intros H; cbv iota in H; discriminate H|].
    shorter_by IH r.
Qed.

Lemma parse_string_body_length (s body rest : string) :
  parse_string_body s = Some (body, rest) ->
  (String.length rest < String.length s)%nat.
Proof. by apply (parse_string_body_length_aux (String.length s)). Qed.

Lemma span_digits_length (s d rest : string) :
  span_digits s = (d, rest) ->
  String.length s = (String.length d + String.length rest)%nat.
Proof.
  revert d rest. induction s as [|c s IH]; intros d rest; simpl.
  - intros [= <- <-]. done.
  - destruct (is_digit c); [|intros [= <- <-]; done].
    destruct (span_digits s) as [d' rest'] eqn:Hs. intros [= <- <-].
    simpl. by rewrite (IH d' rest').
Qed.

Lemma parse_digits_length (s rest : string) (z : Z) :
  parse_digits s = Some (z, rest) ->
  (String.length rest < String.length s)%nat.
Proof.
  unfold parse_digits. destruct (span_digits s) as [d rest'] eqn:Hs.
  apply span_digits_length in Hs. destruct d as [|c d']; [discriminate|].
  destruct (_ && _); [discriminate|].
  destruct (starts_fraction_or_exponent rest'); [discriminate|].
  destruct (NilZero.uint_of_string _); [|discriminate].
  intros [= _ <-]. simpl in Hs. lia.
Qed.

Lemma parse_number_length (s rest : string) (z : Z) :
  parse_number s = Some (z, rest) ->
  (String.length rest < String.length s)%nat.
Proof.
  unfold parse_number. destruct s as [|c r]; [discriminate|].
  destruct (code c =? 45)%N.
  - destruct (parse_digits r) as [[n rest']|] eqn:Hd; [|discriminate].
    intros [= _ <-]. apply parse_digits_length in Hd. simpl. lia.
  - apply parse_digits_length.
Qed.

Lemma expect_length (kw s rest : string) :
  expect kw s = Some rest -> (String.length rest <= String.length s)%nat.
Proof.
  revert s. induction kw as [|a kw IH]; intros s; simpl.
  - by intros [= <-].
  - destruct s as [|b s]; [discriminate|].
    destruct (Ascii.eqb a b); [|discriminate].
    intros H. apply IH in H. simpl. lia.
Qed.

(** What a successful parse leaves is shorter than what it was given. *)
Lemma parse_shorter (fuel : nat) :
  (forall s v rest, parse_value fuel s = POk v rest ->
     (String.length rest < String.length s)%nat) /\
  (forall acc s v rest, parse_elems fuel acc s = POk v rest ->
     (String.length rest < String.length s)%nat) /\
  (forall acc s v rest, parse_members fuel acc s = POk v rest ->
     (String.length rest < String.length s)%nat).
Proof.
  induction fuel as [|fuel (IHv & IHe & IHm)]; [by split_and!|].
  split_and!.
  - intros s v rest. cbn [parse_value].
    pose proof (skip_ws_length s) as Hs.
    destruct (skip_ws s) as [|c r]; [discriminate|]. simpl in Hs.
    destruct (code c =? 123)%N.
    { pose proof (skip_ws_length r) as Hr.
      destruct (skip_ws r) as [|c' r']; [discriminate|]. simpl in Hr.
      destruct (code c' =? 125)%N; [intros [= _ <-]; lia|].
      intros H. apply IHm in H. simpl in H. lia. }
    destruct (code c =? 91)%N.
    { pose proof (skip_ws_length r) as Hr.
      destruct (skip_ws r) as [|c' r']; [discriminate|]. simpl in Hr.
      destruct (code c' =? 93)%N; [intros [= _ <-]; lia|].
      intros H. apply IHe in H. simpl in H. lia. }
    destruct (code c =? 34)%N.
    { destruct (parse_string_body r) as [[str rest']|] eqn:Hb; [|discriminate].
      intros [= _ <-]. apply parse_string_body_length in Hb. lia. }
    destruct (code c =? 116)%N.
    { destruct (expect _ r) as [rest'|] eqn:He; [|discriminate].
      intros [= _ <-]. apply expect_length in He. lia. }
    destruct (code c =? 102)%N.
    { destruct (expect _ r) as [rest'|] eqn:He; [|discriminate].
      intros [= _ <-]. apply expect_length in He. lia. }
    destruct (code c =? 110)%N.
    { destruct (expect _ r) as [rest'|] eqn:He; [|discriminate].
      intros [= _ <-]. apply expect_length in He. lia. }
    destruct (parse_number (String c r)) as [[z rest']|] eqn:Hn; [|discriminate].
    intros [= _ <-]. apply parse_number_length in Hn. simpl in Hn. lia.
  - intros acc s v rest. cbn [parse_elems].
    destruct (parse_value fuel s) as [v' rest'| |] eqn:Hv; try discriminate.
    apply IHv in Hv. pose proof (skip_ws_length rest') as Hr.
    destruct (skip_ws rest') as [|c r]; [discriminate|]. simpl in Hr.
    destruct (code c =? 44)%N; [intros H; apply IHe in H; lia|].
    destruct (code c =? 93)%N; [|discriminate].
    intros [= _ <-]. lia.
  - intros acc s v rest. cbn [parse_members].
    pose proof (skip_ws_length s) as Hs.
    destruct (skip_ws s) as [|q r]; [discriminate|]. simpl in Hs.
    destruct (code q =? 34)%N; [|discriminate].
    destruct (parse_string_body r) as [[k rest0]|] eqn:Hb; [|discriminate].
    apply parse_string_body_length in Hb.
    pose proof (skip_ws_length rest0) as Hr0.
    destruct (skip_ws rest0) as [|colon r1]; [discriminate|]. simpl in Hr0.
    destruct (code colon =? 58)%N; [|discriminate].
    destruct (parse_value fuel r1) as [v' rest1| |] eqn:Hv; try discriminate.
    apply IHv in Hv. pose proof (skip_ws_length rest1) as Hr1.
    destruct (skip_ws rest1) as [|c r2]; [discriminate|]. simpl in Hr1.
    destruct (code c =? 44)%N; [intros H; apply IHm in H; lia|].
    destruct (code c =? 125)%N; [|discriminate].
    intros [= _ <-]. lia.
Qed.

Lemma parse_enough_fuel (fuel : nat) :
  (forall s, (2 * String.length s < fuel)%nat -> parse_value fuel s <> POutOfFuel) /\
  (forall acc s, (2 * String.length s + 1 < fuel)%nat ->
     parse_elems fuel acc s <> POutOfFuel) /\
  (forall acc s, (2 * String.length s + 1 < fuel)%nat ->
     parse_members fuel acc s <> POutOfFuel).
Proof.
  induction fuel as [|fuel (IHv & IHe & IHm)]; [split_and!; intros; lia|].
  destruct (parse_shorter fuel) as (Sv & Se & Sm).
  split_and!.
  - intros s Hlen. cbn [parse_value].
    pose proof (skip_ws_length s) as Hs.
    destruct (skip_ws s) as [|c r]; [discriminate|]. simpl in Hs.
    destruct (code c =? 123)%N.
    { pose proof (skip_ws_length r) as Hr.
      destruct (skip_ws r) as [|c' r']; [discriminate|]. simpl in Hr.
      destruct (code c' =? 125)%N; [discriminate|].
      apply IHm. simpl. lia. }
    destruct (code c =? 91)%N.
    { pose proof (skip_ws_length r) as Hr.
      destruct (skip_ws r) as [|c' r']; [discriminate|]. simpl in Hr.
      destruct (code c' =? 93)%N; [discriminate|].
      apply IHe. simpl. lia. }
    destruct (code c =? 34)%N; [by destruct (parse_string_body r) as [[? ?]|]|].
    destruct (code c =? 116)%N; [by destruct (expect _ r)|].
    destruct (code c =? 102)%N; [by destruct (expect _ r)|].
    destruct (code c =? 110)%N; [by destruct (expect _ r)|].
    by destruct (parse_number (String c r)) as [[? ?]|].
  - intros acc s Hlen. cbn [parse_elems].
    pose proof (IHv s ltac:(lia)) as Hv.
    destruct (parse_value fuel s) as [v' rest'| |] eqn:Hpv; [|discriminate|done].
    apply Sv in Hpv. pose proof (skip_ws_length rest') as Hr.
    destruct (skip_ws rest') as [|c r]; [discriminate|]. simpl in Hr.
    destruct (code c =? 44)%N; [apply IHe; lia|].
    by destruct (code c =? 93)%N.
  - intros acc s Hlen. cbn [parse_members].
    pose proof (skip_ws_length s) as Hs.
    destruct (skip_ws s) as [|q r]; [discriminate|]. simpl in Hs.
    destruct (code q =? 34)%N; [|discriminate].
    destruct (parse_string_body r) as [[k rest0]|] eqn:Hb; [|discriminate].
    apply parse_string_body_length in Hb.
    pose proof (skip_ws_length rest0) as Hr0.
    destruct (skip_ws rest0) as [|colon r1]; [discriminate|]. simpl in Hr0.
    destruct (code colon =? 58)%N; [|discriminate].
    pose proof (IHv r1 ltac:(lia)) as Hv.
    destruct (parse_value fuel r1) as [v' rest1| |] eqn:Hpv; [|discriminate|done].
    apply Sv in Hpv. pose proof (skip_ws_length rest1) as Hr1.
    destruct (skip_ws rest1) as [|c r2]; [discriminate|]. simpl in Hr1.
    destruct (code c =? 44)%N; [apply IHm; lia|].
    by destruct (code c =? 125)%N.
Qed.

(** [JSON_parse] gives its parser enough fuel for every text: it throws
    only on a syntax error. *)
Lemma JSON_parse_fuel (text : string) :
  parse_value (S (2 * String.length text)) text <> POutOfFuel.
Proof. apply parse_enough_fuel. lia. Qed.

(** ** String values pass through the resolver unchanged *)

(** Parsing the quoted form of a string gives the string back. *)
Lemma parse_quote_body (v rest : string) :
  parse_string_body (quote_body v +:+ String dquote rest) = Some (v, rest).
Proof.
  induction v as [|c v IH]; [reflexivity|].
  unfold dquote in *. simpl in IH.
  destruct c as [[] [] [] [] [] [] [] []]; simpl;
    change (EmptyString +:+ quote_body v) with (quote_body v);
    rewrite IH; reflexivity.
Qed.

Lemma drop_last_snoc (s : string) (c : ascii) : drop_last (s +:+ str1 c) = s.
Proof.
  induction s as [|a s IH]; [reflexivity|].
  simpl. rewrite IH. destruct s; reflexivity.
Qed.

(** The one placeholder of the example is the only match in its text. *)
Lemma replace_in_example (cb : string -> Completion string) :
  replace_placeholders cb 0 (JSON_stringify (JObject [("id", JString "{{foo}}")]))
  = match cb "foo" with
    | Normal text =>
        Normal ("{" +:+ quote "id" +:+ ":" +:+ str1 dquote +:+ text
                  +:+ str1 dquote +:+ "}")
    | Throw m => Throw m
    end.
Proof. vm_compute. by destruct (cb _). Qed.

(** The part of C6 that holds for every string: a string value, whatever
    its characters, replaces a placeholder that fills a string field without
    quotes of its own. *)
Lemma resolver_string_value (v : string) (context : gmap string Json) :
  context !! "foo" = Some (JString v) ->
  processStepParameters (JObject [("id", JString "{{foo}}")]) context
  = Normal (JObject [("id", JString v)]).
Proof.
  intros H. unfold processStepParameters. rewrite replace_in_example.
  unfold substitute, context_get. rewrite H. cbn [JSON_stringify].
  unfold quote, slice_1_m1.
  rewrite drop_last_snoc. unfold JSON_parse. simpl.
  change (parse_string_body
            (EmptyString +:+ quote_body v +:+ str1 dquote +:+ "}"))
    with (parse_string_body (quote_body v +:+ String dquote "}")).
  rewrite parse_quote_body. reflexivity.
Qed.

(** ** Placeholders without a value are left verbatim *)

Lemma app_cons (c : ascii) (s t : string) : String c s +:+ t = String c (s +:+ t).
Proof. reflexivity. Qed.

Lemma span_key_app (s k rest : string) :
  span_key s = (k, rest) -> s = k +:+ rest.
Proof.
  revert k rest. induction s as [|c s IH]; intros k rest; simpl.
  - by intros [= <- <-].
  - destruct (code c =? 125)%N; [by intros [= <- <-]|].
    destruct (span_key s) as [k' rest'] eqn:Hs. intros [= <- <-].
    by rewrite app_cons, <- (IH k' rest').
Qed.

Lemma code_inj (c : ascii) (n : N) : (code c =? n)%N = true -> c = chr n.
Proof.
  intros H. apply N.eqb_eq in H. unfold code, chr in *.
  by rewrite <- H, ascii_N_embedding.
Qed.

Lemma match_placeholder_Some (s key : string) :
  match_placeholder s = Some key ->
  exists rest,
    s = String "{"%char (String "{"%char
          (key +:+ String "}"%char (String "}"%char rest))).
Proof.
  unfold match_placeholder.
  destruct s as [|c1 [|c2 r]]; try discriminate.
  destruct (code c1 =? 123)%N eqn:H1; [|discriminate].
  destruct (code c2 =? 123)%N eqn:H2; [|discriminate]. simpl.
  destruct (span_key r) as [k rest] eqn:Hs. apply span_key_app in Hs.
  destruct k as [|k0 k]; [discriminate|].
  destruct rest as [|e1 [|e2 rest]]; try discriminate.
  destruct (code e1 =? 125)%N eqn:H3; [|discriminate].
  destruct (code e2 =? 125)%N eqn:H4; [|discriminate]. simpl.
  intros [= <-]. exists rest.
  apply code_inj in H1, H2, H3, H4. by subst.
Qed.

Lemma replace_skip (cb : string -> Completion string) (a b : string) :
  replace_placeholders cb (String.length a) (a +:+ b)
  = replace_placeholders cb 0 b.
Proof.
  induction a as [|c a IH]; [by destruct b|].
  rewrite app_cons. simpl. exact IH.
Qed.

Lemma length_app (a b : string) :
  String.length (a +:+ b) = (String.length a + String.length b)%nat.
Proof. induction a as [|c a IH]; [done|]. rewrite app_cons. simpl. by rewrite IH. Qed.

Lemma string_app_assoc (a b c : string) : (a +:+ b) +:+ c = a +:+ (b +:+ c).
Proof. induction a as [|x a IH]; [done|]. by rewrite !app_cons, IH. Qed.

Lemma replace_verbatim_aux (cb : string -> Completion string) (n : nat)
    (s : string) :
  (forall key, cb key = Normal ("{{" +:+ key +:+ "}}")) ->
  (String.length s <= n)%nat ->
  replace_placeholders cb 0 s = Normal s.
Proof.
  intros Hcb. revert s. induction n as [|n IH]; intros s Hn;
    destruct s as [|c r]; simpl in Hn; try done; [lia|].
  cbn [replace_placeholders].
  destruct (match_placeholder (String c r)) as [key|] eqn:Hm.
  - apply match_placeholder_Some in Hm as (rest & Hs).
    injection Hs as -> ->.
    set (a := String "{"%char (key +:+ "}}")).
    assert (Ha : String "{"%char
                   (key +:+ String "}"%char (String "}"%char rest))
                 = a +:+ rest).
    { unfold a. rewrite app_cons. f_equal. by rewrite string_app_assoc. }
    assert (Hlen : (String.length key + 3)%nat = String.length a).
    { unfold a. simpl. rewrite length_app. simpl. lia. }
    rewrite Hcb, Ha, Hlen, replace_skip, IH.
    + unfold a.
      change ("{{" +:+ key +:+ "}}")
        with (String "{"%char (String "{"%char (key +:+ "}}"))).
      by rewrite !app_cons, string_app_assoc.
    + rewrite Ha, length_app in Hn. lia.
  - rewrite IH; [done|lia].
Qed.

(** A text passes through the replacement unchanged when the callback
    returns every match as it is. *)
Lemma replace_verbatim (cb : string -> Completion string) (s : string) :
  (forall key, cb key = Normal ("{{" +:+ key +:+ "}}")) ->
  replace_placeholders cb 0 s = Normal s.
Proof. intros Hcb. by apply (replace_verbatim_aux cb (String.length s)). Qed.

(** The resolver only looks at the keys that occur between double braces. *)
Lemma replace_agree_aux (cb cb' : string -> Completion string) (n : nat) :
  forall (skip : nat) (s : string),
    (String.length s <= n)%nat ->
    Forall (fun key => cb key = cb' key) (placeholder_keys skip s) ->
    replace_placeholders cb skip s = replace_placeholders cb' skip s.
Proof.
  induction n as [|n IH]; intros skip s Hn; destruct s as [|c r];
    try done; [simpl in Hn; lia|].
  cbn [replace_placeholders placeholder_keys]. simpl in Hn.
  destruct skip as [|k]; [|intros H; apply IH; [lia|done]].
  destruct (match_placeholder (String c r)) as [key|].
  - intros H. apply Forall_cons in H as (-> & H).
    rewrite (IH _ r); [done|lia|done].
  - intros H. rewrite (IH _ r); [done|lia|done].
Qed.

Lemma replace_agree (cb cb' : string -> Completion string) (s : string) :
  Forall (fun key => cb key = cb' key) (placeholder_keys 0 s) ->
  replace_placeholders cb 0 s = replace_placeholders cb' 0 s.
Proof. by apply (replace_agree_aux cb cb' (String.length s)). Qed.

Lemma context_get_unbound (context : gmap string Json) (key : string) :
  context !! key = None -> inherited key = false ->
  context_get context key = Undefined.
Proof.
  intros Hkey Hin. unfold context_get, inherited in *. rewrite Hkey.
  apply orb_false_elim in Hin as (-> & ->). done.
Qed.

(** When the context binds none of the keys that occur and none of them
    names an inherited member, the resolver re-parses the serialized
    parameters as they are. *)
Lemma resolver_unbound (params : Json) (context : gmap string Json) :
  Forall (fun key => context !! key = None /\ inherited key = false)
         (placeholder_keys 0 (JSON_stringify params)) ->
  processStepParameters params context = JSON_parse (JSON_stringify params).
Proof.
  intros Hkeys. unfold processStepParameters.
  rewrite (replace_agree _ (fun key => Normal ("{{" +:+ key +:+ "}}"))).
  - by rewrite replace_verbatim.
  - eapply Forall_impl; [exact Hkeys|].
    intros key (Hkey & Hin). unfold substitute.
    by rewrite context_get_unbound.
Qed.

(** With an empty context only the inherited names are in the way. *)
Lemma resolver_empty_context (params : Json) :
  Forall (fun key => inherited key = false)
         (placeholder_keys 0 (JSON_stringify params)) ->
  processStepParameters params ∅ = JSON_parse (JSON_stringify params).
Proof.
  intros Hkeys. apply resolver_unbound.
  eapply Forall_impl; [exact Hkeys|]. intros key Hin. by rewrite lookup_empty.
Qed.

(** ** [JSON.parse] inverts [JSON.stringify] *)

Lemma string_app_nil_r (s : string) : s +:+ EmptyString = s.
Proof. induction s as [|c s IH]; [done|]. by rewrite app_cons, IH. Qed.

Lemma span_digits_uint (d : Decimal.uint) (rest : string) :
  number_end rest ->
  span_digits (NilEmpty.string_of_uint d +:+ rest)
  = (NilEmpty.string_of_uint d, rest).
Proof.
  intros Hend. induction d; cbn [NilEmpty.string_of_uint];
    rewrite ?app_cons; cbn [span_digits]; rewrite ?IHd; try reflexivity.
  destruct rest as [|c r]; [done|]. destruct Hend as (Hd & _).
  change (EmptyString +:+ String c r) with (String c r). simpl. by rewrite Hd.
Qed.

Lemma nzhead_head (u : Decimal.uint) :
  match Decimal.nzhead u with Decimal.D0 _ => False | _ => True end.
Proof. induction u; simpl; auto. Qed.

Lemma to_uint_unorm (p : positive) :
  Pos.to_uint p = Decimal.unorm (Pos.to_uint p).
Proof.
  rewrite <- (DecimalPos.Unsigned.to_of (Pos.to_uint p)).
  by rewrite DecimalPos.Unsigned.of_to.
Qed.

Lemma unorm_canonical (u : Decimal.uint) : canonical (Decimal.unorm u).
Proof.
  unfold Decimal.unorm. pose proof (nzhead_head u) as H.
  destruct (Decimal.nzhead u); simpl in *; done.
Qed.

Lemma to_uint_canonical (p : positive) : canonical (Pos.to_uint p).
Proof. rewrite to_uint_unorm. apply unorm_canonical. Qed.

Lemma parse_digits_uint (d : Decimal.uint) (rest : string) :
  canonical d -> number_end rest ->
  parse_digits (NilEmpty.string_of_uint d +:+ rest) = Some (Z.of_uint d, rest).
Proof.
  intros Hc Hend. unfold parse_digits. rewrite span_digits_uint by done.
  assert (Hrest : starts_fraction_or_exponent rest = false).
  { destruct rest; [done|]. by destruct Hend. }
  assert (Hu : NilZero.uint_of_string (NilEmpty.string_of_uint d) = Some d).
  { destruct d; try done; apply NilEmpty.usu. }
  destruct d as [|d'| | | | | | | | |]; try done;
    cbn [NilEmpty.string_of_uint] in *; rewrite Hrest;
    try (rewrite Hu; reflexivity).
  by destruct d'.
Qed.

Lemma Z_of_to_uint (p : positive) : Z.of_uint (Pos.to_uint p) = Z.pos p.
Proof. unfold Z.of_uint. by rewrite DecimalPos.Unsigned.of_to. Qed.

Lemma string_of_uint_nonnil (d : Decimal.uint) :
  d <> Decimal.Nil -> NilZero.string_of_uint d = NilEmpty.string_of_uint d.
Proof. by destruct d. Qed.

Lemma canonical_nonnil (d : Decimal.uint) : canonical d -> d <> Decimal.Nil.
Proof. by destruct d. Qed.

(** The first character of a canonical numeral is a digit. *)
Lemma string_of_uint_head (d : Decimal.uint) :
  d <> Decimal.Nil ->
  exists c t, NilEmpty.string_of_uint d = String c t /\ is_digit c = true.
Proof. destruct d; [done|..]; intros _; by eexists _, _. Qed.

Lemma parse_number_digit (c : ascii) (t : string) :
  is_digit c = true -> parse_number (String c t) = parse_digits (String c t).
Proof.
  intros Hd. unfold parse_number.
  assert ((code c =? 45)%N = false) as ->; [|done].
  unfold is_digit in Hd. apply andb_true_iff in Hd as (H1 & H2).
  apply N.leb_le in H1. apply N.eqb_neq. lia.
Qed.

Lemma parse_number_Z_to_string (n : Z) (rest : string) :
  number_end rest ->
  parse_number (Z_to_string n +:+ rest) = Some (n, rest) /\
  exists c t, Z_to_string n +:+ rest = String c t /\
              (is_digit c = true \/ code c = 45%N).
Proof.
  intros Hend. unfold Z_to_string. destruct n as [|p|p]; cbn [Z.to_int].
  - split; [|by eexists _, _; split; [reflexivity|left]].
    change (NilZero.string_of_int (Decimal.Pos Decimal.zero) +:+ rest)
      with (String "0" rest).
    rewrite parse_number_digit by done.
    change (String "0" rest)
      with (NilEmpty.string_of_uint (Decimal.D0 Decimal.Nil) +:+ rest).
    by rewrite parse_digits_uint.
  - pose proof (to_uint_canonical p) as Hc.
    pose proof (canonical_nonnil _ Hc) as Hn.
    cbn [NilZero.string_of_int]. rewrite string_of_uint_nonnil by done.
    destruct (string_of_uint_head _ Hn) as (c & t & Hs & Hd).
    split; [|exists c, (t +:+ rest); rewrite Hs; split; [done|by left]].
    rewrite Hs, app_cons, parse_number_digit by done.
    rewrite <- app_cons, <- Hs, parse_digits_uint by done.
    by rewrite Z_of_to_uint.
  - pose proof (to_uint_canonical p) as Hc.
    pose proof (canonical_nonnil _ Hc) as Hn.
    cbn [NilZero.string_of_int]. rewrite string_of_uint_nonnil by done.
    rewrite app_cons.
    split; [|by eexists _, _; split; [reflexivity|right]].
    unfold parse_number. change ((code "-" =? 45)%N) with true. cbv iota.
    rewrite parse_digits_uint by done. by rewrite Z_of_to_uint.
Qed.

(** A text that starts like a number is handed to the number parser. *)
Lemma parse_value_number (F : nat) (c : ascii) (t rest : string) (n : Z) :
  is_digit c = true \/ code c = 45%N ->
  parse_number (String c t) = Some (n, rest) ->
  parse_value (S F) (String c t) = POk (JNum n) rest.
Proof.
  intros Hc Hp.
  assert (Hcodes : is_ws c = false /\ (code c =? 123)%N = false /\
                   (code c =? 91)%N = false /\ (code c =? 34)%N = false /\
                   (code c =? 116)%N = false /\ (code c =? 102)%N = false /\
                   (code c =? 110)%N = false).
  { unfold is_ws, is_digit in *.
    destruct Hc as [Hd| ->].
    - apply andb_true_iff in Hd as (H1 & H2).
      apply N.leb_le in H1, H2.
      split_and!; rewrite ?orb_false_iff; split_and?; apply N.eqb_neq; lia.
    - by split_and!. }
  destruct Hcodes as (Hw & H1 & H2 & H3 & H4 & H5 & H6).
  cbn [parse_value skip_ws]. rewrite Hw, H1, H2, H3, H4, H5, H6. by rewrite Hp.
Qed.

Lemma well_formed_array (l : list Json) :
  well_formed (JArray l) <-> Forall well_formed l.
Proof.
  simpl. induction l as [|x l IH]; [by split|].
  rewrite Forall_cons, IH. done.
Qed.

Lemma well_formed_object (kvs : list (string * Json)) :
  well_formed (JObject kvs) <->
  NoDup (map fst kvs) /\ Forall (fun kv => well_formed (snd kv)) kvs.
Proof.
  simpl. apply and_iff_compat_l.
  induction kvs as [|kv kvs IH]; [by split|].
  rewrite Forall_cons, IH. done.
Qed.

Lemma Json_nested_ind (P : Json -> Prop) :
  P JNull -> (forall b, P (JBool b)) -> (forall n, P (JNum n)) ->
  (forall s, P (JString s)) ->
  (forall l, Forall P l -> P (JArray l)) ->
  (forall kvs, Forall (fun kv => P (snd kv)) kvs -> P (JObject kvs)) ->
  forall j, P j.
Proof.
  intros Hnull Hbool Hnum Hstr Harr Hobj.
  fix IH 1. intros [|b|n|s|l|kvs];
    [exact Hnull | apply Hbool | apply Hnum | apply Hstr | |].
  - apply Harr. revert l. fix IHl 1. intros [|x l]; constructor; [apply IH|apply IHl].
  - apply Hobj. revert kvs. fix IHl 1.
    intros [|[k v] kvs]; constructor; [apply IH|apply IHl].
Qed.

(** More fuel does not change what the parser answers. *)
Lemma parse_more_fuel (F : nat) :
  (forall s, parse_value F s <> POutOfFuel -> parse_value (S F) s = parse_value F s) /\
  (forall acc s, parse_elems F acc s <> POutOfFuel ->
     parse_elems (S F) acc s = parse_elems F acc s) /\
  (forall acc s, parse_members F acc s <> POutOfFuel ->
     parse_members (S F) acc s = parse_members F acc s).
Proof.
  induction F as [|F (IHv & IHe & IHm)]; [by split_and!|].
  split_and!.
  - intros s. cbn [parse_value].
    destruct (skip_ws s) as [|c r]; [done|].
    destruct (code c =? 123)%N.
    { destruct (skip_ws r) as [|c' r']; [done|].
      destruct (code c' =? 125)%N; [done|]. apply IHm. }
    destruct (code c =? 91)%N; [|done].
    destruct (skip_ws r) as [|c' r']; [done|].
    destruct (code c' =? 93)%N; [done|]. apply IHe.
  - intros acc s. cbn [parse_elems]. intros H.
    destruct (parse_value F s) as [v rest| |] eqn:Hv.
    + rewrite IHv, Hv by (by rewrite Hv).
      destruct (skip_ws rest) as [|c r]; [done|].
      destruct (code c =? 44)%N; [by apply IHe|done].
    + by rewrite IHv, Hv by (by rewrite Hv).
    + done.
  - intros acc s. cbn [parse_members]. intros H.
    destruct (skip_ws s) as [|q r]; [done|].
    destruct (code q =? 34)%N; [|done].
    destruct (parse_string_body r) as [[k rest0]|]; [|done].
    destruct (skip_ws rest0) as [|colon r1]; [done|].
    destruct (code colon =? 58)%N; [|done].
    destruct (parse_value F r1) as [v rest1| |] eqn:Hv.
    + rewrite IHv, Hv by (by rewrite Hv).
      destruct (skip_ws rest1) as [|c r2]; [done|].
      destruct (code c =? 44)%N; [by apply IHm|done].
    + by rewrite IHv, Hv by (by rewrite Hv).
    + done.
Qed.

Lemma parse_value_fuel_le (F F' : nat) (s : string) :
  (F <= F')%nat -> parse_value F s <> POutOfFuel ->
  parse_value F' s = parse_value F s.
Proof.
  induction 1 as [|F' Hle IH]; [done|]. intros H.
  destruct (parse_more_fuel F') as (Hv & _).
  rewrite Hv; rewrite IH; done.
Qed.

Lemma Z_to_string_head (n : Z) :
  exists c t, Z_to_string n = String c t /\ (is_digit c = true \/ code c = 45%N).
Proof.
  destruct (parse_number_Z_to_string n EmptyString I) as (_ & c & t & H & Hc).
  rewrite string_app_nil_r in H. by exists c, t.
Qed.

Lemma JSON_stringify_head (j : Json) :
  exists c t, JSON_stringify j = String c t /\ value_start c.
Proof.
  destruct j as [|[]|n|s|l|kvs]; try (by eexists _, _).
  destruct (Z_to_string_head n) as (c & t & H & Hc). exists c, t.
  split; [done|]. unfold value_start, is_ws, is_digit in *.
  destruct Hc as [Hd| ->]; [|done].
  apply andb_true_iff in Hd as (H1 & H2). apply N.leb_le in H1, H2.
  split_and!; rewrite ?orb_false_iff; split_and?; apply N.eqb_neq; lia.
Qed.

Lemma skip_ws_start (c : ascii) (t : string) :
  is_ws c = false -> skip_ws (String c t) = String c t.
Proof. intros H. simpl. by rewrite H. Qed.

Lemma number_end_comma (t : string) : number_end (String "," t).
Proof. done. Qed.

Lemma number_end_bracket (t : string) : number_end (String "]" t).
Proof. done. Qed.

Lemma number_end_brace (t : string) : number_end (String "}" t).
Proof. done. Qed.

Lemma parses_back_le (F0 F1 : nat) (x : Json) :
  (F0 <= F1)%nat -> parses_back F0 x -> parses_back F1 x.
Proof. intros Hle H F rest HF. apply H. lia. Qed.

Lemma parses_back_uniform {A : Type} (f : A -> Json) (l : list A) :
  Forall (fun a => exists F0, parses_back F0 (f a)) l ->
  exists F0, Forall (fun a => parses_back F0 (f a)) l.
Proof.
  induction 1 as [|x l (F1 & Hx) _ (F2 & IH)]; [by exists 0%nat|].
  exists (F1 `max` F2)%nat. constructor.
  - apply (parses_back_le F1); [lia|done].
  - eapply Forall_impl; [exact IH|]. intros y. apply parses_back_le. lia.
Qed.

Lemma concat_cons (sep x : string) (y : string) (l : list string) :
  String.concat sep (x :: y :: l) = x +:+ sep +:+ String.concat sep (y :: l).
Proof. reflexivity. Qed.

Lemma parse_elems_back (F0 : nat) (rest : string) (l : list Json) :
  Forall (parses_back F0) l -> l <> [] ->
  forall acc F, (F0 + List.length l <= F)%nat ->
    parse_elems F acc
      (String.concat "," (map JSON_stringify l) +:+ String "]" rest)
    = POk (JArray (acc ++ l)) rest.
Proof.
  induction 1 as [|x l Hx Hl IH]; [done|]. intros _ acc F HF.
  destruct F as [|F]; [simpl in HF; lia|]. cbn [parse_elems].
  destruct l as [|y l].
  - cbn [map String.concat].
    rewrite (Hx F (String "]" rest)); [|simpl in HF; lia|done].
    by rewrite skip_ws_start by done.
  - cbn [map]. rewrite concat_cons, !string_app_assoc.
    change ("," +:+ ?t) with (String "," t).
    rewrite (Hx F); [|simpl in HF; lia|done].
    rewrite skip_ws_start by done.
    change ((code "," =? 44)%N) with true. cbv iota.
    change (JSON_stringify y :: map JSON_stringify l)
      with (map JSON_stringify (y :: l)).
    rewrite IH; [|done|simpl in *; lia].
    by rewrite <- app_assoc.
Qed.

Lemma obj_set_fresh (acc : list (string * Json)) (k : string) (v : Json) :
  k ∉ map fst acc -> obj_set acc k v = (acc ++ [(k, v)])%list.
Proof.
  induction acc as [|[k' v'] acc IH]; [done|]. simpl. intros Hk.
  apply not_elem_of_cons in Hk as (Hne & Hk).
  destruct (String.eqb_spec k' k) as [->|_]; [done|]. by rewrite IH.
Qed.

Lemma member_text_app (k : string) (v : Json) (more : string) :
  member_text (k, v) +:+ more
  = String dquote
      (quote_body k +:+ String dquote (String ":" (JSON_stringify v +:+ more))).
Proof.
  unfold member_text, quote. cbn [fst snd].
  rewrite !app_cons, !string_app_assoc. reflexivity.
Qed.

Lemma parse_member_back (F0 F : nat) (acc : list (string * Json)) (k : string)
    (v : Json) (more : string) :
  parses_back F0 v -> (F0 <= F)%nat -> number_end more ->
  parse_members (S F) acc (member_text (k, v) +:+ more)
  = match skip_ws more with
    | String c r2 =>
        if (code c =? 44)%N then parse_members F (obj_set acc k v) r2
        else if (code c =? 125)%N then POk (JObject (obj_set acc k v)) r2
        else PSyntaxError
    | EmptyString => PSyntaxError
    end.
Proof.
  intros Hv HF Hend. rewrite member_text_app. cbn [parse_members].
  rewrite skip_ws_start by done.
  change ((code dquote =? 34)%N) with true. cbv iota.
  rewrite parse_quote_body. rewrite skip_ws_start by done.
  change ((code ":" =? 58)%N) with true. cbv iota.
  by rewrite (Hv F more HF Hend).
Qed.

Lemma parse_members_back (F0 : nat) (rest : string) (kvs : list (string * Json)) :
  Forall (fun kv => parses_back F0 (snd kv)) kvs -> kvs <> [] ->
  forall acc F, NoDup (map fst (acc ++ kvs)) ->
    (F0 + List.length kvs <= F)%nat ->
    parse_members F acc
      (String.concat "," (map member_text kvs) +:+ String "}" rest)
    = POk (JObject (acc ++ kvs)) rest.
Proof.
  induction 1 as [|[k v] kvs Hv Hl IH]; [done|]. intros _ acc F Hnd HF.
  destruct F as [|F]; [simpl in HF; lia|].
  assert (Hk : k ∉ map fst acc).
  { rewrite map_app in Hnd. apply NoDup_app in Hnd as (_ & Hd & _).
    intros Hin. apply (Hd k Hin). simpl. by left. }
  destruct kvs as [|kv kvs].
  - cbn [map String.concat].
    rewrite (parse_member_back F0); [|done|simpl in HF; lia|done].
    rewrite skip_ws_start by done.
    change ((code "}" =? 44)%N) with false.
    change ((code "}" =? 125)%N) with true. cbv iota.
    by rewrite obj_set_fresh.
  - cbn [map]. rewrite concat_cons, !string_app_assoc.
    change ("," +:+ ?t) with (String "," t).
    rewrite (parse_member_back F0); [|done|simpl in HF; lia|done].
    rewrite skip_ws_start by done.
    change ((code "," =? 44)%N) with true. cbv iota.
    change (member_text kv :: map member_text kvs)
      with (map member_text (kv :: kvs)).
    rewrite obj_set_fresh by done.
    rewrite IH; [|done| |simpl in *; lia].
    + by rewrite <- app_assoc.
    + by rewrite <- app_assoc.
Qed.

(** Parsing the serialization of a well-formed value, followed by anything
    that cannot continue a number, gives the value back. *)
Lemma parse_stringify (j : Json) :
  well_formed j -> exists F0, parses_back F0 j.
Proof.
  induction j as [|b|n|s|l IH|kvs IH] using Json_nested_ind; intros Hwf.
  - exists 1%nat. intros [|F] rest HF _; [lia|]. reflexivity.
  - exists 1%nat. intros [|F] rest HF _; [lia|]. by destruct b.
  - exists 1%nat. intros [|F] rest HF Hend; [lia|]. cbn [JSON_stringify].
    destruct (parse_number_Z_to_string n rest Hend) as (Hp & c & t & Hs & Hc).
    rewrite Hs in *. by apply parse_value_number.
  - exists 1%nat. intros [|F] rest HF _; [lia|]. cbn [JSON_stringify].
    unfold quote. rewrite app_cons.
    rewrite (string_app_assoc (quote_body s) (str1 dquote) rest).
    cbn [parse_value].
    rewrite skip_ws_start by done.
    change (str1 dquote +:+ rest) with (String dquote rest).
    change ((code dquote =? 123)%N) with false.
    change ((code dquote =? 91)%N) with false.
    change ((code dquote =? 34)%N) with true. cbv iota.
    by rewrite parse_quote_body.
  - apply well_formed_array in Hwf.
    assert (Hall : Forall (fun x => exists F0, parses_back F0 x) l).
    { apply Forall_forall. intros x Hx.
      rewrite Forall_forall in IH, Hwf. by apply IH, Hwf. }
    apply (parses_back_uniform (fun x => x)) in Hall as (F0 & Hall).
    exists (S (F0 + List.length l)). intros [|F] rest HF _; [lia|].
    cbn [JSON_stringify]. rewrite !string_app_assoc.
    change ("[" +:+ ?t) with (String "[" t).
    change ("]" +:+ rest) with (String "]" rest).
    cbn [parse_value]. rewrite skip_ws_start by done.
    change ((code "[" =? 123)%N) with false.
    change ((code "[" =? 91)%N) with true. cbv iota.
    destruct l as [|x l].
    + reflexivity.
    + destruct (JSON_stringify_head x) as (c & t & Hs & Hw & Hb & _).
      assert (exists t',
                 String.concat "," (map JSON_stringify (x :: l)) +:+ String "]" rest
                 = String c t') as (t' & Htext).
      { destruct l; cbn [map String.concat]; rewrite Hs, ?app_cons; eexists; done. }
      rewrite Htext, skip_ws_start, Hb, <- Htext by done.
      rewrite (parse_elems_back F0); [done|done|done|lia].
  - apply well_formed_object in Hwf as (Hnd & Hwf).
    assert (Hall : Forall (fun kv => exists F0, parses_back F0 (snd kv)) kvs).
    { apply Forall_forall. intros kv Hkv.
      rewrite Forall_forall in IH, Hwf. by apply IH, Hwf. }
    apply (parses_back_uniform snd) in Hall as (F0 & Hall).
    exists (S (F0 + List.length kvs)). intros [|F] rest HF _; [lia|].
    cbn [JSON_stringify]. rewrite !string_app_assoc.
    change ("{" +:+ ?t) with (String "{" t).
    change ("}" +:+ rest) with (String "}" rest).
    cbn [parse_value]. rewrite skip_ws_start by done.
    change ((code "{" =? 123)%N) with true. cbv iota.
    change (map (fun kv => quote (fst kv) +:+ ":" +:+ JSON_stringify (snd kv)) kvs)
      with (map member_text kvs).
    destruct kvs as [|[k v] kvs].
    + reflexivity.
    + assert (exists t',
                 String.concat "," (map member_text ((k, v) :: kvs))
                   +:+ String "}" rest
                 = String dquote t') as (t' & Htext).
      { destruct kvs; cbn [map String.concat]; unfold member_text at 1, quote;
          cbn [fst]; rewrite ?app_cons; eexists; done. }
      rewrite Htext, skip_ws_start by done.
      change ((code dquote =? 125)%N) with false. cbv iota.
      rewrite <- Htext.
      rewrite (parse_members_back F0); [done|done|done|exact Hnd|].
      simpl in *. lia.
Qed.

(** [JSON.parse(JSON.stringify(v))] is [v]. *)
Theorem JSON_parse_stringify (j : Json) :
  well_formed j -> JSON_parse (JSON_stringify j) = Normal j.
Proof.
  intros Hwf. destruct (parse_stringify j Hwf) as (F0 & Hback).
  unfold JSON_parse.
  set (text := JSON_stringify j). set (F1 := S (2 * String.length text)).
  assert (Hbig : parse_value (F0 `max` F1) text = POk j EmptyString).
  { specialize (Hback (F0 `max` F1)%nat EmptyString).
    rewrite string_app_nil_r in Hback. apply Hback; [lia|done]. }
  rewrite (parse_value_fuel_le F1) in Hbig; [|lia|apply JSON_parse_fuel].
  by rewrite Hbig.
Qed.

(** With nothing in the context the resolver returns the parameters as they
    are, unless a placeholder names a member of [Object.prototype]. *)
Corollary resolver_empty_context_unchanged (params : Json) :
  well_formed params ->
  Forall (fun key => inherited key = false)
         (placeholder_keys 0 (JSON_stringify params)) ->
  processStepParameters params ∅ = Normal params.
Proof.
  intros Hwf Hkeys. by rewrite resolver_empty_context, JSON_parse_stringify.
Qed.

Lemma obj_set_keys (acc : list (string * Json)) (k : string) (v : Json) :
  map fst (obj_set acc k v)
  = if bool_decide (k ∈ map fst acc) then map fst acc else (map fst acc ++ [k])%list.
Proof.
  induction acc as [|[k' v'] acc IH]; [done|]. simpl.
  destruct (String.eqb_spec k' k) as [->|Hne]; simpl.
  - rewrite bool_decide_eq_true_2; [done|by left].
  - rewrite IH. destruct (decide (k ∈ map fst acc)) as [Hin|Hnin].
    + rewrite !bool_decide_eq_true_2; [done|by right|done].
    + rewrite !bool_decide_eq_false_2; [done| |done].
      intros Hin. apply elem_of_cons in Hin as [?|?]; [congruence|done].
Qed.

Lemma obj_set_well_formed (acc : list (string * Json)) (k : string) (v : Json) :
  well_formed (JObject acc) -> well_formed v ->
  well_formed (JObject (obj_set acc k v)).
Proof.
  rewrite !well_formed_object. intros (Hnd & Hall) Hv. split.
  - rewrite obj_set_keys. case_bool_decide; [done|].
    apply NoDup_app. split_and!; [done| |apply NoDup_singleton].
    intros x Hx Hx'. apply list_elem_of_singleton in Hx'. by subst.
  - clear Hnd. induction acc as [|[k' v'] acc IH]; simpl.
    + by repeat constructor.
    + apply Forall_cons in Hall as (Hv' & Hall).
      destruct (String.eqb k' k); constructor; auto.
Qed.

(** Whatever the parser returns is well formed. *)
Lemma parse_well_formed (F : nat) :
  (forall s v r, parse_value F s = POk v r -> well_formed v) /\
  (forall acc s v r, Forall well_formed acc ->
     parse_elems F acc s = POk v r -> well_formed v) /\
  (forall acc s v r, well_formed (JObject acc) ->
     parse_members F acc s = POk v r -> well_formed v).
Proof.
  induction F as [|F (IHv & IHe & IHm)]; [by split_and!|].
  split_and!.
  - intros s v rest. cbn [parse_value].
    destruct (skip_ws s) as [|c r]; [discriminate|].
    destruct (code c =? 123)%N.
    { destruct (skip_ws r) as [|c' r']; [discriminate|].
      destruct (code c' =? 125)%N.
      - intros [= <- _]. apply well_formed_object. split; constructor.
      - apply IHm. apply well_formed_object. split; constructor. }
    destruct (code c =? 91)%N.
    { destruct (skip_ws r) as [|c' r']; [discriminate|].
      destruct (code c' =? 93)%N; [by intros [= <- _]|].
      apply IHe. constructor. }
    destruct (code c =? 34)%N.
    { destruct (parse_string_body r) as [[? ?]|]; [|discriminate].
      by intros [= <- _]. }
    destruct (code c =? 116)%N.
    { destruct (expect _ r); [|discriminate]. by intros [= <- _]. }
    destruct (code c =? 102)%N.
    { destruct (expect _ r); [|discriminate]. by intros [= <- _]. }
    destruct (code c =? 110)%N.
    { destruct (expect _ r); [|discriminate]. by intros [= <- _]. }
    destruct (parse_number (String c r)) as [[? ?]|]; [|discriminate].
    by intros [= <- _].
  - intros acc s v rest Hacc. cbn [parse_elems].
    destruct (parse_value F s) as [v' rest'| |] eqn:Hv; try discriminate.
    apply IHv in Hv.
    assert (Hacc' : Forall well_formed (acc ++ [v'])).
    { apply Forall_app. split; [done|by constructor]. }
    destruct (skip_ws rest') as [|c r]; [discriminate|].
    destruct (code c =? 44)%N; [by apply IHe|].
    destruct (code c =? 93)%N; [|discriminate].
    intros [= <- _]. by apply well_formed_array.
  - intros acc s v rest Hacc. cbn [parse_members].
    destruct (skip_ws s) as [|q r]; [discriminate|].
    destruct (code q =? 34)%N; [|discriminate].
    destruct (parse_string_body r) as [[k rest0]|]; [|discriminate].
    destruct (skip_ws rest0) as [|colon r1]; [discriminate|].
    destruct (code colon =? 58)%N; [|discriminate].
    destruct (parse_value F r1) as [v' rest1| |] eqn:Hv; try discriminate.
    apply IHv in Hv.
    pose proof (obj_set_well_formed acc k v' Hacc Hv) as Hacc'.
    destruct (skip_ws rest1) as [|c r2]; [discriminate|].
    destruct (code c =? 44)%N; [by apply IHm|].
    destruct (code c =? 125)%N; [|discriminate].
    by intros [= <- _].
Qed.

Lemma JSON_parse_well_formed (text : string) (j : Json) :
  JSON_parse text = Normal j -> well_formed j.
Proof.
  unfold JSON_parse.
  destruct (parse_value _ text) as [v rest| |] eqn:Hp; try discriminate.
  destruct (skip_ws rest); [|discriminate]. intros [= <-].
  by apply (proj1 (parse_well_formed _)) in Hp.
Qed.

(** The parameters of every step [createOperationPlan] builds are well
    formed, so with an empty context the resolver returns them unchanged. *)
Lemma build_steps_well_formed (toolCalls : list ToolCall)
    (steps : list OperationStep) :
  build_steps toolCalls = Normal steps ->
  Forall (fun s => well_formed (Step.params s)) steps.
Proof.
  revert steps. induction toolCalls as [|tc rest IH]; intros steps; simpl.
  - intros [= <-]. constructor.
  - destruct (negb _); [apply IH|].
    destruct (JSON_parse (tc_arguments tc)) as [args|] eqn:Hargs; [|discriminate].
    destruct (build_steps rest) as [steps'|]; [|discriminate].
    intros [= <-]. constructor; [|by apply IH].
    simpl. by apply JSON_parse_well_formed in Hargs.
Qed.

(** So the first step of a plan, which runs on the empty context, receives
    its parameters exactly as [createOperationPlan] parsed them when none
    of its placeholders names a member of [Object.prototype]. *)
Corollary built_params_resolve_unchanged (toolCalls : list ToolCall)
    (steps : list OperationStep) :
  build_steps toolCalls = Normal steps ->
  Forall (fun s => Forall (fun key => inherited key = false)
                          (placeholder_keys 0 (JSON_stringify (Step.params s))) ->
                   processStepParameters (Step.params s) ∅
                   = Normal (Step.params s)) steps.
Proof.
  intros Hbuilt. apply build_steps_well_formed in Hbuilt.
  eapply Forall_impl; [exact Hbuilt|].
  intros s Hwf Hkeys. by apply resolver_empty_context_unchanged.
Qed.

(** ** Parameter resolver *)

(** The two examples of the resolver's contract. *)
Lemma resolver_substitutes_string :
  processStepParameters (JObject [("id", JString "{{foo}}")])
                        {["foo" := JString "bar"]}
  = Normal (JObject [("id", JString "bar")]).
Proof. vm_compute. reflexivity. Qed.

Lemma resolver_keeps_unknown_placeholder :
  processStepParameters (JObject [("id", JString "{{foo}}")]) ∅
  = Normal (JObject [("id", JString "{{foo}}")]).
Proof. vm_compute. reflexivity. Qed.

(** C6, where the code departs from it.  A numeric context value is
    serialized without quotes, yet [slice(1, -1)] still drops its first and
    last character: 123 arrives as the text 2. *)
Theorem resolver_truncates_number :
  processStepParameters (JObject [("id", JString "{{foo}}")])
                        {["foo" := JNum 123]}
  = Normal (JObject [("id", JString "2")]).
Proof. vm_compute. reflexivity. Qed.

(** ** Scheduler *)

Lemma find_refers_to (steps : list OperationStep) (d : string) (dep : OperationStep) :
  List.find (fun s => String.eqb (Step.id s) d) steps = Some dep <->
  refers_to steps d dep.
Proof.
  induction steps as [|s steps IH]; simpl.
  - split; [discriminate|]. intros (j & Hj & _). by rewrite lookup_nil in Hj.
  - destruct (String.eqb_spec (Step.id s) d) as [Heq|Hne].
    + split.
      * intros [= <-]. exists 0%nat. repeat split; [done|]. intros; lia.
      * intros ([|j] & Hj & Hid & Hfirst).
        -- simpl in Hj. congruence.
        -- exfalso. apply (Hfirst 0%nat s); [lia|done|done].
    + rewrite IH. split.
      * intros (j & Hj & Hid & Hfirst). exists (S j). repeat split; [done..|].
        intros [|j'] s' Hlt Hs'; simpl in Hs'.
        -- by injection Hs' as <-.
        -- apply (Hfirst j'); [lia|done].
      * intros ([|j] & Hj & Hid & Hfirst); simpl in Hj.
        -- injection Hj as ->. done.
        -- exists j. repeat split; [done..|].
           intros j' s' Hlt Hs'. apply (Hfirst (S j')); [lia|done].
Qed.

Lemma dependency_met_spec (steps : list OperationStep) (d : string) :
  dependency_met steps d = true <->
  exists dep, refers_to steps d dep /\ Step.status dep = completed.
Proof.
  unfold dependency_met.
  destruct (List.find _ steps) as [dep|] eqn:Hfind.
  - apply find_refers_to in Hfind. rewrite bool_decide_eq_true. split.
    + intros Hst. by exists dep.
    + intros (dep' & Href & Hst).
      apply find_refers_to in Href, Hfind. congruence.
  - split; [discriminate|]. intros (dep & Href & _).
    apply find_refers_to in Href. congruence.
Qed.

Lemma runnable_spec (steps : list OperationStep) (s : OperationStep) :
  runnable steps s = true <-> qualifies steps s.
Proof.
  unfold runnable, qualifies.
  destruct (Step.status s) eqn:Hst; simpl;
    try (split; [discriminate | intros (? & ? & ?); congruence]).
  - destruct (Step.dependsOn s) as [deps|].
    + rewrite forallb_forall. split.
      * intros H. repeat split; [done..|]. intros ? [= <-] d Hd.
        apply dependency_met_spec, H. by apply list_elem_of_In.
      * intros (_ & _ & H) d Hd. apply dependency_met_spec, (H deps); [done|].
        by apply list_elem_of_In.
    + split; [|done]. intros _. repeat split; done.
  - destruct (Step.dependsOn s) as [deps|].
    + rewrite forallb_forall. split.
      * intros H. repeat split; [done..|]. intros ? [= <-] d Hd.
        apply dependency_met_spec, H. by apply list_elem_of_In.
      * intros (_ & _ & H) d Hd. apply dependency_met_spec, (H deps); [done|].
        by apply list_elem_of_In.
    + split; [|done]. intros _. repeat split; done.
Qed.

Lemma scan_Some (all rest : list OperationStep) (i j : nat) (s : OperationStep) :
  scan all i rest = Some (j, s) <->
  exists k, j = (i + k)%nat /\ rest !! k = Some s /\ runnable all s = true /\
    forall k' s', (k' < k)%nat -> rest !! k' = Some s' -> runnable all s' = false.
Proof.
  revert i. induction rest as [|a rest IH]; intros i; simpl.
  - split; [discriminate|]. intros (k & _ & Hk & _). by rewrite lookup_nil in Hk.
  - destruct (runnable all a) eqn:Ha.
    + split.
      * intros [= <- <-]. exists 0%nat. repeat split; [lia|done|]. intros; lia.
      * intros ([|k] & -> & Hk & Hr & Hfirst); simpl in Hk.
        -- injection Hk as ->. by rewrite Nat.add_0_r.
        -- specialize (Hfirst 0%nat a ltac:(lia) eq_refl). congruence.
    + rewrite IH. split.
      * intros (k & -> & Hk & Hr & Hfirst). exists (S k).
        repeat split; [lia|done|done|].
        intros [|k'] s' Hlt Hs'; simpl in Hs'.
        -- by injection Hs' as <-.
        -- apply (Hfirst k'); [lia|done].
      * intros ([|k] & -> & Hk & Hr & Hfirst); simpl in Hk.
        -- injection Hk as ->. congruence.
        -- exists k. repeat split; [lia|done|done|].
           intros k' s' Hlt Hs'. apply (Hfirst (S k')); [lia|done].
Qed.

Lemma scan_None (all rest : list OperationStep) (i : nat) :
  scan all i rest = None <-> Forall (fun s => runnable all s = false) rest.
Proof.
  revert i. induction rest as [|a rest IH]; intros i; simpl.
  - split; [constructor|done].
  - destruct (runnable all a) eqn:Ha.
    + split; [discriminate|]. intros H. apply Forall_cons in H as [H _]. congruence.
    + rewrite IH. split.
      * intros H. by constructor.
      * intros H. by apply Forall_cons in H as [_ H].
Qed.

Lemma getNext_Some (plan : OperationPlan) (i : nat) (s : OperationStep) :
  getNextExecutableStep plan = Some (i, s) <->
  Plan.steps plan !! i = Some s /\ runnable (Plan.steps plan) s = true /\
  forall j s', (j < i)%nat -> Plan.steps plan !! j = Some s' ->
    runnable (Plan.steps plan) s' = false.
Proof.
  unfold getNextExecutableStep. rewrite scan_Some. split.
  - intros (k & -> & H). exact H.
  - intros H. exists i. split; [lia|exact H].
Qed.

Lemma getNext_None (plan : OperationPlan) :
  getNextExecutableStep plan = None <->
  Forall (fun s => runnable (Plan.steps plan) s = false) (Plan.steps plan).
Proof. apply scan_None. Qed.

(** C8. The scheduler returns the step at the least position that
    qualifies (neither completed nor running, every step it depends on
    present and completed), and returns nothing exactly when no step
    qualifies. *)
Theorem scheduler_selection (plan : OperationPlan) :
  (forall i s,
      getNextExecutableStep plan = Some (i, s) <->
      Plan.steps plan !! i = Some s /\ qualifies (Plan.steps plan) s /\
      forall j s', (j < i)%nat -> Plan.steps plan !! j = Some s' ->
        ~ qualifies (Plan.steps plan) s') /\
  (getNextExecutableStep plan = None <->
   forall s, s ∈ Plan.steps plan -> ~ qualifies (Plan.steps plan) s).
Proof.
  split.
  - intros i s. rewrite getNext_Some, <- runnable_spec. split.
    + intros (Hi & Hr & Hfirst). repeat split; [done..|].
      intros j s' Hlt Hj. rewrite <- runnable_spec, (Hfirst j s' Hlt Hj). done.
    + intros (Hi & Hr & Hfirst). repeat split; [done..|].
      intros j s' Hlt Hj. specialize (Hfirst j s' Hlt Hj).
      rewrite <- runnable_spec in Hfirst. by destruct (runnable _ s').
  - rewrite getNext_None, Forall_forall. split.
    + intros H s Hs. rewrite <- runnable_spec, (H s Hs). done.
    + intros H s Hs. specialize (H s Hs). rewrite <- runnable_spec in H.
      by destruct (runnable _ s).
Qed.

(** ** Step executor *)

Lemma world_eta (w : World) : mkWorld (calls w) (trace w) = w.
Proof. by destruct w. Qed.

Lemma check_result_Normal (r r' : Json) :
  check_result r = Normal r' ->
  r' = r /\ r <> JNull /\ truthy_opt (js_index r "error") = false.
Proof.
  unfold check_result.
  destruct r; simpl; try discriminate; try (by intros [= <-]);
    match goal with
    | |- context [truthy_opt ?e] => destruct (truthy_opt e) eqn:He
    end; try discriminate; by intros [= <-].
Qed.

Lemma check_result_fails (r : Json) :
  tool_fails (Normal r) -> exists m, check_result r = Throw m.
Proof.
  unfold check_result.
  destruct r; simpl; try (by eauto); intros ->; by eauto.
Qed.

Lemma dispatch_cases invoke (i : nat) (w : World) (s : OperationStep) (pp : Json) :
  (recognized (Step.toolName s) /\ Step.toolName s <> "web_search" /\
   dispatch invoke i w s pp
     = (mkWorld (S (calls w)) (trace w ++ [(i, Invoked (Step.toolName s) pp)]),
        invoke (calls w) (Step.toolName s) pp)) \/
  (Step.toolName s = "web_search" /\
   dispatch invoke i w s pp
     = (w, Normal (JObject [("error", JString web_search_error)]))) \/
  (~ recognized (Step.toolName s) /\
   dispatch invoke i w s pp = (w, Throw ("Unknown tool: " +:+ Step.toolName s))).
Proof.
  unfold dispatch, call_tool, recognized.
  destruct (String.eqb_spec (Step.toolName s) "execute_query") as [->|H1];
    [left; split; [tauto|split; done]|].
  destruct (String.eqb_spec (Step.toolName s) "execute_mutation") as [->|H2];
    [left; split; [tauto|split; done]|].
  destruct (String.eqb_spec (Step.toolName s) "introspect_schema") as [->|H3];
    [left; split; [tauto|split; done]|].
  destruct (String.eqb_spec (Step.toolName s) "web_search") as [->|H4].
  - right; left. done.
  - right; right. split; [tauto|done].
Qed.

Lemma attempt_cases invoke (i : nat) (w : World) (s : OperationStep)
    (context : gmap string Json) :
  exists mid c,
    attempt invoke i w s context
      = (mkWorld (calls w + List.length mid) (trace w ++ mid), c) /\
    invocations_of i s mid /\
    (fails_from invoke (calls w) (Step.toolName s) -> exists m, c = Throw m) /\
    (~ recognized (Step.toolName s) -> mid = [] /\ exists m, c = Throw m) /\
    match c with
    | Normal r => r <> JNull /\ List.length mid = 1%nat
    | Throw _ => True
    end.
Proof.
  unfold attempt.
  destruct (processStepParameters _ _) as [pp|m].
  2:{ exists [], (Throw m). simpl. rewrite Nat.add_0_r, app_nil_r, world_eta.
      split_and!; [done | by left | by eauto | by eauto | done]. }
  destruct (dispatch_cases invoke i w s pp)
    as [(Hrec & _ & ->)|[(Hname & ->)|(Hrec & ->)]].
  - exists [(i, Invoked (Step.toolName s) pp)].
    destruct (invoke (calls w) (Step.toolName s) pp) as [r|m] eqn:Hinv.
    + exists (check_result r). simpl. rewrite Nat.add_1_r.
      split_and!; [done | right; by eexists | | intros Hn; by destruct (Hn Hrec) |].
      * intros Hf. apply check_result_fails. rewrite <- Hinv. by apply Hf.
      * destruct (check_result r) eqn:Hc; [|done].
        apply check_result_Normal in Hc as (-> & ? & _). done.
    + exists (Throw m). simpl. rewrite Nat.add_1_r.
      split_and!; [done | right; by eexists | by eauto | intros Hn; by destruct (Hn Hrec) | done].
  - exists [], (check_result (JObject [("error", JString web_search_error)])).
    simpl. rewrite Nat.add_0_r, app_nil_r, world_eta.
    split_and!; [done | by left | by eauto | | done].
    intros Hn. exfalso. apply Hn. unfold recognized. tauto.
  - exists [], (Throw ("Unknown tool: " +:+ Step.toolName s)). simpl.
    rewrite Nat.add_0_r, app_nil_r, world_eta.
    split_and!; [done | by left | by eauto | by eauto | done].
Qed.

Lemma executeStep_cases invoke (i : nat) (w : World) (s : OperationStep)
    (context : gmap string Json) :
  exists mid c,
    executeStep invoke i w s context
      = (world_after i mid (Step.status (step_after c s)) w, step_after c s, c) /\
    invocations_of i s mid /\
    (fails_from invoke (calls w) (Step.toolName s) -> exists m, c = Throw m) /\
    (~ recognized (Step.toolName s) -> mid = [] /\ exists m, c = Throw m) /\
    match c with
    | Normal r => r <> JNull /\ List.length mid = 1%nat
    | Throw _ => True
    end.
Proof.
  unfold executeStep.
  destruct (attempt_cases invoke i (emit i (Wrote running) w)
              (Step.set_status running s) context)
    as (mid & c & -> & Hmid & Hfail & Hunk & Hc).
  exists mid, c. simpl in *. split_and!; [|done..].
  unfold world_after, emit. simpl.
  destruct c as [r|m]; simpl.
  - by rewrite <- !app_assoc.
  - unfold after_failure.
    destruct (Step.maxRetries s <? Step.retryCount s + 1); simpl;
      by rewrite <- !app_assoc.
Qed.

Lemma step_after_sched_eq (c : Completion Json) (s : OperationStep) :
  Step.id (step_after c s) = Step.id s /\
  Step.toolName (step_after c s) = Step.toolName s /\
  Step.params (step_after c s) = Step.params s /\
  Step.dependsOn (step_after c s) = Step.dependsOn s /\
  Step.maxRetries (step_after c s) = Step.maxRetries s.
Proof.
  destruct c; simpl; [done|]. unfold after_failure.
  by destruct (_ <? _).
Qed.

Lemma after_failure_status (m : string) (s : OperationStep) :
  Step.retryCount (after_failure m s) = Step.retryCount s + 1 /\
  Step.result (after_failure m s) = Step.result s /\
  ((Step.maxRetries s < Step.retryCount s + 1 /\
    Step.status (after_failure m s) = failed /\
    Step.error (after_failure m s) = Some m) \/
   (Step.retryCount s + 1 <= Step.maxRetries s /\
    Step.status (after_failure m s) = pending /\
    Step.error (after_failure m s)
      = Some (retry_message (Step.retryCount s + 1) (Step.maxRetries s) m))).
Proof.
  unfold after_failure.
  destruct (Z.ltb_spec (Step.maxRetries s) (Step.retryCount s + 1)); simpl;
    split_and!; try done; [left|right]; done.
Qed.

(** ** Unknown tools *)

(** C2 as the code has it.  A step whose tool name is not recognized throws
    inside the [try] block like any other failure: no tool is invoked, the
    retry counter is incremented, and the step is failed only if the
    incremented counter exceeds [maxRetries]; otherwise it is pending again.
    When the parameters resolve, the error is the unknown-tool message. *)
Theorem unknown_tool_retried invoke (i : nat) (w : World) (s : OperationStep)
    (context : gmap string Json) :
  ~ recognized (Step.toolName s) ->
  exists w' s' m,
    executeStep invoke i w s context = (w', s', Throw m) /\
    calls w' = calls w /\
    trace w' = (trace w ++ [(i, Wrote running); (i, Wrote (Step.status s'))])%list /\
    Step.retryCount s' = Step.retryCount s + 1 /\
    ((Step.maxRetries s < Step.retryCount s + 1 /\ Step.status s' = failed /\
      Step.error s' = Some m) \/
     (Step.retryCount s + 1 <= Step.maxRetries s /\ Step.status s' = pending /\
      Step.error s'
        = Some (retry_message (Step.retryCount s + 1) (Step.maxRetries s) m))) /\
    (forall pp, processStepParameters (Step.params s) context = Normal pp ->
                m = "Unknown tool: " +:+ Step.toolName s).
Proof.
  intros Hunk.
  assert (Hatt : forall w0, exists m,
             attempt invoke i w0 (Step.set_status running s) context
               = (w0, Throw m) /\
             (forall pp, processStepParameters (Step.params s) context = Normal pp ->
                         m = "Unknown tool: " +:+ Step.toolName s)).
  { intros w0. unfold attempt. simpl.
    destruct (processStepParameters _ _) as [pp|m0]; [|by exists m0].
    destruct (dispatch_cases invoke i w0 (Step.set_status running s) pp)
      as [(Hrec & _)|[(Hname & _)|(_ & ->)]]; simpl in *.
    - by destruct Hunk.
    - destruct Hunk. unfold recognized. tauto.
    - eexists. split; [done|]. by intros ? _. }
  destruct (Hatt (emit i (Wrote running) w)) as (m & Hm & Hmsg).
  exists (world_after i [] (Step.status (after_failure m s)) w),
    (after_failure m s), m.
  destruct (after_failure_status m s) as (Hrc & _ & Hcase).
  split_and!; try done.
  - unfold executeStep. rewrite Hm. unfold world_after, emit, after_failure.
    simpl. destruct (_ <? _); simpl; by rewrite <- !app_assoc, Nat.add_0_r.
Qed.

(** ** One iteration of the drive loop *)

Lemma copy_if_no_throw (tool : string) (step : OperationStep)
    (context : gmap string Json) (r : Json) :
  Step.result step = Some r -> r <> JNull ->
  snd (copy_if tool step context) = Normal tt.
Proof.
  intros Hr Hnull. unfold copy_if. rewrite Hr.
  destruct (String.eqb _ _); [|done].
  destruct r; simpl; try done;
    match goal with
    | |- context [match ?d with Some _ => _ | None => _ end] =>
        destruct d as [data|]; [destruct (truthy data)|]; done
    end.
Qed.

Lemma updateOperationContext_folded (plan : OperationPlan) (step : OperationStep)
    (r : Json) :
  Step.result step = Some r -> r <> JNull ->
  updateOperationContext plan step
    = (Plan.set_context (folded r step (Plan.context plan)) plan, Normal tt).
Proof.
  intros Hr Hnull. unfold updateOperationContext, folded. rewrite Hr.
  pose proof (copy_if_no_throw "execute_query" step
                (<[Step.id step:=r]> (Plan.context plan)) r Hr Hnull) as H1.
  destruct (copy_if "execute_query" step _) as [c1 t1]. simpl in *. subst t1.
  pose proof (copy_if_no_throw "execute_mutation" step c1 r Hr Hnull) as H2.
  destruct (copy_if "execute_mutation" step c1) as [c2 t2]. simpl in *.
  by subst t2.
Qed.

Lemma drive_loop_unfold invoke (fuel : nat) (w : World) (plan : OperationPlan)
    (i : nat) (s : OperationStep) :
  getNextExecutableStep plan = Some (i, s) ->
  exists mid c,
    invocations_of i s mid /\
    (fails_from invoke (calls w) (Step.toolName s) -> exists m, c = Throw m) /\
    (~ recognized (Step.toolName s) -> mid = [] /\ exists m, c = Throw m) /\
    executeStep invoke i w s (Plan.context plan)
      = (world_after i mid (Step.status (step_after c s)) w, step_after c s, c) /\
    (forall r, c = Normal r -> List.length mid = 1%nat) /\
    drive_loop invoke (S fuel) w plan =
      match c with
      | Throw _ =>
          Some (world_after i mid (Step.status (step_after c s)) w,
                plan_after i c s plan)
      | Normal _ =>
          drive_loop invoke fuel
            (world_after i mid (Step.status (step_after c s)) w)
            (plan_after i c s plan)
      end.
Proof.
  intros Hnext.
  destruct (executeStep_cases invoke i w s (Plan.context plan))
    as (mid & c & Hexec & Hmid & Hfail & Hunk & Hc).
  exists mid, c. split_and!; [done..| |].
  { intros r ->. by destruct Hc. }
  simpl. rewrite Hnext, Hexec.
  destruct c as [r|m]; [|done]. destruct Hc as (Hc & _).
  rewrite (updateOperationContext_folded _ _ r); [done|done|done].
Qed.

(** ** An induction principle for the drive loop *)

(** A property of a run of the loop holds when it holds of a run that finds
    no step, of a run whose first step fails, and of a run whose first step
    succeeds provided it holds of the rest of that run. *)
Lemma drive_loop_induction invoke
    (P : World -> OperationPlan -> World -> OperationPlan -> Prop) :
  (forall w plan,
      getNextExecutableStep plan = None -> P w plan w (settle plan)) ->
  (forall w plan i s mid m,
      getNextExecutableStep plan = Some (i, s) ->
      invocations_of i s mid ->
      executeStep invoke i w s (Plan.context plan)
        = (world_after i mid (Step.status (after_failure m s)) w,
           after_failure m s, Throw m) ->
      P w plan (world_after i mid (Step.status (after_failure m s)) w)
        (plan_after i (Throw m) s plan)) ->
  (forall w plan i s mid r w' plan',
      getNextExecutableStep plan = Some (i, s) ->
      invocations_of i s mid -> List.length mid = 1%nat ->
      executeStep invoke i w s (Plan.context plan)
        = (world_after i mid completed w, after_success r s, Normal r) ->
      P (world_after i mid completed w) (plan_after i (Normal r) s plan) w' plan' ->
      P w plan w' plan') ->
  forall fuel w plan w' plan',
    drive_loop invoke fuel w plan = Some (w', plan') -> P w plan w' plan'.
Proof.
  intros Hnone Hfail Hok fuel.
  induction fuel as [|fuel IH]; intros w plan w' plan' Hrun; [discriminate|].
  destruct (getNextExecutableStep plan) as [[i s]|] eqn:Hnext.
  - destruct (drive_loop_unfold invoke fuel w plan i s Hnext)
      as (mid & c & Hmid & _ & _ & Hexec & Hlen & Hloop).
    rewrite Hloop in Hrun. clear Hloop. destruct c as [r|m].
    + apply (Hok w plan i s mid r); [done|done|by apply (Hlen r)|done|].
      by apply IH.
    + assert (w' = world_after i mid (Step.status (step_after (Throw m) s)) w
              /\ plan' = plan_after i (Throw m) s plan) as (-> & ->)
        by (split; congruence).
      by apply Hfail.
  - simpl in Hrun. rewrite Hnext in Hrun.
    assert (w' = w /\ plan' = settle plan) as (-> & ->) by (split; congruence).
    by apply Hnone.
Qed.

(** ** The scheduler only looks at ids, dependencies and two statuses *)

Lemma sched_eq_refl (a : OperationStep) : sched_eq a a.
Proof. by unfold sched_eq. Qed.

Lemma dependency_met_sched_eq (l l' : list OperationStep) (d : string) :
  Forall2 sched_eq l l' -> dependency_met l d = dependency_met l' d.
Proof.
  unfold dependency_met. induction 1 as [|a b l l' Hab _ IH]; [done|].
  simpl. destruct Hab as (Hid & _ & Hc & _). rewrite <- Hid.
  destruct (String.eqb (Step.id a) d); [|exact IH].
  by apply bool_decide_ext.
Qed.

Lemma runnable_sched_eq (l l' : list OperationStep) (a b : OperationStep) :
  Forall2 sched_eq l l' -> sched_eq a b -> runnable l a = runnable l' b.
Proof.
  intros Hl (_ & Hdeps & Hc & Hr). unfold runnable.
  rewrite (bool_decide_ext _ _ Hc), (bool_decide_ext _ _ Hr), <- Hdeps.
  destruct (_ || _); [done|]. destruct (Step.dependsOn a) as [deps|]; [|done].
  clear Hdeps. induction deps as [|d deps IH]; [done|]. cbn [forallb].
  by rewrite IH, (dependency_met_sched_eq l l' d Hl).
Qed.

Lemma scan_sched_eq (all all' rest rest' : list OperationStep) (i : nat) :
  Forall2 sched_eq all all' -> Forall2 sched_eq rest rest' ->
  fst <$> scan all i rest = fst <$> scan all' i rest'.
Proof.
  intros Hall Hrest. revert i.
  induction Hrest as [|a b rest rest' Hab _ IH]; intros i; [done|].
  simpl. rewrite (runnable_sched_eq all all' a b Hall Hab).
  destruct (runnable all' b); [done|apply IH].
Qed.

Lemma getNext_sched_eq (plan plan' : OperationPlan) :
  Forall2 sched_eq (Plan.steps plan) (Plan.steps plan') ->
  fst <$> getNextExecutableStep plan = fst <$> getNextExecutableStep plan'.
Proof. intros H. by apply scan_sched_eq. Qed.

Lemma getNext_lookup (plan : OperationPlan) (i : nat) (s : OperationStep) :
  getNextExecutableStep plan = Some (i, s) -> Plan.steps plan !! i = Some s.
Proof. intros H. by apply getNext_Some in H as (? & _). Qed.

Lemma getNext_status (plan : OperationPlan) (i : nat) (s : OperationStep) :
  getNextExecutableStep plan = Some (i, s) ->
  Step.status s = pending \/ Step.status s = failed.
Proof.
  intros H. apply getNext_Some in H as (_ & Hr & _).
  unfold runnable in Hr. destruct (Step.status s); simpl in Hr; auto; discriminate.
Qed.

Lemma sched_eq_insert (l : list OperationStep) (i : nat) (s s' : OperationStep) :
  l !! i = Some s -> sched_eq s s' -> Forall2 sched_eq l (<[i:=s']> l).
Proof.
  revert i. induction l as [|a l IH]; intros [|i] Hi Hs; simpl in *; try done.
  - injection Hi as ->. constructor; [done|].
    apply Forall2_same_length_lookup_2; [done|].
    intros j x y Hx Hy. assert (x = y) as -> by congruence. apply sched_eq_refl.
  - constructor; [apply sched_eq_refl|by apply IH].
Qed.

Lemma after_failure_sched_eq (m : string) (s : OperationStep) :
  Step.status s = pending \/ Step.status s = failed ->
  sched_eq s (after_failure m s).
Proof.
  intros Hst. unfold sched_eq, after_failure.
  destruct (_ <? _); simpl; split_and!; try done;
    destruct Hst as [-> | ->]; split; discriminate.
Qed.

(** After a failed attempt the scheduler picks the same step again. *)
Lemma getNext_after_failure (plan : OperationPlan) (i : nat) (s : OperationStep)
    (m : string) :
  getNextExecutableStep plan = Some (i, s) ->
  getNextExecutableStep (plan_after i (Throw m) s plan)
    = Some (i, after_failure m s).
Proof.
  intros Hnext.
  pose proof (getNext_lookup _ _ _ Hnext) as Hi.
  pose proof (getNext_status _ _ _ Hnext) as Hst.
  assert (Hsteps : Plan.steps (plan_after i (Throw m) s plan)
                   = <[i:=after_failure m s]> (Plan.steps plan)).
  { unfold plan_after. simpl. by destruct (bool_decide _). }
  assert (Heq : Forall2 sched_eq (Plan.steps plan)
                  (Plan.steps (plan_after i (Throw m) s plan))).
  { rewrite Hsteps. apply (sched_eq_insert _ _ s); [done|].
    by apply after_failure_sched_eq. }
  apply getNext_sched_eq in Heq. rewrite Hnext in Heq.
  destruct (getNextExecutableStep (plan_after _ _ _ _)) as [[j s']|] eqn:Hn;
    [|discriminate].
  injection Heq as <-.
  apply getNext_lookup in Hn as Hj. rewrite Hsteps in Hj.
  rewrite list_lookup_insert_eq in Hj; [congruence|].
  by apply lookup_lt_Some in Hi.
Qed.

(** ** The drive loop terminates *)

Lemma remaining_le_length (l : list OperationStep) :
  (remaining l <= List.length l)%nat.
Proof. unfold remaining. apply List.filter_length_le. Qed.

Lemma remaining_insert_completed (l : list OperationStep) (i : nat)
    (s s' : OperationStep) :
  l !! i = Some s -> Step.status s <> completed -> Step.status s' = completed ->
  S (remaining (<[i:=s']> l)) = remaining l.
Proof.
  unfold remaining. revert i.
  induction l as [|a l IH]; intros [|i] Hi Hs Hs'; simpl in *; try done.
  - injection Hi as ->. rewrite Hs'.
    rewrite (bool_decide_eq_false_2 _ Hs). done.
  - destruct (negb _); simpl; by rewrite (IH i).
Qed.

Lemma plan_after_steps (i : nat) (c : Completion Json) (s : OperationStep)
    (plan : OperationPlan) :
  Plan.steps (plan_after i c s plan) = <[i:=step_after c s]> (Plan.steps plan).
Proof. unfold plan_after. destruct c; simpl; [done|]. by destruct (bool_decide _). Qed.

Lemma plan_after_throw_context (i : nat) (m : string) (s : OperationStep)
    (plan : OperationPlan) :
  Plan.context (plan_after i (Throw m) s plan) = Plan.context plan.
Proof. unfold plan_after. by destruct (bool_decide _). Qed.

Lemma plan_after_throw_status (i : nat) (m : string) (s : OperationStep)
    (plan : OperationPlan) :
  Plan.status (plan_after i (Throw m) s plan)
    = if bool_decide (Step.status (after_failure m s) = failed)
      then plan_failed else Plan.status plan.
Proof. unfold plan_after. simpl. by destruct (bool_decide _). Qed.

Lemma drive_loop_total invoke (fuel : nat) (w : World) (plan : OperationPlan) :
  (remaining (Plan.steps plan) < fuel)%nat ->
  is_Some (drive_loop invoke fuel w plan).
Proof.
  revert w plan. induction fuel as [|fuel IH]; intros w plan Hlt; [lia|].
  destruct (getNextExecutableStep plan) as [[i s]|] eqn:Hnext.
  - destruct (drive_loop_unfold invoke fuel w plan i s Hnext)
      as (mid & c & _ & _ & _ & _ & _ & ->).
    destruct c as [r|m]; [|by eexists].
    apply IH. rewrite plan_after_steps.
    pose proof (getNext_lookup _ _ _ Hnext) as Hi.
    pose proof (getNext_status _ _ _ Hnext) as Hst.
    assert (S (remaining (<[i:=step_after (Normal r) s]> (Plan.steps plan)))
            = remaining (Plan.steps plan)); [|lia].
    apply (remaining_insert_completed _ _ s); [done| |done].
    destruct Hst as [-> | ->]; discriminate.
  - simpl. rewrite Hnext. by eexists.
Qed.

(** [executeOperationPlan] always returns: the fuel it gives the loop is
    never exhausted. *)
Lemma executeOperationPlan_total invoke (w : World) (plan : OperationPlan) :
  is_Some (executeOperationPlan invoke w plan).
Proof.
  unfold executeOperationPlan. apply drive_loop_total. simpl.
  pose proof (remaining_le_length (Plan.steps plan)). lia.
Qed.

(** ** Plan status *)

Lemma isOperationComplete_spec (plan : OperationPlan) :
  isOperationComplete plan = true <->
  Forall (fun s => Step.status s = completed) (Plan.steps plan).
Proof.
  unfold isOperationComplete. rewrite forallb_forall, Forall_forall.
  split; intros H s Hs.
  - apply list_elem_of_In in Hs. specialize (H s Hs).
    by apply bool_decide_eq_true in H.
  - apply list_elem_of_In in Hs. specialize (H s Hs).
    by apply bool_decide_eq_true.
Qed.

Lemma hasFailedSteps_spec (plan : OperationPlan) :
  hasFailedSteps plan = true <->
  Exists (fun s => Step.status s = failed) (Plan.steps plan).
Proof.
  unfold hasFailedSteps. rewrite existsb_exists, Exists_exists.
  split; intros (s & Hs & Hst); exists s.
  - apply list_elem_of_In in Hs. by apply bool_decide_eq_true in Hst.
  - apply list_elem_of_In in Hs. split; [done|]. by apply bool_decide_eq_true.
Qed.

Lemma settle_steps (plan : OperationPlan) :
  Plan.steps (settle plan) = Plan.steps plan.
Proof.
  unfold settle. destruct (isOperationComplete plan); [done|].
  by destruct (hasFailedSteps plan).
Qed.

Lemma settled_fresh (plan : OperationPlan) :
  fresh plan -> settled (Plan.steps plan).
Proof.
  unfold fresh, settled. rewrite !Forall_forall. intros H. split.
  - intros s Hs. rewrite (H s Hs). discriminate.
  - intros j s Hj Hst. apply list_elem_of_lookup_2 in Hj.
    rewrite (H s Hj) in Hst. discriminate.
Qed.

(** While the scheduler picks position [i], no other step is failed. *)
Lemma settled_only_failed (plan : OperationPlan) (i : nat) (s : OperationStep) :
  settled (Plan.steps plan) ->
  getNextExecutableStep plan = Some (i, s) ->
  forall j sj, j <> i -> Plan.steps plan !! j = Some sj -> Step.status sj <> failed.
Proof.
  intros (_ & Hf) Hnext j sj Hne Hj Hst.
  destruct (Hf j sj Hj Hst) as (_ & Hscan).
  unfold getNextExecutableStep in Hnext. rewrite Hnext in Hscan.
  simpl in Hscan. congruence.
Qed.

Lemma drive_loop_settled invoke (fuel : nat) (w w' : World)
    (plan plan' : OperationPlan) :
  Plan.status plan = executing ->
  settled (Plan.steps plan) ->
  drive_loop invoke fuel w plan = Some (w', plan') ->
  settled (Plan.steps plan') /\ status_agrees plan'.
Proof.
  revert w plan. induction fuel as [|fuel IH]; intros w plan Hex Hset Hrun;
    [discriminate|].
  destruct (getNextExecutableStep plan) as [[i s]|] eqn:Hnext.
  - destruct (drive_loop_unfold invoke fuel w plan i s Hnext)
      as (mid & c & _ & _ & _ & _ & _ & Hloop).
    rewrite Hloop in Hrun. clear Hloop.
    pose proof (getNext_lookup _ _ _ Hnext) as Hi.
    pose proof (lookup_lt_Some _ _ _ Hi) as Hlen.
    pose proof (getNext_status _ _ _ Hnext) as Hst.
    pose proof (settled_only_failed _ _ _ Hset Hnext) as Hother.
    destruct Hset as (Hnorun & Hfailed).
    destruct c as [r|m].
    + (* the step completed: the loop goes on *)
      apply IH in Hrun; [done|done|].
      rewrite plan_after_steps. split.
      * apply Forall_insert; [done|]. simpl. discriminate.
      * intros j sj Hj Hsj. destruct (decide (j = i)) as [->|Hne].
        -- rewrite list_lookup_insert_eq in Hj by done.
           injection Hj as <-. simpl in Hsj. discriminate.
        -- rewrite list_lookup_insert_ne in Hj by done.
           by destruct (Hother j sj Hne Hj).
    + (* the step threw: the drive returns *)
      assert (plan' = plan_after i (Throw m) s plan) as -> by congruence.
      clear Hrun IH.
      pose proof (getNext_after_failure _ _ _ m Hnext) as Hnext'.
      pose proof (plan_after_steps i (Throw m) s plan) as Hsteps.
      change (step_after (Throw m) s) with (after_failure m s) in Hsteps.
      destruct (after_failure_status m s) as (Hrc & _ & Hcase).
      assert (Hmax : Step.maxRetries (after_failure m s) = Step.maxRetries s).
      { unfold after_failure. by destruct (_ <? _). }
      assert (Hnofail : forall j sj,
                 Plan.steps (plan_after i (Throw m) s plan) !! j = Some sj ->
                 Step.status sj = failed ->
                 j = i /\ sj = after_failure m s).
      { intros j sj Hj Hsj. rewrite Hsteps in Hj.
        destruct (decide (j = i)) as [->|Hne].
        - rewrite list_lookup_insert_eq in Hj by done. by injection Hj as <-.
        - rewrite list_lookup_insert_ne in Hj by done.
          by destruct (Hother j sj Hne Hj). }
      split.
      * unfold settled. rewrite Hsteps. split.
        -- apply Forall_insert; [done|].
           destruct Hcase as [(_ & -> & _)|(_ & -> & _)]; discriminate.
        -- intros j sj Hj Hsj. rewrite <- Hsteps in Hj.
           destruct (Hnofail j sj Hj Hsj) as (-> & ->). split.
           ++ rewrite Hmax, Hrc.
              destruct Hcase as [(? & _)|(_ & Hp & _)]; [done|congruence].
           ++ unfold getNextExecutableStep in Hnext'. rewrite Hsteps in Hnext'.
              by rewrite Hnext'.
      * assert (Hnotall : ~ Forall (fun s0 => Step.status s0 = completed)
                             (Plan.steps (plan_after i (Throw m) s plan))).
        { intros Hall. rewrite Forall_lookup in Hall.
          specialize (Hall i (after_failure m s)). rewrite Hsteps in Hall.
          rewrite list_lookup_insert_eq in Hall by done.
          specialize (Hall eq_refl).
          destruct Hcase as [(_ & Hp & _)|(_ & Hp & _)]; congruence. }
        unfold status_agrees. rewrite Hsteps in *.
        assert (Hstatus : Plan.status (plan_after i (Throw m) s plan)
                  = if bool_decide (Step.status (after_failure m s) = failed)
                    then plan_failed else executing).
        { unfold plan_after. simpl. by destruct (bool_decide _). }
        rewrite Hstatus.
        destruct Hcase as [(_ & Hp & _)|(_ & Hp & _)]; rewrite Hp in *; simpl.
        -- assert (Hexi : Exists (fun s0 => Step.status s0 = failed)
                            (<[i:=after_failure m s]> (Plan.steps plan))).
           { apply Exists_exists. exists (after_failure m s). split; [|done].
             apply list_elem_of_lookup. exists i.
             by rewrite list_lookup_insert_eq. }
           split_and!; [split; [discriminate|done] | done | done].
        -- split_and!; [split; [discriminate|done] | | done].
           split; [discriminate|]. intros Hexi. apply Exists_exists in Hexi.
           destruct Hexi as (sj & Hin & Hsj).
           apply list_elem_of_lookup in Hin as (j & Hj).
           destruct (Hnofail j sj Hj Hsj) as (_ & ->). congruence.
  - simpl in Hrun. rewrite Hnext in Hrun. injection Hrun as <- <-.
    rewrite settle_steps. split; [done|].
    unfold status_agrees. rewrite settle_steps. unfold settle.
    destruct (isOperationComplete plan) eqn:Hcomp.
    + apply isOperationComplete_spec in Hcomp. simpl.
      split_and!; [done | | done].
      split; [discriminate|]. intros Hexi. apply Exists_exists in Hexi.
      destruct Hexi as (sj & Hin & Hsj). rewrite Forall_forall in Hcomp.
      rewrite (Hcomp sj Hin) in Hsj. discriminate.
    + assert (Hnc : ~ Forall (fun s => Step.status s = completed) (Plan.steps plan)).
      { intros H. apply isOperationComplete_spec in H. congruence. }
      destruct (hasFailedSteps plan) eqn:Hfail.
      * exfalso. apply hasFailedSteps_spec, Exists_exists in Hfail.
        destruct Hfail as (sj & Hin & Hsj).
        apply list_elem_of_lookup in Hin as (j & Hj).
        destruct Hset as (_ & Hf). destruct (Hf j sj Hj Hsj) as (_ & Hscan).
        unfold getNextExecutableStep in Hnext. rewrite Hnext in Hscan. done.
      * assert (Hnf : ~ Exists (fun s => Step.status s = failed) (Plan.steps plan)).
        { intros H. apply hasFailedSteps_spec in H. congruence. }
        rewrite Hex. split_and!; [split; [discriminate|done] | | done].
        split; [discriminate|done].
Qed.

Lemma executeOperationPlan_settled invoke (w w' : World)
    (plan plan' : OperationPlan) :
  settled (Plan.steps plan) ->
  executeOperationPlan invoke w plan = Some (w', plan') ->
  settled (Plan.steps plan') /\ status_agrees plan'.
Proof.
  intros Hset Hrun. unfold executeOperationPlan in Hrun.
  by apply drive_loop_settled in Hrun.
Qed.

Lemma reachable_settled (plan : OperationPlan) :
  reachable plan -> settled (Plan.steps plan).
Proof.
  induction 1 as [plan Hfresh | invoke w plan w' plan' _ IH Hrun].
  - by apply settled_fresh.
  - by apply executeOperationPlan_settled in Hrun as (? & _).
Qed.

(** ** A step whose tool keeps failing *)

Lemma attempts_app (i : nat) (tr1 tr2 : list (nat * Event)) :
  attempts i (tr1 ++ tr2) = (attempts i tr1 + attempts i tr2)%nat.
Proof. unfold attempts. by rewrite List.filter_app, List.length_app. Qed.

Lemma attempts_one (i : nat) (s : OperationStep) (mid : list (nat * Event))
    (st : StepStatus) :
  invocations_of i s mid -> st <> running ->
  attempts i ((i, Wrote running) :: mid ++ [(i, Wrote st)]) = 1%nat.
Proof.
  intros Hmid Hst. unfold attempts. simpl. rewrite Nat.eqb_refl.
  destruct Hmid as [->|(args & ->)]; simpl; by destruct st.
Qed.

Lemma attempts_other (i0 i : nat) (tr : list (nat * Event)) :
  only_step i0 tr -> i <> i0 -> attempts i tr = 0%nat.
Proof.
  unfold only_step, attempts. intros Honly Hne.
  induction Honly as [|[j e] tr Hj _ IH]; [done|].
  simpl in *. subst j. apply Nat.eqb_neq in Hne.
  rewrite Nat.eqb_sym in Hne.
  destruct e as [[]|]; simpl; rewrite ?Hne; exact IH.
Qed.

Lemma only_step_one (i : nat) (s : OperationStep) (mid : list (nat * Event))
    (st : StepStatus) :
  invocations_of i s mid ->
  only_step i ((i, Wrote running) :: mid ++ [(i, Wrote st)]).
Proof.
  intros [->|(args & ->)]; unfold only_step; simpl; repeat constructor.
Qed.

Lemma fails_from_mono invoke (n n' : nat) (name : string) :
  (n <= n')%nat -> fails_from invoke n name -> fails_from invoke n' name.
Proof. intros Hle H k args Hk. apply H. lia. Qed.

Lemma drive_loop_failing invoke (fuel : nat) (w : World) (plan : OperationPlan)
    (i : nat) (s : OperationStep) :
  getNextExecutableStep plan = Some (i, s) ->
  fails_from invoke (calls w) (Step.toolName s) ->
  exists mid m,
    invocations_of i s mid /\
    drive_loop invoke (S fuel) w plan
      = Some (world_after i mid (Step.status (after_failure m s)) w,
              plan_after i (Throw m) s plan).
Proof.
  intros Hnext Hfail.
  destruct (drive_loop_unfold invoke fuel w plan i s Hnext)
    as (mid & c & Hmid & Hf & _ & _ & _ & Hloop).
  destruct (Hf Hfail) as (m & ->). by exists mid, m.
Qed.

Lemma executeOperationPlan_failing invoke (w : World) (plan : OperationPlan)
    (i : nat) (s : OperationStep) :
  getNextExecutableStep plan = Some (i, s) ->
  fails_from invoke (calls w) (Step.toolName s) ->
  exists mid m,
    invocations_of i s mid /\
    executeOperationPlan invoke w plan
      = Some (world_after i mid (Step.status (after_failure m s)) w,
              plan_after i (Throw m) s (Plan.set_status executing plan)).
Proof.
  intros Hnext Hfail. unfold executeOperationPlan.
  by apply drive_loop_failing.
Qed.

Lemma after_failure_not_running (m : string) (s : OperationStep) :
  Step.status (after_failure m s) <> running.
Proof. unfold after_failure. by destruct (_ <? _). Qed.

Lemma retried_one (m : string) (s : OperationStep) :
  retried 1 s (after_failure m s).
Proof.
  destruct (after_failure_status m s) as (Hrc & Hres & Hcase).
  destruct (step_after_sched_eq (Throw m) s) as (? & ? & ? & ? & ?).
  simpl in *. unfold retried. split_and!; try done.
  right. split; [lia|]. rewrite Hrc.
  destruct Hcase as [(? & ? & ?)|(? & ? & ?)]; [left|right]; eauto.
Qed.

Lemma retried_S (k : nat) (m : string) (s s' : OperationStep) :
  retried k (after_failure m s) s' -> retried (S k) s s'.
Proof.
  destruct (retried_one m s) as (? & ? & ? & ? & Hmax & ? & Hrc & Hst).
  intros (? & ? & ? & ? & Hmax' & ? & Hrc' & Hst').
  unfold retried. split_and!; try congruence; [lia|].
  right. split; [lia|].
  destruct Hst' as [(-> & ->)|(_ & Hst')].
  - destruct Hst as [(? & _)|(_ & Hst)]; [lia|done].
  - by rewrite Hmax in Hst'.
Qed.

(** Driving [k] times a plan whose next step keeps failing: the step is
    tried once per drive and nothing else is touched. *)
Lemma drive_n_failing invoke (k : nat) (w : World) (plan : OperationPlan)
    (i : nat) (s : OperationStep) :
  getNextExecutableStep plan = Some (i, s) ->
  fails_from invoke (calls w) (Step.toolName s) ->
  exists w' plan' s' (new : list (nat * Event)),
    drive_n invoke k w plan = Some (w', plan') /\
    getNextExecutableStep plan' = Some (i, s') /\
    retried k s s' /\
    Plan.steps plan' = <[i:=s']> (Plan.steps plan) /\
    Plan.context plan' = Plan.context plan /\
    trace w' = (trace w ++ new)%list /\ (calls w <= calls w')%nat /\
    only_step i new /\ attempts i new = k /\
    ((1 <= k)%nat ->
     Plan.status plan'
       = if bool_decide (Step.status s' = failed) then plan_failed else executing).
Proof.
  revert w plan s. induction k as [|k IH]; intros w plan s Hnext Hfail.
  - exists w, plan, s, []. simpl. rewrite app_nil_r.
    pose proof (getNext_lookup _ _ _ Hnext) as Hi.
    split_and!; try done.
    + unfold retried. split_and!; try done; [lia|by left].
    + by rewrite list_insert_id.
    + constructor.
    + lia.
  - destruct (executeOperationPlan_failing invoke w plan i s Hnext Hfail)
      as (mid & m & Hmid & Hrun).
    set (w1 := world_after i mid (Step.status (after_failure m s)) w) in *.
    set (plan1 := plan_after i (Throw m) s (Plan.set_status executing plan)) in *.
    assert (Hnext1 : getNextExecutableStep plan1 = Some (i, after_failure m s)).
    { by apply getNext_after_failure. }
    assert (Hcalls : (calls w <= calls w1)%nat) by (simpl; lia).
    assert (Hfail1 : fails_from invoke (calls w1)
                       (Step.toolName (after_failure m s))).
    { destruct (retried_one m s) as (_ & -> & _).
      by apply (fails_from_mono invoke (calls w)). }
    destruct (IH w1 plan1 (after_failure m s) Hnext1 Hfail1)
      as (w' & plan' & s' & new & Hdrive & Hnext' & Hret & Hsteps & Hctx
          & Htrace & Hcalls' & Honly & Hatt & Hstatus).
    exists w', plan', s',
      (((i, Wrote running) :: mid ++ [(i, Wrote (Step.status (after_failure m s)))])
         ++ new)%list.
    split_and!.
    + simpl. by rewrite Hrun.
    + done.
    + by apply (retried_S k m).
    + rewrite Hsteps. unfold plan1. rewrite plan_after_steps. simpl.
      apply list_insert_insert_eq.
    + rewrite Hctx. unfold plan1. by rewrite plan_after_throw_context.
    + rewrite Htrace. unfold w1, world_after. simpl. by rewrite <- app_assoc.
    + lia.
    + apply Forall_app. split; [by apply (only_step_one i s)|done].
    + rewrite attempts_app, Hatt, (attempts_one i s); [done|done|].
      apply after_failure_not_running.
    + intros _. destruct k as [|k].
      * simpl in Hdrive. injection Hdrive as <- <-.
        rewrite Hnext1 in Hnext'. injection Hnext' as <-.
        unfold plan1. by rewrite plan_after_throw_status.
      * apply Hstatus. lia.
Qed.

(** ** A step whose tool always fails, wherever it stands in the plan *)







(** ** Status transitions *)

Lemma status_writes_app (i : nat) (tr1 tr2 : list (nat * Event)) :
  status_writes i (tr1 ++ tr2) = (status_writes i tr1 ++ status_writes i tr2)%list.
Proof. apply omap_app. Qed.

Lemma status_writes_none (i : nat) (tr : list (nat * Event)) :
  (forall e, (i, e) ∉ tr) -> status_writes i tr = [].
Proof.
  unfold status_writes.
  induction tr as [|[j e] tr IH]; intros H; [done|].
  assert (j <> i) as Hne.
  { intros ->. apply (H e). by left. }
  apply Nat.eqb_neq in Hne.
  assert (Htl : forall e', (i, e') ∉ tr).
  { intros e' Hin. apply (H e'). by right. }
  simpl. destruct e; simpl; [rewrite Hne|]; by apply IH.
Qed.

Lemma status_writes_one (i : nat) (s : OperationStep) (mid : list (nat * Event))
    (st : StepStatus) :
  invocations_of i s mid ->
  status_writes i ((i, Wrote running) :: mid ++ [(i, Wrote st)]) = [running; st].
Proof.
  intros [->|(args & ->)]; unfold status_writes; simpl;
    by rewrite Nat.eqb_refl.
Qed.

Lemma only_step_other (i0 i : nat) (tr : list (nat * Event)) :
  only_step i0 tr -> i <> i0 -> forall e, (i, e) ∉ tr.
Proof.
  intros Honly Hne e Hin. unfold only_step in Honly.
  rewrite Forall_forall in Honly. apply Honly in Hin. simpl in Hin. done.
Qed.

Lemma drive_loop_transitions invoke (fuel : nat) (w w' : World)
    (plan plan' : OperationPlan) :
  drive_loop invoke fuel w plan = Some (w', plan') ->
  exists new : list (nat * Event),
    trace w' = (trace w ++ new)%list /\
    forall i s, Plan.steps plan !! i = Some s ->
      untouched i s new plan' \/ ran_once i s new plan'.
Proof.
  revert w plan. induction fuel as [|fuel IH]; intros w plan Hrun; [discriminate|].
  destruct (getNextExecutableStep plan) as [[i0 s0]|] eqn:Hnext.
  - destruct (drive_loop_unfold invoke fuel w plan i0 s0 Hnext)
      as (mid & c & Hmid & _ & _ & _ & _ & Hloop).
    rewrite Hloop in Hrun. clear Hloop.
    pose proof (getNext_lookup _ _ _ Hnext) as Hi0.
    pose proof (lookup_lt_Some _ _ _ Hi0) as Hlen.
    pose proof (getNext_status _ _ _ Hnext) as Hst0.
    set (new1 := (i0, Wrote running)
                   :: mid ++ [(i0, Wrote (Step.status (step_after c s0)))]) in *.
    assert (Honly : only_step i0 new1) by by apply (only_step_one i0 s0).
    assert (Hw1 : status_writes i0 new1 = [running; Step.status (step_after c s0)])
      by by apply (status_writes_one i0 s0).
    destruct c as [r|m].
    + apply IH in Hrun as (new2 & Htrace & Hall).
      exists (new1 ++ new2)%list. split.
      { rewrite Htrace. unfold world_after. simpl. by rewrite <- app_assoc. }
      intros i s Hi. destruct (decide (i = i0)) as [->|Hne].
      * assert (s = s0) as -> by congruence.
        right. split; [done|].
        destruct (Hall i0 (after_success r s0)) as [(Hno & Hfinal)|(Hst & _)].
        { rewrite plan_after_steps. by apply list_lookup_insert_eq. }
        -- exists (after_success r s0). split_and!; [done| |by left].
           by rewrite status_writes_app, Hw1, (status_writes_none _ _ Hno).
        -- simpl in Hst. destruct Hst; discriminate.
      * destruct (Hall i s) as [(Hno & Hfinal)|(Hst & s' & Hfinal & Hwr & Hcase)].
        { rewrite plan_after_steps. by rewrite list_lookup_insert_ne. }
        -- left. split; [|done]. intros e Hin. apply elem_of_app in Hin as [Hin|Hin].
           ++ by apply (only_step_other i0 i new1 Honly Hne e).
           ++ by apply (Hno e).
        -- right. split; [done|]. exists s'. split_and!; [done| |done].
           rewrite status_writes_app, Hwr.
           by rewrite (status_writes_none i new1 (only_step_other i0 i new1 Honly Hne)).
    + assert (w' = world_after i0 mid (Step.status (step_after (Throw m) s0)) w
              /\ plan' = plan_after i0 (Throw m) s0 plan) as (-> & ->)
        by (split; congruence).
      clear Hrun IH. exists new1. split; [done|].
      intros i s Hi. destruct (decide (i = i0)) as [->|Hne].
      * assert (s = s0) as -> by congruence.
        right. split; [done|]. exists (after_failure m s0).
        rewrite plan_after_steps. split_and!.
        -- by apply list_lookup_insert_eq.
        -- done.
        -- right. destruct (after_failure_status m s0) as (Hrc & _ & Hcase).
           split; [|done].
           destruct Hcase as [(_ & -> & _)|(_ & -> & _)]; [by right|by left].
      * left. split.
        -- by apply (only_step_other i0 i new1 Honly Hne).
        -- rewrite plan_after_steps. by rewrite list_lookup_insert_ne.
  - simpl in Hrun. rewrite Hnext in Hrun.
    assert (w' = w /\ plan' = settle plan) as (-> & ->) by (split; congruence).
    exists []. split; [by rewrite app_nil_r|].
    intros i s Hi. left. split.
    + intros e He. by apply elem_of_nil in He.
    + by rewrite settle_steps.
Qed.

Lemma executeOperationPlan_transitions invoke (w w' : World)
    (plan plan' : OperationPlan) :
  executeOperationPlan invoke w plan = Some (w', plan') ->
  exists new : list (nat * Event),
    trace w' = (trace w ++ new)%list /\
    forall i s, Plan.steps plan !! i = Some s ->
      untouched i s new plan' \/ ran_once i s new plan'.
Proof. intros Hrun. by apply drive_loop_transitions in Hrun. Qed.

(** C4 as the code has it.  In one drive a step is either left alone or run
    once; it is run only from [pending] or [failed], and its status is then
    written [running] and next [completed], [pending] or [failed], the last
    two with the retry counter incremented.  A completed step is never run
    again, whatever the number of drives: it keeps its fields and no event
    concerns it. *)
Theorem step_transitions invoke (w : World) (plan : OperationPlan) :
  (forall w' plan',
      executeOperationPlan invoke w plan = Some (w', plan') ->
      exists new : list (nat * Event),
        trace w' = (trace w ++ new)%list /\
        forall i s, Plan.steps plan !! i = Some s ->
          ((forall e, (i, e) ∉ new) /\ Plan.steps plan' !! i = Some s) \/
          ((Step.status s = pending \/ Step.status s = failed) /\
           exists s', Plan.steps plan' !! i = Some s' /\
             status_writes i new = [running; Step.status s'] /\
             (Step.status s' = completed \/
              ((Step.status s' = pending \/ Step.status s' = failed) /\
               Step.retryCount s' = Step.retryCount s + 1)))) /\
  (forall k w' plan',
      drive_n invoke k w plan = Some (w', plan') ->
      forall i s, Plan.steps plan !! i = Some s -> Step.status s = completed ->
        Plan.steps plan' !! i = Some s /\
        forall e, (i, e) ∈ trace w' -> (i, e) ∈ trace w).
Proof.
  split.
  - intros w' plan' Hrun. by apply executeOperationPlan_transitions in Hrun.
  - intros k. revert w plan. induction k as [|k IH]; intros w plan w' plan' Hrun i s Hi Hst.
    + simpl in Hrun. by injection Hrun as <- <-.
    + simpl in Hrun.
      destruct (executeOperationPlan invoke w plan) as [[w1 plan1]|] eqn:Hone;
        [|discriminate].
      apply executeOperationPlan_transitions in Hone as (new & Htrace & Hall).
      destruct (Hall i s Hi) as [(Hno & Hi1)|([Hp|Hf] & _)]; [|congruence..].
      destruct (IH w1 plan1 w' plan' Hrun i s Hi1 Hst) as (Hfinal & Hev).
      split; [done|]. intros e He. apply Hev in He. rewrite Htrace in He.
      apply elem_of_app in He as [He|He]; [done|]. by destruct (Hno e).
Qed.

(** ** Driving a plan that is already completed, or empty *)

Lemma completed_not_runnable (all : list OperationStep) (s : OperationStep) :
  Step.status s = completed -> runnable all s = false.
Proof. intros Hst. unfold runnable. by rewrite Hst. Qed.

Lemma set_status_same (plan : OperationPlan) (st : PlanStatus) :
  Plan.status plan = st ->
  Plan.set_status st (Plan.set_status executing plan) = plan.
Proof. destruct plan. simpl. by intros ->. Qed.

Lemma all_completed_noop invoke (w : World) (plan : OperationPlan) :
  Plan.status plan = plan_completed ->
  Forall (fun s => Step.status s = completed) (Plan.steps plan) ->
  executeOperationPlan invoke w plan = Some (w, plan).
Proof.
  intros Hst Hall. unfold executeOperationPlan. simpl.
  assert (Hnone : getNextExecutableStep (Plan.set_status executing plan) = None).
  { apply getNext_None. simpl. eapply Forall_impl; [exact Hall|].
    intros s Hs. by apply completed_not_runnable. }
  rewrite Hnone. unfold settle.
  assert (Hc : isOperationComplete (Plan.set_status executing plan) = true)
    by by apply isOperationComplete_spec.
  rewrite Hc. by rewrite set_status_same.
Qed.

(** C3 as the code has it.  Driving a plan whose status is [completed] and
    whose steps are all completed returns the same plan and leaves the world
    as it was: no status is written and no tool is invoked.  Every plan that
    a drive returns as [completed] is such a plan, so driving it a second
    time, against any tools, changes nothing. *)
Theorem drive_completed_noop invoke (w : World) (plan : OperationPlan) :
  (Plan.status plan = plan_completed ->
   Forall (fun s => Step.status s = completed) (Plan.steps plan) ->
   executeOperationPlan invoke w plan = Some (w, plan)) /\
  (forall invoke0 w0 w1 plan0,
      reachable plan0 ->
      executeOperationPlan invoke0 w0 plan0 = Some (w1, plan) ->
      Plan.status plan = plan_completed ->
      executeOperationPlan invoke w plan = Some (w, plan)).
Proof.
  split; [apply all_completed_noop|].
  intros invoke0 w0 w1 plan0 Hreach Hrun Hst.
  apply reachable_settled in Hreach.
  apply executeOperationPlan_settled in Hrun as (_ & Hagree & _); [|done].
  apply all_completed_noop; [done|]. by apply Hagree.
Qed.

(** C10. Driving a plan with no steps invokes no tool, leaves the context
    as it is, and returns the plan with status [completed]; in particular
    the plan built from an empty list of tool calls, whose context is empty. *)
Theorem empty_plan_completes invoke (w : World) :
  (forall id idx st context message resp,
      executeOperationPlan invoke w (Plan.mk id [] idx st context message resp)
      = Some (w, Plan.mk id [] idx plan_completed context message resp)) /\
  (forall uuid message,
      createOperationPlan uuid [] message
      = Normal (Plan.mk uuid [] 0 planning ∅ message None) /\
      executeOperationPlan invoke w (Plan.mk uuid [] 0 planning ∅ message None)
      = Some (w, Plan.mk uuid [] 0 plan_completed ∅ message None)).
Proof. split; [done|]. intros uuid message. by split. Qed.

(** ** Fail-fast *)

Lemma retried_exhausted (k : nat) (s s' : OperationStep) :
  retried k s s' -> (1 <= k)%nat ->
  Step.maxRetries s < Step.retryCount s + Z.of_nat k ->
  Step.status s' = failed.
Proof.
  intros (_ & _ & _ & _ & _ & _ & Hrc & Hcase) Hk Hlt.
  destruct Hcase as [(-> & _)|(_ & [(_ & Hst & _)|(Hle & _)])]; [lia|done|lia].
Qed.

(** C5. Three steps without dependencies, all pending; the first completes
    at its first attempt and the tool of the second fails at every later
    invocation.  After any number of drives beyond [maxRetries] of the second
    step, the plan is failed, the second step is failed, and the third step
    is exactly as it was, still pending, with no event of its own: it was
    never started and its tool never invoked. *)
Theorem fail_fast invoke (w : World) (plan : OperationPlan)
    (s1 s2 s3 : OperationStep) (r : Json) (n : nat) :
  Plan.steps plan = [s1; s2; s3] ->
  (forall s, s ∈ [s1; s2; s3] ->
     Step.status s = pending /\ Step.dependsOn s = None) ->
  Step.retryCount s2 = 0 -> 0 <= Step.maxRetries s2 ->
  snd (executeStep invoke 0 w s1 (Plan.context plan)) = Normal r ->
  fails_from invoke (S (calls w)) (Step.toolName s2) ->
  (Z.to_nat (Step.maxRetries s2) < n)%nat ->
  exists w' plan' s1' s2',
    drive_n invoke n w plan = Some (w', plan') /\
    Plan.status plan' = plan_failed /\
    Plan.steps plan' = [s1'; s2'; s3] /\
    Step.status s1' = completed /\ Step.status s2' = failed /\
    Step.status s3 = pending /\
    attempts 1 (trace w') = (attempts 1 (trace w) + n)%nat /\
    (forall e, (2%nat, e) ∈ trace w' -> (2%nat, e) ∈ trace w).
Proof.
  intros Hsteps Hfresh Hrc Hmax Hfirst Hfail Hn.
  destruct (Hfresh s1) as (Hst1 & Hd1); [by repeat constructor|].
  destruct (Hfresh s2) as (Hst2 & Hd2); [by repeat constructor|].
  destruct (Hfresh s3) as (Hst3 & Hd3); [by repeat constructor|].
  destruct n as [|n]; [lia|].
  (* first drive, first iteration: the first step completes *)
  set (pe := Plan.set_status executing plan).
  assert (Hnext0 : getNextExecutableStep pe = Some (0%nat, s1)).
  { unfold getNextExecutableStep, pe. simpl. rewrite Hsteps. simpl.
    unfold runnable. by rewrite Hst1, Hd1. }
  destruct (drive_loop_unfold invoke 3 w pe 0 s1 Hnext0)
    as (mid0 & c & Hmid0 & _ & _ & Hexec & Hlen & Hloop).
  change (Plan.context pe) with (Plan.context plan) in Hexec.
  rewrite Hexec in Hfirst. simpl in Hfirst. subst c.
  specialize (Hlen r eq_refl).
  set (w1 := world_after 0 mid0 (Step.status (step_after (Normal r) s1)) w) in *.
  set (p1 := plan_after 0 (Normal r) s1 pe) in *.
  assert (Hsteps1 : Plan.steps p1 = [after_success r s1; s2; s3]).
  { unfold p1. rewrite plan_after_steps. unfold pe. simpl. by rewrite Hsteps. }
  (* first drive, second iteration: the second step fails *)
  assert (Hnext1 : getNextExecutableStep p1 = Some (1%nat, s2)).
  { unfold getNextExecutableStep. rewrite Hsteps1. simpl.
    unfold runnable. simpl. by rewrite Hst2, Hd2. }
  assert (Hcalls1 : calls w1 = S (calls w)) by (simpl; lia).
  assert (Hfail1 : fails_from invoke (calls w1) (Step.toolName s2))
    by by rewrite Hcalls1.
  destruct (drive_loop_failing invoke 2 w1 p1 1 s2 Hnext1 Hfail1)
    as (mid1 & m & Hmid1 & Hloop1).
  set (w2 := world_after 1 mid1 (Step.status (after_failure m s2)) w1) in *.
  set (p2 := plan_after 1 (Throw m) s2 p1) in *.
  assert (Hone : executeOperationPlan invoke w plan = Some (w2, p2)).
  { unfold executeOperationPlan. cbn [Plan.steps Plan.set_status].
    rewrite Hsteps. cbn [List.length]. fold pe. by rewrite Hloop. }
  (* the remaining drives: the second step keeps failing *)
  assert (Hnext2 : getNextExecutableStep p2 = Some (1%nat, after_failure m s2))
    by by apply getNext_after_failure.
  assert (Hfail2 : fails_from invoke (calls w2)
                     (Step.toolName (after_failure m s2))).
  { destruct (retried_one m s2) as (_ & -> & _).
    apply (fails_from_mono invoke (S (calls w))); [simpl; lia|done]. }
  destruct (drive_n_failing invoke n w2 p2 1 (after_failure m s2) Hnext2 Hfail2)
    as (w' & plan' & s2' & new & Hdrive & _ & Hret & Hsteps' & _ & Htrace & _
        & Honly & Hatt & Hstatus).
  apply retried_S in Hret as Hret'.
  assert (Hfailed : Step.status s2' = failed).
  { apply (retried_exhausted (S n) s2 s2' Hret'); lia. }
  exists w', plan', (after_success r s1), s2'. split_and!.
  - simpl. by rewrite Hone.
  - destruct n as [|n].
    + simpl in Hdrive. injection Hdrive as <- <-.
      destruct Hret as (_ & _ & _ & _ & _ & _ & _ & [(_ & ->)|(? & _)]); [|lia].
      unfold p2. rewrite plan_after_throw_status.
      by rewrite (bool_decide_eq_true_2 _ Hfailed).
    + rewrite Hstatus by lia. by rewrite (bool_decide_eq_true_2 _ Hfailed).
  - rewrite Hsteps'. unfold p2. rewrite plan_after_steps, Hsteps1. done.
  - done.
  - done.
  - done.
  - rewrite Htrace. unfold w2, w1, world_after. simpl.
    rewrite !attempts_app, Hatt.
    rewrite (attempts_other 0 1
               ((0%nat, Wrote running) :: mid0 ++ [(0%nat, Wrote completed)]));
      [|by apply (only_step_one 0 s1)|lia].
    rewrite (attempts_one 1 s2); [lia|done|apply after_failure_not_running].
  - intros e He. rewrite Htrace in He. unfold w2, w1, world_after in He.
    simpl in He. rewrite !elem_of_app in He.
    destruct He as [[[He|He]|He]|He]; [done|exfalso..].
    + by apply (only_step_other 0 2 _ (only_step_one 0 s1 mid0 completed Hmid0)
                  ltac:(lia) e).
    + by apply (only_step_other 1 2 _
                  (only_step_one 1 s2 mid1 (Step.status (after_failure m s2)) Hmid1)
                  ltac:(lia) e).
    + by apply (only_step_other 1 2 new Honly ltac:(lia) e).
Qed.

(** ** Context accumulator *)

Lemma to_uint_nonnil (n : nat) : Nat.to_uint n <> Decimal.Nil.
Proof.
  rewrite <- (DecimalNat.Unsigned.of_to n), DecimalNat.Unsigned.to_of.
  unfold Decimal.unorm. by destruct (Decimal.nzhead _).
Qed.

Lemma index_of_key_nat_to_string (n : nat) :
  index_of_key (nat_to_string n) = Some n.
Proof.
  unfold index_of_key, nat_to_string.
  rewrite NilZero.usu by apply to_uint_nonnil.
  rewrite DecimalNat.Unsigned.of_to. by rewrite String.eqb_refl.
Qed.

Lemma string_nth_is_Some (s : string) (n : nat) :
  (n < String.length s)%nat -> is_Some (string_nth s n).
Proof.
  revert n. induction s as [|c s IH]; intros [|n] Hn; simpl in *;
    [lia|lia|by eexists|apply IH; lia].
Qed.

Lemma obj_get_is_Some (kvs : list (string * Json)) (k : string) :
  k ∈ map fst kvs -> is_Some (obj_get kvs k).
Proof.
  induction kvs as [|[k' v] kvs IH]; simpl.
  - intros H. by apply elem_of_nil in H.
  - intros H. destruct (obj_get kvs k) eqn:Hget; [by eexists|].
    apply elem_of_cons in H as [->|H].
    + rewrite String.eqb_refl. by eexists.
    + apply IH in H. by destruct H.
Qed.

(** Every key [Object.keys] enumerates reads back a value. *)
Lemma js_index_keys (data : Json) (k : string) :
  k ∈ js_keys data -> is_Some (js_index data k).
Proof.
  destruct data as [| | |str|l|kvs]; simpl; intros Hk;
    try (by apply elem_of_nil in Hk).
  - destruct (String.eqb k "length"); [by eexists|].
    apply list_elem_of_fmap in Hk as (n & -> & Hn).
    apply elem_of_seq in Hn. rewrite index_of_key_nat_to_string.
    destruct (string_nth_is_Some str n) as (c & ->); [lia|]. by eexists.
  - destruct (String.eqb k "length"); [by eexists|].
    apply list_elem_of_fmap in Hk as (n & -> & Hn).
    apply elem_of_seq in Hn. rewrite index_of_key_nat_to_string.
    apply lookup_lt_is_Some. lia.
  - by apply obj_get_is_Some.
Qed.

Lemma copy_data_lookup (data : Json) (context : gmap string Json) (k : string) :
  copy_data data context !! k
    = if bool_decide (k ∈ js_keys data) then js_index data k else context !! k.
Proof.
  unfold copy_data. generalize (js_keys data) as keys. intros keys.
  revert context. induction keys as [|key keys IH]; intros context; cbn [foldl].
  - rewrite bool_decide_eq_false_2; [done|]. intros H. by apply elem_of_nil in H.
  - rewrite IH. destruct (decide (k ∈ keys)) as [Hin|Hnin].
    + rewrite !bool_decide_eq_true_2; [done|by right|done].
    + rewrite (bool_decide_eq_false_2 _ Hnin).
      destruct (decide (k = key)) as [->|Hne].
      * rewrite bool_decide_eq_true_2 by by left.
        destruct (js_index data key) as [v|].
        -- by rewrite lookup_insert_eq.
        -- by rewrite lookup_delete_eq.
      * rewrite bool_decide_eq_false_2.
        -- destruct (js_index data key) as [v|].
           ++ by rewrite lookup_insert_ne.
           ++ by rewrite lookup_delete_ne.
        -- intros H. apply elem_of_cons in H as [?|?]; done.
Qed.

Lemma copy_if_cases (tool : string) (step : OperationStep)
    (context : gmap string Json) (r : Json) :
  Step.result step = Some r -> r <> JNull ->
  copy_if tool step context
    = (match js_index r "data" with
       | Some data =>
           if String.eqb (Step.toolName step) tool && truthy data
           then copy_data data context else context
       | None => context
       end, Normal tt).
Proof.
  intros Hr Hnull. unfold copy_if. rewrite Hr.
  destruct (String.eqb _ _); simpl.
  - destruct r; simpl; try done;
      match goal with
      | |- context [match ?d with Some _ => _ | None => _ end] =>
          destruct d as [data|]; [destruct (truthy data)|]; done
      end.
  - by destruct (js_index r "data").
Qed.

Lemma folded_cases (r : Json) (step : OperationStep) (context : gmap string Json) :
  Step.result step = Some r -> r <> JNull ->
  folded r step context =
    match js_index r "data" with
    | Some data =>
        if (String.eqb (Step.toolName step) "execute_query"
            || String.eqb (Step.toolName step) "execute_mutation") && truthy data
        then copy_data data (<[Step.id step := r]> context)
        else <[Step.id step := r]> context
    | None => <[Step.id step := r]> context
    end.
Proof.
  intros Hr Hnull. unfold folded.
  rewrite (copy_if_cases "execute_query" step _ r Hr Hnull). cbn [fst].
  rewrite (copy_if_cases "execute_mutation" step _ r Hr Hnull). cbn [fst].
  destruct (js_index r "data") as [data|]; [|done].
  destruct (String.eqb_spec (Step.toolName step) "execute_query") as [Hq|Hq];
    [|done].
  rewrite Hq. simpl. by destruct (truthy data).
Qed.

Lemma executeStep_Normal invoke (i : nat) (w w' : World) (s s' : OperationStep)
    (context : gmap string Json) (r : Json) :
  executeStep invoke i w s context = (w', s', Normal r) ->
  s' = after_success r s /\ r <> JNull.
Proof.
  intros Hexec.
  destruct (executeStep_cases invoke i w s context)
    as (mid & c & Hc & _ & _ & _ & Hnull).
  rewrite Hexec in Hc. injection Hc as -> -> <-. by destruct Hnull.
Qed.

(** What the accumulator does with one completed step.  It does not throw
    and writes the step's full result under the step's id.  It copies the
    top-level keys of [result.data] only for an [execute_query] or
    [execute_mutation] step with a truthy payload: then every such key reads
    back the payload's value, whatever the context held before, the step's id
    reads the full result unless the payload has a key of that name, and all
    other keys are unchanged.  For any other tool, or without a truthy
    payload, only the entry under the step's id is written. *)
Lemma accumulator_fold invoke (i : nat) (w w' : World) (s s' : OperationStep)
    (context : gmap string Json) (r : Json) :
  executeStep invoke i w s context = (w', s', Normal r) ->
  Step.status s' = completed /\ Step.result s' = Some r /\
  forall plan,
    snd (updateOperationContext plan s') = Normal tt /\
    (forall data,
        Step.toolName s = "execute_query" \/ Step.toolName s = "execute_mutation" ->
        js_index r "data" = Some data -> truthy data = true ->
        (forall k, k ∈ js_keys data ->
           is_Some (js_index data k) /\
           Plan.context (fst (updateOperationContext plan s')) !! k
             = js_index data k) /\
        (Step.id s ∉ js_keys data ->
         Plan.context (fst (updateOperationContext plan s')) !! Step.id s = Some r) /\
        (forall k, k ∉ js_keys data -> k <> Step.id s ->
           Plan.context (fst (updateOperationContext plan s')) !! k
             = Plan.context plan !! k)) /\
    ((Step.toolName s <> "execute_query" /\ Step.toolName s <> "execute_mutation")
     \/ truthy_opt (js_index r "data") = false ->
     Plan.context (fst (updateOperationContext plan s'))
       = <[Step.id s := r]> (Plan.context plan)).
Proof.
  intros Hexec. apply executeStep_Normal in Hexec as (-> & Hnull).
  split; [done|]. split; [done|]. intros plan.
  rewrite (updateOperationContext_folded plan (after_success r s) r eq_refl Hnull).
  cbn [fst snd Plan.context Plan.set_context].
  rewrite (folded_cases r (after_success r s) _ eq_refl Hnull).
  cbn [Step.toolName Step.id after_success].
  split; [done|]. split.
  - intros data Htool -> Hdata. rewrite Hdata, andb_true_r.
    assert (String.eqb (Step.toolName s) "execute_query"
            || String.eqb (Step.toolName s) "execute_mutation" = true) as ->.
    { destruct Htool as [-> | ->]; by rewrite String.eqb_refl, ?orb_true_r. }
    split_and!.
    + intros k Hk. split; [by apply js_index_keys|].
      by rewrite copy_data_lookup, bool_decide_eq_true_2.
    + intros Hid. rewrite copy_data_lookup, bool_decide_eq_false_2 by done.
      by rewrite lookup_insert_eq.
    + intros k Hk Hne. rewrite copy_data_lookup, bool_decide_eq_false_2 by done.
      by rewrite lookup_insert_ne.
  - intros [(Hq & Hm)|Hfalsy].
    + apply String.eqb_neq in Hq, Hm. rewrite Hq, Hm. simpl.
      by destruct (js_index r "data").
    + destruct (js_index r "data") as [data|]; [|done].
      simpl in Hfalsy. by rewrite Hfalsy, andb_false_r.
Qed.

(** ** The context only grows *)

Lemma folded_keeps (r : Json) (step : OperationStep) (context : gmap string Json)
    (k : string) :
  Step.result step = Some r -> r <> JNull ->
  is_Some (context !! k) -> is_Some (folded r step context !! k).
Proof.
  intros Hr Hnull Hk. rewrite (folded_cases r step context Hr Hnull).
  assert (Hins : is_Some (<[Step.id step:=r]> context !! k)).
  { rewrite lookup_insert. by destruct (decide _). }
  destruct (js_index r "data") as [data|]; [|done].
  destruct (_ && _); [|done].
  rewrite copy_data_lookup. case_bool_decide; [|done].
  by apply js_index_keys.
Qed.

Lemma settle_context (plan : OperationPlan) :
  Plan.context (settle plan) = Plan.context plan.
Proof.
  unfold settle. destruct (isOperationComplete plan); [done|].
  by destruct (hasFailedSteps plan).
Qed.

Lemma drive_loop_keeps_context invoke (fuel : nat) (w w' : World)
    (plan plan' : OperationPlan) (k : string) :
  drive_loop invoke fuel w plan = Some (w', plan') ->
  is_Some (Plan.context plan !! k) -> is_Some (Plan.context plan' !! k).
Proof.
  revert w plan. induction fuel as [|fuel IH]; intros w plan Hrun Hk;
    [discriminate|].
  destruct (getNextExecutableStep plan) as [[i s]|] eqn:Hnext.
  - destruct (drive_loop_unfold invoke fuel w plan i s Hnext)
      as (mid & c & _ & _ & _ & Hexec & _ & Hloop).
    rewrite Hloop in Hrun. destruct c as [r|m].
    + apply IH in Hrun; [done|].
      apply executeStep_Normal in Hexec as (_ & Hnull).
      unfold plan_after. simpl. by apply folded_keeps.
    + assert (plan' = plan_after i (Throw m) s plan) as -> by congruence.
      by rewrite plan_after_throw_context.
  - simpl in Hrun. rewrite Hnext in Hrun.
    assert (plan' = settle plan) as -> by congruence.
    by rewrite settle_context.
Qed.

(** ** The context a resolver call sees *)

Lemma context_after_app (steps : list OperationStep) (tr1 tr2 : list (nat * Event))
    (context : gmap string Json) :
  context_after steps (tr1 ++ tr2) context
  = context_after steps tr2 (context_after steps tr1 context).
Proof.
  revert context. induction tr1 as [|[i e] tr1 IH]; intros context; [done|].
  simpl. destruct e as [[]|]; try apply IH.
  destruct (steps !! i) as [s|]; [|apply IH].
  destruct (Step.result s); apply IH.
Qed.

Lemma context_after_invoked (steps : list OperationStep) (j : nat) (name : string)
    (args : Json) (context : gmap string Json) :
  context_after steps [(j, Invoked name args)] context = context.
Proof. done. Qed.

Lemma resolved_in_app (before steps : list OperationStep)
    (tr1 tr2 : list (nat * Event)) (context : gmap string Json) :
  resolved_in before steps (tr1 ++ tr2) context <->
  resolved_in before steps tr1 context /\
  resolved_in before steps tr2 (context_after steps tr1 context).
Proof.
  revert context. induction tr1 as [|[i e] tr1 IH]; intros context.
  - simpl. tauto.
  - change (((i, e) :: tr1) ++ tr2)%list with ((i, e) :: (tr1 ++ tr2))%list.
    change ((i, e) :: tr1)%list with ([(i, e)] ++ tr1)%list at 2.
    rewrite context_after_app.
    destruct e as [st|name args].
    + cbn [resolved_in]. apply IH.
    + cbn [resolved_in]. rewrite IH, context_after_invoked. tauto.
Qed.

(** A checked trace, read at one of its invocations. *)
Lemma resolved_in_at (before steps : list OperationStep)
    (pre post : list (nat * Event)) (j : nat) (name : string) (args : Json)
    (context : gmap string Json) :
  resolved_in before steps (pre ++ (j, Invoked name args) :: post) context ->
  exists t, before !! j = Some t /\ name = Step.toolName t /\
            processStepParameters (Step.params t)
              (context_after steps pre context) = Normal args.
Proof.
  intros H. apply resolved_in_app in H as (_ & H). simpl in H. by destruct H.
Qed.

(** The one invocation of an attempt passes the resolved parameters. *)
Lemma attempt_resolved invoke (i : nat) (w : World) (s : OperationStep)
    (context : gmap string Json) :
  exists mid c,
    attempt invoke i w s context
      = (mkWorld (calls w + List.length mid) (trace w ++ mid), c) /\
    (mid = [] \/
     exists pp, processStepParameters (Step.params s) context = Normal pp /\
                mid = [(i, Invoked (Step.toolName s) pp)]).
Proof.
  unfold attempt.
  destruct (processStepParameters _ _) as [pp|m].
  2:{ exists [], (Throw m). simpl. rewrite Nat.add_0_r, app_nil_r, world_eta.
      split; [done|by left]. }
  destruct (dispatch_cases invoke i w s pp)
    as [(_ & _ & ->)|[(_ & ->)|(_ & ->)]].
  - exists [(i, Invoked (Step.toolName s) pp)]. simpl. rewrite Nat.add_1_r.
    destruct (invoke (calls w) (Step.toolName s) pp) as [r|m]; eexists;
      (split; [done|right; by exists pp]).
  - exists []. simpl. rewrite Nat.add_0_r, app_nil_r, world_eta.
    eexists. split; [done|by left].
  - exists []. simpl. rewrite Nat.add_0_r, app_nil_r, world_eta.
    eexists. split; [done|by left].
Qed.

Lemma executeStep_trace invoke (i : nat) (w : World) (s : OperationStep)
    (context : gmap string Json) :
  exists mid st s' c,
    executeStep invoke i w s context = (world_after i mid st w, s', c) /\
    (mid = [] \/
     exists pp, processStepParameters (Step.params s) context = Normal pp /\
                mid = [(i, Invoked (Step.toolName s) pp)]).
Proof.
  unfold executeStep.
  destruct (attempt_resolved invoke i (emit i (Wrote running) w)
              (Step.set_status running s) context) as (mid & c & -> & Hmid).
  cbn [Step.params Step.toolName Step.set_status] in Hmid.
  exists mid. unfold world_after, emit. simpl.
  destruct c as [r|m]; simpl.
  - eexists _, _, _. split; [|done]. by rewrite <- !app_assoc.
  - destruct (Step.maxRetries s <? Step.retryCount s + 1); simpl;
      eexists _, _, _; (split; [|done]); by rewrite <- !app_assoc.
Qed.

Lemma executeStep_resolved invoke (i : nat) (w : World) (s s' : OperationStep)
    (context : gmap string Json) (mid : list (nat * Event)) (st : StepStatus)
    (c : Completion Json) :
  executeStep invoke i w s context = (world_after i mid st w, s', c) ->
  mid = [] \/
  exists pp, processStepParameters (Step.params s) context = Normal pp /\
             mid = [(i, Invoked (Step.toolName s) pp)].
Proof.
  intros Hexec.
  destruct (executeStep_trace invoke i w s context)
    as (mid' & st' & s1 & c1 & Hc & Hmid).
  rewrite Hexec in Hc. injection Hc as _ Htr _ _.
  apply app_inv_head in Htr. injection Htr as Htr.
  apply app_inj_tail in Htr as (-> & _). done.
Qed.


Lemma resolved_in_before (before before' F : list OperationStep)
    (tr : list (nat * Event)) (c : gmap string Json) :
  (forall j t', before' !! j = Some t' ->
                exists t, before !! j = Some t /\ same_call t t') ->
  resolved_in before' F tr c -> resolved_in before F tr c.
Proof.
  intros Hsame. revert c. induction tr as [|[j e] tr IH]; intros c; [done|].
  destruct e as [st|name args]; cbn [resolved_in]; [apply IH|].
  intros ((t' & Ht & Hname & Hp) & Hrest). split; [|by apply IH].
  destruct (Hsame j t' Ht) as (t & Ht' & Htool & Hparams).
  exists t. by rewrite Htool, Hparams.
Qed.

Lemma same_call_insert (steps : list OperationStep) (i0 : nat)
    (s0 s1 : OperationStep) :
  steps !! i0 = Some s0 -> same_call s0 s1 ->
  forall j t', <[i0 := s1]> steps !! j = Some t' ->
               exists t, steps !! j = Some t /\ same_call t t'.
Proof.
  intros Hi0 Hsame j t' Ht. destruct (decide (j = i0)) as [->|Hne].
  - rewrite list_lookup_insert_eq in Ht by by apply lookup_lt_Some in Hi0.
    injection Ht as <-. by exists s0.
  - rewrite list_lookup_insert_ne in Ht by done. by exists t'.
Qed.

(** What a run of the loop folds and passes on. *)
Lemma drive_loop_folds invoke (fuel : nat) (w w' : World)
    (plan plan' : OperationPlan) :
  drive_loop invoke fuel w plan = Some (w', plan') ->
  exists new : list (nat * Event),
    trace w' = (trace w ++ new)%list /\
    (forall i s, Plan.steps plan !! i = Some s -> Step.status s = completed ->
                 Plan.steps plan' !! i = Some s) /\
    (forall i s', Plan.steps plan' !! i = Some s' -> Step.status s' = completed ->
                  Plan.steps plan !! i = Some s' \/ (i, Wrote completed) ∈ new) /\
    (forall j t', Plan.steps plan' !! j = Some t' ->
                  exists t, Plan.steps plan !! j = Some t /\ same_call t t') /\
    forall F : list OperationStep,
      (forall i s', Plan.steps plan' !! i = Some s' -> Step.status s' = completed ->
                    F !! i = Some s') ->
      Plan.context plan' = context_after F new (Plan.context plan) /\
      resolved_in (Plan.steps plan) F new (Plan.context plan).
Proof.
  revert fuel w plan w' plan'.
  apply (drive_loop_induction invoke (fun w plan w' plan' =>
    exists new : list (nat * Event),
      trace w' = (trace w ++ new)%list /\
      (forall i s, Plan.steps plan !! i = Some s -> Step.status s = completed ->
                   Plan.steps plan' !! i = Some s) /\
      (forall i s', Plan.steps plan' !! i = Some s' -> Step.status s' = completed ->
                    Plan.steps plan !! i = Some s' \/ (i, Wrote completed) ∈ new) /\
      (forall j t', Plan.steps plan' !! j = Some t' ->
                    exists t, Plan.steps plan !! j = Some t /\ same_call t t') /\
      forall F : list OperationStep,
        (forall i s', Plan.steps plan' !! i = Some s' -> Step.status s' = completed ->
                      F !! i = Some s') ->
        Plan.context plan' = context_after F new (Plan.context plan) /\
        resolved_in (Plan.steps plan) F new (Plan.context plan))).
  - intros w plan _. exists []. rewrite app_nil_r, settle_steps, settle_context.
    split_and!; [done|done|by left|intros j t' ?; exists t'; by repeat split|].
    intros F _. done.
  - intros w plan i0 s0 mid m Hnext _ Hexec.
    pose proof (getNext_lookup _ _ _ Hnext) as Hi0.
    assert (Hnc : Step.status s0 <> completed).
    { apply getNext_status in Hnext as [-> | ->]; discriminate. }
    assert (Hst : Step.status (after_failure m s0) <> completed).
    { unfold after_failure. by destruct (_ <? _). }
    apply executeStep_resolved in Hexec as Hmid.
    exists ((i0, Wrote running) :: mid
              ++ [(i0, Wrote (Step.status (after_failure m s0)))])%list.
    rewrite plan_after_steps, plan_after_throw_context.
    assert (Hsame : same_call s0 (after_failure m s0)).
    { destruct (step_after_sched_eq (Throw m) s0) as (_ & ? & ? & _). by split. }
    split_and!; [done| | |by apply (same_call_insert _ i0 s0)|].
    + intros i s Hi Hs. destruct (decide (i = i0)) as [->|Hne]; [congruence|].
      by rewrite list_lookup_insert_ne.
    + intros i s' Hi Hs. destruct (decide (i = i0)) as [->|Hne].
      * rewrite list_lookup_insert_eq in Hi by by apply lookup_lt_Some in Hi0.
        simpl in Hi. congruence.
      * left. by rewrite list_lookup_insert_ne in Hi.
    + intros F _.
      destruct (Step.status (after_failure m s0)) eqn:Hst'; [| |done|];
        destruct Hmid as [->|(pp & Hpp & ->)]; simpl;
        try (split; [done|done]);
        (split; [done|]); (split; [by exists s0|done]).
  - intros w plan i0 s0 mid r w' plan' Hnext _ Hlen Hexec
      (new & Htrace & Hkept & Hdone & Hcalls & Hfold).
    pose proof (getNext_lookup _ _ _ Hnext) as Hi0.
    assert (Hnc : Step.status s0 <> completed).
    { apply getNext_status in Hnext as [-> | ->]; discriminate. }
    apply executeStep_resolved in Hexec as Hmid.
    pose proof Hexec as Hok. apply executeStep_Normal in Hok as (_ & Hnull).
    assert (Hmid' : exists pp,
               processStepParameters (Step.params s0) (Plan.context plan) = Normal pp /\
               mid = [(i0, Invoked (Step.toolName s0) pp)]).
    { destruct Hmid as [->|H]; [discriminate Hlen|done]. }
    destruct Hmid' as (pp & Hpp & ->).
    rewrite plan_after_steps in *.
    assert (Hi1 : Plan.steps plan' !! i0 = Some (after_success r s0)).
    { apply Hkept; [|done]. apply list_lookup_insert_eq.
      by apply lookup_lt_Some in Hi0. }
    exists ([(i0, Wrote running); (i0, Invoked (Step.toolName s0) pp);
             (i0, Wrote completed)] ++ new)%list.
    split_and!.
    + rewrite Htrace. unfold world_after. cbn [trace]. by rewrite <- app_assoc.
    + intros i s Hi Hs. apply Hkept; [|done].
      destruct (decide (i = i0)) as [->|Hne]; [congruence|].
      by rewrite list_lookup_insert_ne.
    + intros i s' Hi Hs. destruct (Hdone i s' Hi Hs) as [Hold|Hev].
      * destruct (decide (i = i0)) as [->|Hne].
        -- right. apply elem_of_app. left. rewrite !elem_of_cons. auto.
        -- left. by rewrite list_lookup_insert_ne in Hold.
      * right. apply elem_of_app. by right.
    + intros j t' Ht'. destruct (Hcalls j t' Ht') as (t1 & Ht1 & Htool & Hparams).
      destruct (same_call_insert _ i0 s0 (after_success r s0) Hi0
                  (conj eq_refl eq_refl) j t1 Ht1) as (t & Ht & Htool' & Hparams').
      exists t. split; [done|]. split; congruence.
    + intros F HF. destruct (Hfold F HF) as (Hctx & Hres).
      pose proof (HF i0 _ Hi1 eq_refl) as HF0.
      assert (Hfirst : context_after F
                [(i0, Wrote running); (i0, Invoked (Step.toolName s0) pp);
                 (i0, Wrote completed)] (Plan.context plan)
              = folded r (after_success r s0) (Plan.context plan)).
      { simpl. by rewrite HF0. }
      split.
      * by rewrite context_after_app, Hfirst, Hctx.
      * apply resolved_in_app. split.
        -- simpl. split; [by exists s0|]. done.
        -- rewrite Hfirst.
           apply (resolved_in_before _ (<[i0 := after_success r s0]> (Plan.steps plan)));
             [|done].
           by apply (same_call_insert _ i0 s0).
Qed.

Lemma drive_n_folds invoke (n : nat) :
  forall (w w' : World) (plan plan' : OperationPlan),
    drive_n invoke n w plan = Some (w', plan') ->
    exists new : list (nat * Event),
      trace w' = (trace w ++ new)%list /\
      (forall i s, Plan.steps plan !! i = Some s -> Step.status s = completed ->
                   Plan.steps plan' !! i = Some s) /\
      (forall i s', Plan.steps plan' !! i = Some s' -> Step.status s' = completed ->
                    Plan.steps plan !! i = Some s' \/ (i, Wrote completed) ∈ new) /\
      (forall j t', Plan.steps plan' !! j = Some t' ->
                    exists t, Plan.steps plan !! j = Some t /\ same_call t t') /\
      forall F : list OperationStep,
        (forall i s', Plan.steps plan' !! i = Some s' -> Step.status s' = completed ->
                      F !! i = Some s') ->
        Plan.context plan' = context_after F new (Plan.context plan) /\
        resolved_in (Plan.steps plan) F new (Plan.context plan).
Proof.
  induction n as [|n IH]; intros w w' plan plan' Hrun.
  - injection Hrun as <- <-. exists []. rewrite app_nil_r.
    split_and!; [done|done|by left|intros j t' ?; exists t'; by repeat split|].
    intros F _. done.
  - simpl in Hrun.
    destruct (executeOperationPlan invoke w plan) as [[w1 plan1]|] eqn:Hone;
      [|discriminate].
    unfold executeOperationPlan in Hone.
    apply drive_loop_folds in Hone
      as (new1 & Htrace1 & Hkept1 & Hdone1 & Hcalls1 & Hfold1).
    apply IH in Hrun as (new2 & Htrace2 & Hkept2 & Hdone2 & Hcalls2 & Hfold2).
    cbn [Plan.steps Plan.context Plan.set_status] in *.
    exists (new1 ++ new2)%list. split_and!.
    + by rewrite Htrace2, Htrace1, app_assoc.
    + intros i s Hi Hs. apply Hkept2; [|done]. by apply Hkept1.
    + intros i s' Hi Hs. rewrite elem_of_app.
      destruct (Hdone2 i s' Hi Hs) as [Hold|Hev]; [|by auto].
      destruct (Hdone1 i s' Hold Hs); by auto.
    + intros j t' Ht'. destruct (Hcalls2 j t' Ht') as (t1 & Ht1 & Htool & Hparams).
      destruct (Hcalls1 j t1 Ht1) as (t & Ht & Htool' & Hparams').
      exists t. split; [done|]. split; congruence.
    + intros F HF.
      destruct (Hfold2 F HF) as (Hctx2 & Hres2).
      destruct (Hfold1 F) as (Hctx1 & Hres1).
      { intros i s' Hi Hs. apply HF; [|done]. by apply Hkept2. }
      rewrite context_after_app, <- Hctx1. split; [done|].
      apply resolved_in_app. split; [done|]. rewrite <- Hctx1.
      by apply (resolved_in_before _ (Plan.steps plan1)).
Qed.

Lemma drive_n_total invoke (n : nat) (w : World) (plan : OperationPlan) :
  is_Some (drive_n invoke n w plan).
Proof.
  revert w plan. induction n as [|n IH]; intros w plan; [by eexists|]. simpl.
  destruct (executeOperationPlan_total invoke w plan) as ((w1 & plan1) & ->).
  apply IH.
Qed.

(** A key of the folded context. *)
Lemma folded_lookup (r : Json) (step : OperationStep) (context : gmap string Json)
    (k : string) :
  Step.result step = Some r -> r <> JNull ->
  folded r step context !! k
  = if bool_decide (k ∈ copied step)
    then match js_index r "data" with
         | Some data => js_index data k
         | None => None
         end
    else if bool_decide (k = Step.id step) then Some r else context !! k.
Proof.
  intros Hr Hnull. rewrite (folded_cases r step context Hr Hnull).
  unfold copied. rewrite Hr.
  destruct (js_index r "data") as [data|].
  - destruct (_ && _).
    + rewrite copy_data_lookup. case_bool_decide; [done|].
      rewrite lookup_insert. by repeat case_bool_decide; try done; case_decide.
    + rewrite bool_decide_eq_false_2 by by intros H; apply elem_of_nil in H.
      rewrite lookup_insert. by repeat case_bool_decide; try done; case_decide.
  - rewrite bool_decide_eq_false_2 by by intros H; apply elem_of_nil in H.
    rewrite lookup_insert. by repeat case_bool_decide; try done; case_decide.
Qed.

(** C7 as the code has it.  The accumulator: when a step completes, it
    does not throw and writes the step's full result under the step's id;
    it copies the top-level keys of [result.data] only for an
    [execute_query] or [execute_mutation] step with a truthy payload: then
    every such key reads back the payload's value, whatever the context
    held before, the step's id reads the full result unless the payload has
    a key of that name, and all other keys are unchanged; for any other
    tool, or without a truthy payload, only the entry under the step's id
    is written.  The drive: over any number of drives, the context of the
    plan is the context it had with the results of the steps that completed
    folded in, in the order of their completion, a failed attempt folding
    nothing; and every tool invocation received the parameters of its step
    as [processStepParameters] resolves them under the context folded from
    all the steps completed before it, so that what a step wrote is what
    every step scheduled after it resolves against.  The key [__proto__],
    whose assignment would replace the prototype of the context instead of
    adding a property, is taken not to be written. *)
Theorem context_fold invoke :
  (forall (i : nat) (w w' : World) (s s' : OperationStep)
          (context : gmap string Json) (r : Json),
      executeStep invoke i w s context = (w', s', Normal r) ->
      "__proto__" ∉ writes s' ->
      Step.status s' = completed /\ Step.result s' = Some r /\
      forall plan,
        snd (updateOperationContext plan s') = Normal tt /\
        Plan.context (fst (updateOperationContext plan s'))
          = folded r s' (Plan.context plan) /\
        (forall data,
            Step.toolName s = "execute_query" \/ Step.toolName s = "execute_mutation" ->
            js_index r "data" = Some data -> truthy data = true ->
            (forall k, k ∈ js_keys data ->
               is_Some (js_index data k) /\
               Plan.context (fst (updateOperationContext plan s')) !! k
                 = js_index data k) /\
            (Step.id s ∉ js_keys data ->
             Plan.context (fst (updateOperationContext plan s')) !! Step.id s = Some r) /\
            (forall k, k ∉ js_keys data -> k <> Step.id s ->
               Plan.context (fst (updateOperationContext plan s')) !! k
                 = Plan.context plan !! k)) /\
        ((Step.toolName s <> "execute_query" /\ Step.toolName s <> "execute_mutation")
         \/ truthy_opt (js_index r "data") = false ->
         Plan.context (fst (updateOperationContext plan s'))
           = <[Step.id s := r]> (Plan.context plan))) /\
  (forall (n : nat) (w : World) (plan : OperationPlan),
      Plan.context plan !! "__proto__" = None ->
      exists w' plan' (new : list (nat * Event)),
        drive_n invoke n w plan = Some (w', plan') /\
        trace w' = (trace w ++ new)%list /\
        (forall i s', Plan.steps plan' !! i = Some s' -> Step.status s' = completed ->
                      Plan.steps plan !! i = Some s' \/ (i, Wrote completed) ∈ new) /\
        ((forall i s', Plan.steps plan' !! i = Some s' -> Step.status s' = completed ->
                       "__proto__" ∉ writes s') ->
         Plan.context plan'
           = context_after (Plan.steps plan') new (Plan.context plan) /\
         forall pre j name args post,
           new = (pre ++ (j, Invoked name args) :: post)%list ->
           exists t,
             Plan.steps plan !! j = Some t /\ name = Step.toolName t /\
             processStepParameters (Step.params t)
               (context_after (Plan.steps plan') pre (Plan.context plan))
             = Normal args)).
Proof.
  split.
  - intros i w w' s s' context r Hexec _.
    destruct (accumulator_fold invoke i w w' s s' context r Hexec)
      as (Hst & Hr & Hfold).
    split; [done|]. split; [done|]. intros plan.
    destruct (Hfold plan) as (Hok & Hcopy & Hplain).
    split; [done|]. split; [|by split].
    apply executeStep_Normal in Hexec as (_ & Hnull).
    by rewrite (updateOperationContext_folded plan s' r Hr Hnull).
  - intros n w plan _.
    destruct (drive_n_total invoke n w plan) as ((w' & plan') & Hrun).
    destruct (drive_n_folds invoke n w w' plan plan' Hrun)
      as (new & Htrace & _ & Hdone & _ & Hfold).
    exists w', plan', new. split; [done|]. split; [done|]. split; [done|].
    intros _. destruct (Hfold (Plan.steps plan')) as (Hctx & Hres); [done|].
    split; [done|]. intros pre j name args post ->.
    by apply (resolved_in_at _ _ _ post).
Qed.


(** ** Results stay in the context *)


Lemma results_kept_fresh (plan : OperationPlan) : fresh plan -> results_kept plan.
Proof.
  intros Hfresh i s r Hi Hs _. unfold fresh in Hfresh.
  rewrite Forall_forall in Hfresh.
  apply list_elem_of_lookup_2 in Hi. apply Hfresh in Hi. congruence.
Qed.

Lemma drive_loop_results_kept invoke (fuel : nat) (w w' : World)
    (plan plan' : OperationPlan) :
  drive_loop invoke fuel w plan = Some (w', plan') ->
  results_kept plan -> results_kept plan'.
Proof.
  revert fuel w plan w' plan'.
  apply (drive_loop_induction invoke (fun w plan w' plan' =>
    results_kept plan -> results_kept plan')).
  - intros w plan _ Hinv i s r. rewrite settle_steps, settle_context.
    intros Hi Hs Hr. destruct (Hinv i s r Hi Hs Hr) as [?|(j & t & ? & ?)];
      [by left|right]. by exists j, t.
  - intros w plan i0 s0 mid m Hnext _ _ Hinv i s r.
    pose proof (getNext_lookup _ _ _ Hnext) as Hi0.
    assert (Hnc : Step.status s0 <> completed).
    { apply getNext_status in Hnext as [-> | ->]; discriminate. }
    assert (Hst : Step.status (after_failure m s0) <> completed).
    { unfold after_failure. by destruct (_ <? _). }
    rewrite plan_after_steps, plan_after_throw_context. intros Hi Hs Hr.
    destruct (decide (i = i0)) as [->|Hne].
    { rewrite list_lookup_insert_eq in Hi by by apply lookup_lt_Some in Hi0.
      simpl in Hi. congruence. }
    rewrite list_lookup_insert_ne in Hi by done.
    destruct (Hinv i s r Hi Hs Hr) as [?|(j & t & Hj & Ht & Hover)]; [by left|right].
    exists j, t. split; [|done].
    destruct (decide (j = i0)) as [->|Hne']; [congruence|].
    by rewrite list_lookup_insert_ne.
  - intros w plan i0 s0 mid r0 w' plan' Hnext _ _ Hexec IH Hinv.
    apply IH. clear IH.
    pose proof (getNext_lookup _ _ _ Hnext) as Hi0.
    assert (Hnc : Step.status s0 <> completed).
    { apply getNext_status in Hnext as [-> | ->]; discriminate. }
    apply executeStep_Normal in Hexec as (_ & Hnull).
    intros i s r. rewrite plan_after_steps.
    change (Plan.context (plan_after i0 (Normal r0) s0 plan))
      with (folded r0 (after_success r0 s0) (Plan.context plan)).
    assert (Hi1 : <[i0 := step_after (Normal r0) s0]> (Plan.steps plan) !! i0
                  = Some (after_success r0 s0)).
    { apply list_lookup_insert_eq. by apply lookup_lt_Some in Hi0. }
    intros Hi Hs Hr.
    rewrite (folded_lookup r0 (after_success r0 s0) _ _ eq_refl Hnull).
    case_bool_decide as Hcopied.
    { right. exists i0, (after_success r0 s0). split; [done|]. split; [done|by left]. }
    destruct (decide (i = i0)) as [->|Hne].
    { rewrite Hi1 in Hi. injection Hi as <-. simpl in Hr. injection Hr as <-.
      left. by rewrite bool_decide_eq_true_2. }
    rewrite list_lookup_insert_ne in Hi by done.
    case_bool_decide as Hid.
    { right. exists i0, (after_success r0 s0). split; [done|]. split; [done|].
      right. split; [done|]. by rewrite Hid. }
    destruct (Hinv i s r Hi Hs Hr) as [?|(j & t & Hj & Ht & Hover)]; [by left|right].
    exists j, t. split; [|done].
    destruct (decide (j = i0)) as [->|Hne']; [congruence|].
    by rewrite list_lookup_insert_ne.
Qed.

Lemma reachable_results_kept (plan : OperationPlan) :
  reachable plan -> results_kept plan.
Proof.
  induction 1 as [plan Hfresh | invoke w plan w' plan' _ IH Hrun].
  - by apply results_kept_fresh.
  - unfold executeOperationPlan in Hrun.
    apply drive_loop_results_kept in Hrun; [done|].
    intros i s r Hi Hs Hr. destruct (IH i s r Hi Hs Hr) as [?|?]; [by left|by right].
Qed.

(** C9. Whenever [executeOperationPlan] returns, for a plan that was fresh
    when first driven: the plan is completed iff every step is completed, it
    is failed iff some step is failed, and it is executing when neither
    holds; whatever the outcome, every key the context held before the
    drive is still there, and the result of every completed step is in the
    context under the step's id, unless a completed step wrote over it: one
    with a payload key of that name, or another with the same id. *)
Theorem plan_status_invariant invoke (w w' : World) (plan plan' : OperationPlan) :
  reachable plan ->
  executeOperationPlan invoke w plan = Some (w', plan') ->
  (Plan.status plan' = plan_completed <->
   Forall (fun s => Step.status s = completed) (Plan.steps plan')) /\
  (Plan.status plan' = plan_failed <->
   Exists (fun s => Step.status s = failed) (Plan.steps plan')) /\
  (~ Forall (fun s => Step.status s = completed) (Plan.steps plan') ->
   ~ Exists (fun s => Step.status s = failed) (Plan.steps plan') ->
   Plan.status plan' = executing) /\
  (forall k, is_Some (Plan.context plan !! k) -> is_Some (Plan.context plan' !! k)) /\
  (forall i s r,
      Plan.steps plan' !! i = Some s -> Step.status s = completed ->
      Step.result s = Some r -> Step.id s <> "__proto__" ->
      Plan.context plan' !! Step.id s = Some r \/
      exists j t,
        Plan.steps plan' !! j = Some t /\ Step.status t = completed /\
        (Step.id s ∈ copied t \/ (j <> i /\ Step.id t = Step.id s))).
Proof.
  intros Hreach Hrun.
  pose proof (reachable_results_kept plan' (reach_drive _ _ _ _ _ Hreach Hrun))
    as Hkept.
  apply reachable_settled in Hreach.
  pose proof Hrun as Hctx.
  apply executeOperationPlan_settled in Hrun as (_ & (? & ? & ?)); [|done].
  split_and!; try done.
  - intros k Hk. unfold executeOperationPlan in Hctx.
    by apply (drive_loop_keeps_context _ _ _ _ _ _ k) in Hctx.
  - intros i s r Hi Hs Hr _. by apply Hkept.
Qed.

(** ** Building a plan *)

Lemma build_steps_filter (toolCalls : list ToolCall) (steps : list OperationStep) :
  build_steps toolCalls = Normal steps ->
  Forall2 (fun toolCall step =>
             exists args, JSON_parse (tc_arguments toolCall) = Normal args /\
                          step = step_of_call toolCall args)
          (List.filter is_function toolCalls) steps.
Proof.
  revert steps. induction toolCalls as [|tc rest IH]; intros steps; simpl.
  - intros [= <-]. constructor.
  - unfold is_function at 1. destruct (String.eqb (tc_type tc) "function"); simpl.
    + destruct (JSON_parse (tc_arguments tc)) as [args|] eqn:Hargs; [|discriminate].
      destruct (build_steps rest) as [steps'|]; [|discriminate].
      intros [= <-]. constructor; [by exists args|by apply IH].
    + apply IH.
Qed.


(** X1.  A plan that [createOperationPlan] returns holds one step per tool
    call of type [function], in the order of the calls and with the call's
    id and name, its arguments parsed; every step is pending with no retry
    made, three retries allowed, no dependency, no result and no error; the
    plan carries the given id and message, status [planning] and an empty
    context. *)
Theorem createOperationPlan_shape (uuid : string) (toolCalls : list ToolCall)
    (userMessage : string) (plan : OperationPlan) :
  createOperationPlan uuid toolCalls userMessage = Normal plan ->
  Plan.id plan = uuid /\ Plan.userMessage plan = userMessage /\
  Plan.status plan = planning /\ Plan.context plan = ∅ /\
  Plan.currentStepIndex plan = 0 /\ Plan.response plan = None /\
  Forall2 (fun toolCall step =>
             JSON_parse (tc_arguments toolCall) = Normal (Step.params step) /\
             Step.id step = tc_id toolCall /\
             Step.toolName step = tc_name toolCall /\
             Step.status step = pending /\ Step.dependsOn step = None /\
             Step.retryCount step = 0 /\ Step.maxRetries step = 3 /\
             Step.result step = None /\ Step.error step = None)
          (List.filter is_function toolCalls) (Plan.steps plan).
Proof.
  unfold createOperationPlan.
  destruct (build_steps toolCalls) as [steps|] eqn:Hbuilt; [|discriminate].
  intros [= <-]. simpl. split_and!; [done..|].
  apply build_steps_filter in Hbuilt.
  eapply Forall2_impl; [exact Hbuilt|].
  intros tc s (args & Hargs & ->). by split_and!.
Qed.


(** ** The resolver only looks at the keys that occur *)

(** X3.  When the context binds none of the keys that occur between double
    braces in the serialized parameters, and none of these keys names a
    member of [Object.prototype], [processStepParameters] returns the
    parameters as they are, placeholders included, whatever else the
    context holds. *)
Theorem resolver_leaves_unbound_keys (params : Json) (context : gmap string Json) :
  well_formed params ->
  Forall (fun key => context !! key = None /\ inherited key = false)
         (placeholder_keys 0 (JSON_stringify params)) ->
  processStepParameters params context = Normal params.
Proof.
  intros Hwf Hkeys. rewrite resolver_unbound; [|done].
  by apply JSON_parse_stringify.
Qed.


(** ** Values that are not strings lose their first and last character *)

(** Characters [JSON.stringify] writes as they are and the parser reads as
    they are inside a string literal. *)
Lemma quote_body_plain (s : string) :
  all_chars is_plain s = true -> quote_body s = s.
Proof.
  induction s as [|c s IH]; [done|]. cbn [all_chars quote_body].
  intros H. apply andb_prop in H as (Hc & Hs). rewrite IH; [|done].
  unfold is_plain in Hc. unfold quote_char.
  apply andb_prop in Hc as (Hc & H92). apply andb_prop in Hc as (H32 & H34).
  apply N.leb_le in H32. apply negb_true_iff in H34, H92.
  rewrite H34, H92.
  repeat match goal with
         | |- context [(code c =? ?n)%N] =>
             destruct (N.eqb_spec (code c) n); [lia|]
         end.
  destruct (N.ltb_spec (code c) 32); [lia|]. done.
Qed.

Lemma all_chars_drop_last (p : ascii -> bool) (s : string) :
  all_chars p s = true -> all_chars p (drop_last s) = true.
Proof.
  induction s as [|c s IH]; [done|]. cbn [all_chars]. intros H.
  apply andb_prop in H as (Hc & Hs).
  destruct s as [|c' s']; [done|].
  change (drop_last (String c (String c' s')))
    with (String c (drop_last (String c' s'))).
  cbn [all_chars]. rewrite Hc. by apply IH.
Qed.

Lemma all_chars_slice (p : ascii -> bool) (s : string) :
  all_chars p s = true -> all_chars p (slice_1_m1 s) = true.
Proof.
  destruct s as [|c s]; [done|]. cbn [all_chars slice_1_m1]. intros H.
  apply andb_prop in H as (_ & Hs). by apply all_chars_drop_last.
Qed.

Lemma string_of_uint_plain (d : Decimal.uint) :
  all_chars is_plain (NilEmpty.string_of_uint d) = true.
Proof. induction d; simpl; by rewrite ?IHd. Qed.

Lemma Z_to_string_plain (n : Z) : all_chars is_plain (Z_to_string n) = true.
Proof.
  unfold Z_to_string, NilZero.string_of_int.
  destruct (Z.to_int n) as [d|d]; simpl.
  - destruct d; try done; simpl; apply string_of_uint_plain.
  - destruct d; try done; simpl; apply string_of_uint_plain.
Qed.

Lemma resolver_plain_text (v : Json) (context : gmap string Json) :
  context !! "foo" = Some v ->
  all_chars is_plain (slice_1_m1 (JSON_stringify v)) = true ->
  processStepParameters (JObject [("id", JString "{{foo}}")]) context
  = Normal (JObject [("id", JString (slice_1_m1 (JSON_stringify v)))]).
Proof.
  intros H Hplain. unfold processStepParameters. rewrite replace_in_example.
  unfold substitute, context_get. rewrite H.
  set (inner := slice_1_m1 (JSON_stringify v)) in *.
  unfold JSON_parse. simpl.
  change (parse_string_body (EmptyString +:+ inner +:+ str1 dquote +:+ "}"))
    with (parse_string_body (inner +:+ String dquote "}")).
  rewrite <- (quote_body_plain inner) at 1 by done.
  rewrite parse_quote_body. reflexivity.
Qed.

(** X5.  Whatever safe integer (one of absolute value below [2 ^ 53],
    which the source's numbers hold exactly and print in decimal digits)
    the context binds to [foo], the placeholder [{{foo}}] in a string field
    is replaced by the integer's decimal numeral without its first and last
    character: [slice(1, -1)] is applied to the serialized value although a
    number is serialized without quotes. *)
Theorem resolver_number_loses_ends (n : Z) (context : gmap string Json) :
  - 2 ^ 53 < n < 2 ^ 53 ->
  context !! "foo" = Some (JNum n) ->
  processStepParameters (JObject [("id", JString "{{foo}}")]) context
  = Normal (JObject [("id", JString (slice_1_m1 (Z_to_string n)))]).
Proof.
  intros _ H. apply (resolver_plain_text (JNum n)); [done|].
  apply all_chars_slice, Z_to_string_plain.
Qed.

(** ** Placeholders that name a member of [Object.prototype] *)

Lemma replace_throws_aux (cb : string -> Completion string) (m : string)
    (n : nat) :
  (forall key m', cb key = Throw m' -> m' = m) ->
  forall (skip : nat) (s : string),
    (String.length s <= n)%nat ->
    Exists (fun key => cb key = Throw m) (placeholder_keys skip s) ->
    replace_placeholders cb skip s = Throw m.
Proof.
  intros Hone. induction n as [|n IH]; intros skip s Hn; destruct s as [|c r];
    try (by intros H; apply Exists_nil in H); [simpl in Hn; lia|].
  cbn [replace_placeholders placeholder_keys]. simpl in Hn.
  destruct skip as [|k]; [|intros H; apply IH; [lia|done]].
  destruct (match_placeholder (String c r)) as [key|].
  - intros H. apply Exists_cons in H as [H|H].
    + by rewrite H.
    + rewrite (IH _ r); [|lia|done].
      destruct (cb key) as [text|m'] eqn:Hcb; [done|].
      by rewrite (Hone _ _ Hcb).
  - intros H. by rewrite (IH _ r); [|lia|].
Qed.

Lemma method_not_proto (key : string) :
  existsb (String.eqb key) prototype_methods = true ->
  String.eqb key "__proto__" = false.
Proof.
  intros H. destruct (String.eqb_spec key "__proto__") as [->|]; [|done].
  vm_compute in H. discriminate H.
Qed.

(** X28.  A placeholder that names a member of [Object.prototype] finds it
    in the context, which is a plain object.  When the context does not
    bind the name itself, a method name ([constructor], [toString], ...)
    anywhere between double braces makes [processStepParameters] throw a
    [TypeError], since [JSON.stringify] of a function is [undefined]; and
    [{{__proto__}}] is replaced by the empty text, the serialized prototype
    without its braces. *)
Theorem inherited_names_resolve (context : gmap string Json) :
  (forall params,
      Exists (fun key => context !! key = None /\
                         existsb (String.eqb key) prototype_methods = true)
             (placeholder_keys 0 (JSON_stringify params)) ->
      processStepParameters params context
      = Throw "Cannot read properties of undefined (reading 'slice')") /\
  (context !! "__proto__" = None ->
   processStepParameters (JObject [("id", JString "{{__proto__}}")]) context
   = Normal (JObject [("id", JString EmptyString)])).
Proof.
  split.
  - intros params Hkeys. unfold processStepParameters.
    rewrite (replace_throws_aux (substitute context)
               "Cannot read properties of undefined (reading 'slice')"
               (String.length (JSON_stringify params))); [done| |done|].
    + intros key m'. unfold substitute.
      destruct (context_get context key); congruence.
    + eapply Exists_impl; [exact Hkeys|].
      intros key (Hkey & Hin). unfold substitute, context_get.
      by rewrite Hkey, (method_not_proto _ Hin), Hin.
  - intros Hproto. unfold processStepParameters.
    assert (Hsub : substitute context "__proto__" = Normal EmptyString).
    { unfold substitute, context_get. by rewrite Hproto. }
    assert (Hrep : replace_placeholders (substitute context) 0
                     (JSON_stringify (JObject [("id", JString "{{__proto__}}")]))
                   = match substitute context "__proto__" with
                     | Normal text =>
                         Normal ("{" +:+ quote "id" +:+ ":" +:+ str1 dquote +:+ text
                                   +:+ str1 dquote +:+ "}")
                     | Throw m => Throw m
                     end).
    { generalize (substitute context). intros cb. vm_compute. by destruct (cb _). }
    rewrite Hrep, Hsub. vm_compute. reflexivity.
Qed.

(** ** The [web_search] tool *)

(** X6.  A [web_search] step never invokes a tool and never succeeds: each
    attempt takes the failure path, incrementing the retry counter; when
    its parameters resolve, the error is the fixed message that web search
    is not available. *)
Theorem web_search_always_fails invoke (i : nat) (w : World) (s : OperationStep)
    (context : gmap string Json) :
  Step.toolName s = "web_search" ->
  exists w' s' m,
    executeStep invoke i w s context = (w', s', Throw m) /\
    calls w' = calls w /\
    trace w' = (trace w ++ [(i, Wrote running); (i, Wrote (Step.status s'))])%list /\
    Step.retryCount s' = Step.retryCount s + 1 /\
    ((Step.maxRetries s < Step.retryCount s + 1 /\ Step.status s' = failed /\
      Step.error s' = Some m) \/
     (Step.retryCount s + 1 <= Step.maxRetries s /\ Step.status s' = pending /\
      Step.error s'
        = Some (retry_message (Step.retryCount s + 1) (Step.maxRetries s) m))) /\
    (forall pp, processStepParameters (Step.params s) context = Normal pp ->
                m = web_search_error).
Proof.
  intros Hname.
  assert (Hatt : forall w0, exists m,
             attempt invoke i w0 (Step.set_status running s) context
               = (w0, Throw m) /\
             (forall pp, processStepParameters (Step.params s) context = Normal pp ->
                         m = web_search_error)).
  { intros w0. unfold attempt. simpl.
    destruct (processStepParameters _ _) as [pp|m0]; [|by exists m0].
    unfold dispatch. simpl. rewrite Hname. simpl.
    eexists. split; [reflexivity|]. by intros ? _. }
  destruct (Hatt (emit i (Wrote running) w)) as (m & Hm & Hmsg).
  exists (world_after i [] (Step.status (after_failure m s)) w),
    (after_failure m s), m.
  destruct (after_failure_status m s) as (Hrc & _ & Hcase).
  split_and!; try done.
  - unfold executeStep. rewrite Hm. unfold world_after, emit, after_failure.
    simpl. destruct (_ <? _); simpl; by rewrite <- !app_assoc, Nat.add_0_r.
Qed.

(** ** What a drive does to one step *)

Lemma drive_loop_step_after invoke (fuel : nat) (w w' : World)
    (plan plan' : OperationPlan) :
  drive_loop invoke fuel w plan = Some (w', plan') ->
  forall i s, Plan.steps plan !! i = Some s ->
    Plan.steps plan' !! i = Some s \/
    (Step.status s <> completed /\
     exists c, Plan.steps plan' !! i = Some (step_after c s) /\
               match c with Normal r => r <> JNull | Throw _ => True end).
Proof.
  revert fuel w plan w' plan'.
  apply (drive_loop_induction invoke (fun w plan w' plan' =>
    forall i s, Plan.steps plan !! i = Some s ->
      Plan.steps plan' !! i = Some s \/
      (Step.status s <> completed /\
       exists c, Plan.steps plan' !! i = Some (step_after c s) /\
                 match c with Normal r => r <> JNull | Throw _ => True end))).
  - intros w plan _ i s Hi. left. by rewrite settle_steps.
  - intros w plan i0 s0 mid m Hnext _ _ i s Hi.
    rewrite plan_after_steps. destruct (decide (i = i0)) as [->|Hne].
    + assert (s = s0) as -> by (apply getNext_lookup in Hnext; congruence).
      right. split.
      { apply getNext_status in Hnext as [-> | ->]; discriminate. }
      exists (Throw m). split; [|done].
      apply list_lookup_insert_eq. by apply lookup_lt_Some in Hi.
    + left. by rewrite list_lookup_insert_ne.
  - intros w plan i0 s0 mid r w' plan' Hnext _ _ Hexec IH i s Hi.
    pose proof (getNext_lookup _ _ _ Hnext) as Hi0.
    apply executeStep_Normal in Hexec as (_ & Hr).
    destruct (decide (i = i0)) as [->|Hne].
    + assert (s = s0) as -> by congruence.
      right. split.
      { apply getNext_status in Hnext as [-> | ->]; discriminate. }
      exists (Normal r). split; [|done].
      destruct (IH i0 (after_success r s0)) as [H|(Hst & _)]; [|done|].
      * rewrite plan_after_steps. apply list_lookup_insert_eq.
        by apply lookup_lt_Some in Hi.
      * by destruct Hst.
    + apply IH. rewrite plan_after_steps. by rewrite list_lookup_insert_ne.
Qed.

(** X7.  Success clears nothing: a step that a drive returns completed
    carries the error message and the retry count it had before the drive,
    left there by its earlier failed attempts, together with its result. *)
Theorem completion_keeps_error invoke (w w' : World) (plan plan' : OperationPlan)
    (i : nat) (s s' : OperationStep) :
  executeOperationPlan invoke w plan = Some (w', plan') ->
  Plan.steps plan !! i = Some s -> Plan.steps plan' !! i = Some s' ->
  Step.status s' = completed ->
  Step.error s' = Step.error s /\ Step.retryCount s' = Step.retryCount s /\
  (Step.status s <> completed -> exists r, Step.result s' = Some r /\ r <> JNull).
Proof.
  intros Hrun Hi Hi' Hst.
  destruct (drive_loop_step_after _ _ _ _ _ _ Hrun i s Hi)
    as [Hsame|(Hnot & c & Hafter & Hc)].
  - assert (s' = s) as -> by congruence. split_and!; [done..|]. by intros [].
  - assert (s' = step_after c s) as -> by congruence.
    destruct c as [r|m]; simpl in *.
    + split_and!; [done..|]. intros _. by exists r.
    + exfalso. unfold after_failure in Hst.
      destruct (_ <? _); discriminate Hst.
Qed.

(** ** When every tool answers *)

Lemma check_result_ok (r : Json) :
  r <> JNull -> truthy_opt (js_index r "error") = false -> check_result r = Normal r.
Proof.
  intros Hr He. unfold check_result.
  destruct r; try done; simpl in *; by rewrite He.
Qed.

Lemma executeStep_success invoke (i : nat) (w : World) (s : OperationStep)
    (context : gmap string Json) (pp r : Json) :
  calls_tool (Step.toolName s) ->
  processStepParameters (Step.params s) context = Normal pp ->
  invoke (calls w) (Step.toolName s) pp = Normal r ->
  r <> JNull -> truthy_opt (js_index r "error") = false ->
  executeStep invoke i w s context
  = (mkWorld (S (calls w))
       (trace w ++ [(i, Wrote running); (i, Invoked (Step.toolName s) pp);
                    (i, Wrote completed)]),
     after_success r s, Normal r).
Proof.
  intros Htool Hpp Hinv Hr He. unfold executeStep, attempt. simpl. rewrite Hpp.
  destruct (dispatch_cases invoke i (emit i (Wrote running) w)
              (Step.set_status running s) pp)
    as [(_ & _ & ->)|[(Hname & _)|(Hrec & _)]]; simpl in *.
  - rewrite Hinv, (check_result_ok r Hr He). unfold emit. simpl.
    by rewrite <- !app_assoc.
  - destruct Htool as [H|[H|H]]; rewrite H in Hname; discriminate Hname.
  - destruct Hrec. unfold recognized, calls_tool in *. tauto.
Qed.

Lemma pending_prefix_next (plan : OperationPlan) (fin todo : list OperationStep)
    (s : OperationStep) :
  Plan.steps plan = (fin ++ s :: todo)%list ->
  Forall (fun s => Step.status s = completed) fin ->
  Step.status s = pending -> Step.dependsOn s = None ->
  getNextExecutableStep plan = Some (List.length fin, s).
Proof.
  intros Hsteps Hdone Hst Hdeps. apply getNext_Some. rewrite Hsteps. split_and!.
  - by apply list_lookup_middle.
  - unfold runnable. by rewrite Hst, Hdeps.
  - intros j s' Hj Hs'. rewrite lookup_app_l in Hs' by done.
    apply completed_not_runnable.
    rewrite Forall_forall in Hdone. apply Hdone. by eapply list_elem_of_lookup_2.
Qed.

Lemma insert_middle {A : Type} (l1 l2 : list A) (x y : A) :
  <[List.length l1 := y]> (l1 ++ x :: l2)%list = (l1 ++ y :: l2)%list.
Proof. induction l1 as [|a l1 IH]; [done|]. simpl. by rewrite IH. Qed.

Lemma drive_loop_happy invoke (todo : list OperationStep) :
  forall (fin : list OperationStep) (w : World) (plan : OperationPlan) (fuel : nat),
    Plan.steps plan = (fin ++ todo)%list ->
    Forall (fun s => Step.status s = completed) fin ->
    Forall (fun s => Step.status s = pending /\ Step.dependsOn s = None /\
                     calls_tool (Step.toolName s) /\ well_formed (Step.params s) /\
                     placeholder_keys 0 (JSON_stringify (Step.params s)) = []) todo ->
    (forall k s, todo !! k = Some s ->
       tool_succeeds (invoke (calls w + k)%nat (Step.toolName s) (Step.params s))) ->
    (List.length todo < fuel)%nat ->
    exists plan',
      drive_loop invoke fuel w plan
        = Some (mkWorld (calls w + List.length todo)
                  (trace w ++ happy_trace (List.length fin) todo), plan') /\
      Plan.status plan' = plan_completed /\
      List.length (Plan.steps plan') = List.length (Plan.steps plan) /\
      (forall j s, fin !! j = Some s -> Plan.steps plan' !! j = Some s) /\
      (forall k s, todo !! k = Some s ->
         exists r, invoke (calls w + k)%nat (Step.toolName s) (Step.params s) = Normal r /\
                   Plan.steps plan' !! (List.length fin + k)%nat
                     = Some (after_success r s)).
Proof.
  induction todo as [|s todo IH]; intros fin w plan fuel Hsteps Hdone Htodo Hinv Hfuel.
  - destruct fuel as [|fuel]; [simpl in Hfuel; lia|].
    rewrite app_nil_r in Hsteps.
    assert (Hnone : getNextExecutableStep plan = None).
    { apply getNext_None. rewrite Hsteps.
      eapply Forall_impl; [exact Hdone|]. intros s. apply completed_not_runnable. }
    exists (settle plan). simpl. rewrite Hnone, Nat.add_0_r, app_nil_r, world_eta.
    assert (Hall : isOperationComplete plan = true).
    { apply isOperationComplete_spec. by rewrite Hsteps. }
    unfold settle. rewrite Hall. simpl. split_and!; [done..| |].
    + intros j s Hj. by rewrite Hsteps.
    + intros k s Hk. by rewrite lookup_nil in Hk.
  - destruct fuel as [|fuel]; [simpl in Hfuel; lia|].
    apply Forall_cons in Htodo as ((Hst & Hdeps & Htool & Hwf & Hkeys) & Htodo).
    pose proof (pending_prefix_next plan fin todo s Hsteps Hdone Hst Hdeps) as Hnext.
    destruct (drive_loop_unfold invoke fuel w plan _ _ Hnext)
      as (mid & c & _ & _ & _ & Hexec & _ & Hloop).
    assert (Hpp : processStepParameters (Step.params s) (Plan.context plan)
                  = Normal (Step.params s)).
    { rewrite resolver_unbound; [by apply JSON_parse_stringify|].
      rewrite Hkeys. constructor. }
    pose proof (Hinv 0%nat s eq_refl) as Hans. rewrite Nat.add_0_r in Hans.
    destruct (invoke (calls w) (Step.toolName s) (Step.params s)) as [r|] eqn:Hr;
      [|done].
    destruct Hans as (Hnn & Herr).
    rewrite (executeStep_success invoke _ w s _ _ r Htool Hpp Hr Hnn Herr) in Hexec.
    pose proof (f_equal (fun x => fst (fst x)) Hexec) as Hw. cbn [fst] in Hw.
    pose proof (f_equal snd Hexec) as Hc. cbn [snd] in Hc. subst c.
    rewrite <- Hw in Hloop. clear Hw Hexec.
    rewrite Hloop. clear Hloop.
    set (s' := step_after (Normal r) s).
    destruct (IH (fin ++ [s'])%list
                (mkWorld (S (calls w)) (trace w ++ attempt_events (List.length fin) s))
                (plan_after (List.length fin) (Normal r) s plan) fuel)
      as (plan' & Hrun & Hstatus & Hlen & Hkept & Hnew).
    + rewrite plan_after_steps, Hsteps.
      rewrite insert_middle. by rewrite <- app_assoc.
    + apply Forall_app. split; [done|]. by repeat constructor.
    + done.
    + intros k sk Hk. simpl. rewrite <- Nat.add_succ_r. by apply Hinv.
    + simpl in Hfuel. lia.
    + exists plan'. split_and!.
      * unfold attempt_events in Hrun. rewrite Hrun. f_equal. f_equal.
        simpl. f_equal; [lia|].
        rewrite <- app_assoc, List.length_app. simpl.
        by rewrite Nat.add_1_r.
      * done.
      * rewrite Hlen, plan_after_steps. by rewrite length_insert.
      * intros j sj Hj. apply Hkept. by apply lookup_app_l_Some.
      * intros [|k] sk Hk; simpl in Hk.
        -- injection Hk as <-. exists r. rewrite Nat.add_0_r. split; [done|].
           apply Hkept. by apply list_lookup_middle.
        -- destruct (Hnew k sk Hk) as (rk & Hrk & Hat). exists rk. simpl in Hrk.
           split; [by rewrite <- Nat.add_succ_comm|].
           rewrite List.length_app in Hat. simpl in Hat.
           by rewrite <- Nat.add_assoc in Hat.
Qed.

(** X8.  When the invocation made for each step answers without error,
    one drive completes a plan whose steps are all pending, without
    dependencies, name a Shopify tool and contain no placeholder: the steps
    run in plan order, each exactly once and with its own parameters, every
    step ends completed holding the answer to its invocation, and the plan
    is completed. *)
Theorem all_succeed_completes invoke (w : World) (plan : OperationPlan) :
  Forall (fun s => Step.status s = pending /\ Step.dependsOn s = None /\
                   calls_tool (Step.toolName s) /\ well_formed (Step.params s) /\
                   placeholder_keys 0 (JSON_stringify (Step.params s)) = [])
         (Plan.steps plan) ->
  (forall k s, Plan.steps plan !! k = Some s ->
     tool_succeeds (invoke (calls w + k)%nat (Step.toolName s) (Step.params s))) ->
  exists w' plan',
    executeOperationPlan invoke w plan = Some (w', plan') /\
    Plan.status plan' = plan_completed /\
    calls w' = (calls w + List.length (Plan.steps plan))%nat /\
    trace w' = (trace w ++ happy_trace 0 (Plan.steps plan))%list /\
    List.length (Plan.steps plan') = List.length (Plan.steps plan) /\
    forall k s, Plan.steps plan !! k = Some s ->
      exists r,
        invoke (calls w + k)%nat (Step.toolName s) (Step.params s) = Normal r /\
        Plan.steps plan' !! k = Some (after_success r s).
Proof.
  intros Hsteps Hinv.
  destruct (drive_loop_happy invoke (Plan.steps plan) [] w
              (Plan.set_status executing plan)
              (S (List.length (Plan.steps plan))))
    as (plan' & Hrun & Hst & Hlen & _ & Hnew);
    [done|constructor|done|done|simpl; lia|].
  eexists _, plan'. split_and!; [exact Hrun|done..].
Qed.

(** ** Dependencies come first *)

Lemma first_with_id_find (steps : list OperationStep) (d : string) :
  match first_with_id steps d with
  | Some j => exists dep, steps !! j = Some dep /\
                List.find (fun s => String.eqb (Step.id s) d) steps = Some dep
  | None => List.find (fun s => String.eqb (Step.id s) d) steps = None
  end.
Proof.
  induction steps as [|s steps IH]; simpl; [done|].
  destruct (String.eqb (Step.id s) d); simpl; [by exists s|].
  by destruct (first_with_id steps d).
Qed.

Lemma first_with_id_same (l l' : list OperationStep) (d : string) :
  Forall2 (fun a b => Step.id a = Step.id b) l l' ->
  first_with_id l d = first_with_id l' d.
Proof.
  induction 1 as [|a b l l' Hab _ IH]; simpl; [done|]. by rewrite Hab, IH.
Qed.

Lemma dependencies_in_mono (steps : list OperationStep) (fin fin' : list nat)
    (i : nat) :
  (forall j, j ∈ fin -> j ∈ fin') ->
  dependencies_in steps fin i = true -> dependencies_in steps fin' i = true.
Proof.
  intros Hsub. unfold dependencies_in.
  destruct (steps !! i) as [s|]; [|done].
  destruct (Step.dependsOn s) as [deps|]; [|done].
  rewrite !forallb_forall. intros H d Hd. specialize (H d Hd).
  destruct (first_with_id steps d) as [j|]; [|done].
  apply bool_decide_eq_true in H. apply bool_decide_eq_true. by apply Hsub.
Qed.

(** What the scheduler has checked of the step it returns. *)
Lemma selected_dependencies_in (plan : OperationPlan) (steps0 : list OperationStep)
    (fin : list nat) (i : nat) (s : OperationStep) :
  getNextExecutableStep plan = Some (i, s) ->
  Forall2 (fun a b => Step.id a = Step.id b /\ Step.dependsOn a = Step.dependsOn b)
          steps0 (Plan.steps plan) ->
  (forall j sj, Plan.steps plan !! j = Some sj -> Step.status sj = completed ->
                j ∈ fin) ->
  dependencies_in steps0 fin i = true.
Proof.
  intros Hnext Hsame Hdone.
  apply getNext_Some in Hnext as (Hi & Hrun & _).
  unfold dependencies_in.
  destruct (steps0 !! i) as [s0|] eqn:Hi0; [|done].
  destruct (Forall2_lookup_lr _ _ _ _ _ _ Hsame Hi0 Hi) as (_ & Hdeps).
  rewrite Hdeps. unfold runnable in Hrun.
  destruct (_ || _); [done|].
  destruct (Step.dependsOn s) as [deps|]; [|done].
  rewrite forallb_forall in Hrun. rewrite forallb_forall. intros d Hd.
  specialize (Hrun d Hd). unfold dependency_met in Hrun.
  rewrite (first_with_id_same steps0 (Plan.steps plan)).
  2:{ eapply Forall2_impl; [exact Hsame|]. by intros ? ? (? & _). }
  pose proof (first_with_id_find (Plan.steps plan) d) as Hfind.
  destruct (first_with_id (Plan.steps plan) d) as [j|].
  - destruct Hfind as (dep & Hj & Hfind). rewrite Hfind in Hrun.
    apply bool_decide_eq_true in Hrun. apply bool_decide_eq_true.
    by apply (Hdone j dep).
  - by rewrite Hfind in Hrun.
Qed.

Lemma respects_app (steps : list OperationStep) (tr1 tr2 : list (nat * Event))
    (fin : list nat) :
  respects_dependencies steps fin (tr1 ++ tr2)
  = respects_dependencies steps fin tr1
    && respects_dependencies steps (foldl done_after fin tr1) tr2.
Proof.
  revert fin. induction tr1 as [|ev tr1 IH]; intros fin; simpl; [done|].
  by rewrite IH, andb_assoc.
Qed.

(** The events of one attempt respect the dependencies of its step. *)
Lemma respects_attempt (steps : list OperationStep) (fin : list nat) (i : nat)
    (s : OperationStep) (mid : list (nat * Event)) (st : StepStatus) :
  invocations_of i s mid -> dependencies_in steps fin i = true ->
  respects_dependencies steps fin ((i, Wrote running) :: mid ++ [(i, Wrote st)])
  = true /\
  foldl done_after fin ((i, Wrote running) :: mid ++ [(i, Wrote st)])
  = done_after fin (i, Wrote st).
Proof.
  intros [->|(args & ->)] Hdeps; simpl; rewrite !Hdeps; by destruct st.
Qed.

Lemma drive_loop_dependencies invoke (fuel : nat) (w w' : World)
    (plan plan' : OperationPlan) :
  drive_loop invoke fuel w plan = Some (w', plan') ->
  forall steps0 fin,
    Forall2 (fun a b => Step.id a = Step.id b /\ Step.dependsOn a = Step.dependsOn b)
            steps0 (Plan.steps plan) ->
    (forall j sj, Plan.steps plan !! j = Some sj -> Step.status sj = completed ->
                  j ∈ fin) ->
    exists new : list (nat * Event),
      trace w' = (trace w ++ new)%list /\
      respects_dependencies steps0 fin new = true.
Proof.
  revert fuel w plan w' plan'.
  apply (drive_loop_induction invoke (fun w plan w' plan' =>
    forall steps0 fin,
      Forall2 (fun a b => Step.id a = Step.id b /\ Step.dependsOn a = Step.dependsOn b)
              steps0 (Plan.steps plan) ->
      (forall j sj, Plan.steps plan !! j = Some sj -> Step.status sj = completed ->
                    j ∈ fin) ->
      exists new : list (nat * Event),
        trace w' = (trace w ++ new)%list /\
        respects_dependencies steps0 fin new = true)).
  - intros w plan _ steps0 fin _ _. exists []. by rewrite app_nil_r.
  - intros w plan i s mid m Hnext Hmid _ steps0 fin Hsame Hdone.
    eexists. split; [reflexivity|].
    apply (respects_attempt steps0 fin i s mid _ Hmid).
    by apply (selected_dependencies_in plan steps0 fin i s).
  - intros w plan i s mid r w' plan' Hnext Hmid _ _ IH steps0 fin Hsame Hdone.
    pose proof (selected_dependencies_in plan steps0 fin i s Hnext Hsame Hdone)
      as Hdeps.
    destruct (respects_attempt steps0 fin i s mid completed Hmid Hdeps)
      as (Hone & Hfold).
    pose proof (getNext_lookup _ _ _ Hnext) as Hi.
    destruct (IH steps0 (i :: fin)) as (new & Htrace & Hrest).
    + rewrite plan_after_steps.
      apply Forall2_lookup. intros j. destruct (decide (j = i)) as [->|Hne].
      * rewrite list_lookup_insert_eq; [|by apply lookup_lt_Some in Hi].
        destruct (steps0 !! i) as [s0|] eqn:Hi0.
        -- constructor.
           destruct (Forall2_lookup_lr _ _ _ _ _ _ Hsame Hi0 Hi) as (-> & ->).
           done.
        -- apply Forall2_length in Hsame. apply lookup_ge_None in Hi0.
           apply lookup_lt_Some in Hi. lia.
      * rewrite list_lookup_insert_ne by done.
        by apply (proj1 (Forall2_lookup _ _ _) Hsame).
    + intros j sj Hj Hst. rewrite plan_after_steps in Hj.
      destruct (decide (j = i)) as [->|Hne]; [by left|].
      rewrite list_lookup_insert_ne in Hj by done. right. by apply (Hdone j sj).
    + eexists. split.
      { rewrite Htrace. unfold world_after. simpl. by rewrite <- app_assoc. }
      rewrite respects_app, Hone, Hfold. done.
Qed.

Lemma completed_from_spec (steps : list OperationStep) (i j : nat) :
  j ∈ completed_from i steps <->
  exists k s, j = (i + k)%nat /\ steps !! k = Some s /\ Step.status s = completed.
Proof.
  revert i. induction steps as [|s steps IH]; intros i; simpl.
  - split; [by intros ?%elem_of_nil|]. by intros (k & ? & _ & ? & _).
  - case_bool_decide as Hst.
    + rewrite elem_of_cons, IH. split.
      * intros [->|(k & sk & -> & Hk & Hc)].
        -- exists 0%nat, s. split_and!; [lia|done..].
        -- exists (S k), sk. split_and!; [lia|done..].
      * intros ([|k] & sk & -> & Hk & Hc); [left; lia|].
        right. exists k, sk. split_and!; [lia|done..].
    + rewrite IH. split.
      * intros (k & sk & -> & Hk & Hc). exists (S k), sk. split_and!; [lia|done..].
      * intros ([|k] & sk & -> & Hk & Hc); simpl in Hk.
        -- congruence.
        -- exists k, sk. split_and!; [lia|done..].
Qed.

(** X9.  No step runs before the steps it depends on: replaying the events
    of a drive from the steps that were completed when it began, every
    event of a step (its status writes and its tool invocation) comes when
    each id in the step's [dependsOn] refers to a step that is completed. *)
Theorem dependencies_complete_first invoke (w w' : World)
    (plan plan' : OperationPlan) :
  executeOperationPlan invoke w plan = Some (w', plan') ->
  exists new : list (nat * Event),
    trace w' = (trace w ++ new)%list /\
    respects_dependencies (Plan.steps plan)
      (completed_from 0 (Plan.steps plan)) new = true.
Proof.
  intros Hrun.
  apply (drive_loop_dependencies _ _ _ _ _ _ Hrun).
  - simpl. apply Forall2_lookup. intros j.
    destruct (Plan.steps plan !! j); by constructor.
  - simpl. intros j sj Hj Hst. apply completed_from_spec. by exists j, sj.
Qed.

(** ** Steps that wait for ever *)

Lemma blocked_not_selected (plan : OperationPlan) (B : list nat) (i : nat)
    (s : OperationStep) :
  blocked (Plan.steps plan) B ->
  getNextExecutableStep plan = Some (i, s) -> i ∉ B.
Proof.
  intros Hb Hnext Hin.
  destruct (Hb i Hin) as (s' & deps & d & Hi & _ & Hdeps & Hd & Hfirst).
  apply getNext_Some in Hnext as (Hi' & Hrun & _).
  assert (s' = s) as -> by congruence.
  unfold runnable in Hrun. destruct (_ || _); [done|].
  rewrite Hdeps in Hrun. rewrite forallb_forall in Hrun.
  apply list_elem_of_In in Hd. specialize (Hrun d Hd).
  unfold dependency_met in Hrun.
  pose proof (first_with_id_find (Plan.steps plan) d) as Hfind.
  destruct (first_with_id (Plan.steps plan) d) as [j|].
  - destruct Hfind as (dep & Hj & Hfind). rewrite Hfind in Hrun.
    apply bool_decide_eq_true in Hrun.
    destruct (Hb j Hfirst) as (sj & _ & _ & Hj' & Hnot & _).
    congruence.
  - by rewrite Hfind in Hrun.
Qed.

Lemma blocked_insert (steps : list OperationStep) (B : list nat) (i : nat)
    (s s' : OperationStep) :
  blocked steps B -> steps !! i = Some s -> i ∉ B -> Step.id s' = Step.id s ->
  blocked (<[i:=s']> steps) B.
Proof.
  intros Hb Hi Hnot Hid j Hj.
  destruct (Hb j Hj) as (sj & deps & d & Hsj & Hst & Hdeps & Hd & Hfirst).
  exists sj, deps, d. split_and!; [|done..|].
  - rewrite list_lookup_insert_ne; [done|]. by intros ->.
  - rewrite (first_with_id_same _ steps); [done|].
    apply Forall2_lookup. intros k. destruct (decide (k = i)) as [->|Hne].
    + rewrite list_lookup_insert_eq, Hi; [|by apply lookup_lt_Some in Hi].
      by constructor.
    + rewrite list_lookup_insert_ne by done.
      destruct (steps !! k); by constructor.
Qed.

Lemma drive_loop_blocked invoke (fuel : nat) (w w' : World)
    (plan plan' : OperationPlan) :
  drive_loop invoke fuel w plan = Some (w', plan') ->
  forall B, blocked (Plan.steps plan) B ->
    blocked (Plan.steps plan') B /\
    (forall i, i ∈ B -> Plan.steps plan' !! i = Plan.steps plan !! i) /\
    exists new : list (nat * Event),
      trace w' = (trace w ++ new)%list /\ forall i e, i ∈ B -> (i, e) ∉ new.
Proof.
  revert fuel w plan w' plan'.
  apply (drive_loop_induction invoke (fun w plan w' plan' =>
    forall B, blocked (Plan.steps plan) B ->
      blocked (Plan.steps plan') B /\
      (forall i, i ∈ B -> Plan.steps plan' !! i = Plan.steps plan !! i) /\
      exists new : list (nat * Event),
        trace w' = (trace w ++ new)%list /\ forall i e, i ∈ B -> (i, e) ∉ new)).
  - intros w plan _ B Hb. rewrite settle_steps. split_and!; [done..|].
    exists []. split; [by rewrite app_nil_r|]. intros i e _. apply not_elem_of_nil.
  - intros w plan i0 s0 mid m Hnext Hmid _ B Hb.
    pose proof (blocked_not_selected plan B i0 s0 Hb Hnext) as Hnot.
    pose proof (getNext_lookup _ _ _ Hnext) as Hi0.
    rewrite plan_after_steps. split_and!.
    + apply (blocked_insert _ _ _ s0); [done..|].
      by destruct (step_after_sched_eq (Throw m) s0) as (-> & _).
    + intros i Hi. rewrite list_lookup_insert_ne; [done|]. by intros ->.
    + eexists. split; [reflexivity|]. intros i e Hi.
      apply (only_step_other i0 i); [by apply (only_step_one i0 s0)|].
      by intros ->.
  - intros w plan i0 s0 mid r w' plan' Hnext Hmid _ _ IH B Hb.
    pose proof (blocked_not_selected plan B i0 s0 Hb Hnext) as Hnot.
    pose proof (getNext_lookup _ _ _ Hnext) as Hi0.
    destruct (IH B) as (Hb' & Hsame & new & Htrace & Hnew).
    { rewrite plan_after_steps. apply (blocked_insert _ _ _ s0); [done..|].
      by destruct (step_after_sched_eq (Normal r) s0) as (-> & _). }
    split_and!; [done| |].
    + intros i Hi. rewrite Hsame by done. rewrite plan_after_steps.
      rewrite list_lookup_insert_ne; [done|]. by intros ->.
    + eexists. split.
      { rewrite Htrace. unfold world_after. simpl. by rewrite <- app_assoc. }
      intros i e Hi Hin. apply elem_of_app in Hin as [Hin|Hin].
      * revert Hin. apply (only_step_other i0 i); [by apply (only_step_one i0 s0)|].
        by intros ->.
      * by apply (Hnew i e).
Qed.

(** A drive reports a plan completed only when every step is. *)
Lemma drive_loop_completed invoke (fuel : nat) (w w' : World)
    (plan plan' : OperationPlan) :
  drive_loop invoke fuel w plan = Some (w', plan') ->
  Plan.status plan <> plan_completed ->
  Plan.status plan' = plan_completed ->
  Forall (fun s => Step.status s = completed) (Plan.steps plan').
Proof.
  revert fuel w plan w' plan'.
  apply (drive_loop_induction invoke (fun w plan w' plan' =>
    Plan.status plan <> plan_completed ->
    Plan.status plan' = plan_completed ->
    Forall (fun s => Step.status s = completed) (Plan.steps plan'))).
  - intros w plan _ Hne Hst. unfold settle in *.
    destruct (isOperationComplete plan) eqn:Hall.
    + by apply isOperationComplete_spec.
    + destruct (hasFailedSteps plan); simpl in Hst; [discriminate|done].
  - intros w plan i s mid m _ _ _ Hne Hst.
    rewrite plan_after_throw_status in Hst.
    destruct (bool_decide _); [discriminate|done].
  - intros w plan i s mid r w' plan' _ _ _ _ IH Hne Hst. by apply IH.
Qed.

(** X10.  Steps that wait for one another, for themselves or for an id no
    step carries are never run: however often the plan is driven and
    whatever the tools answer, each such step keeps all its fields and no
    event concerns it, and no drive reports the plan completed. *)
Theorem blocked_steps_never_run invoke (k : nat) (w w' : World)
    (plan plan' : OperationPlan) (B : list nat) :
  blocked (Plan.steps plan) B ->
  drive_n invoke k w plan = Some (w', plan') ->
  (forall i, i ∈ B ->
     Plan.steps plan' !! i = Plan.steps plan !! i /\
     forall e, (i, e) ∈ trace w' -> (i, e) ∈ trace w) /\
  (B <> [] -> (1 <= k)%nat -> Plan.status plan' <> plan_completed).
Proof.
  revert w plan. induction k as [|k IH]; intros w plan Hb Hrun.
  - simpl in Hrun. injection Hrun as <- <-. split; [|lia]. by intros i _.
  - simpl in Hrun.
    destruct (executeOperationPlan invoke w plan) as [[w1 plan1]|] eqn:Hone;
      [|discriminate].
    pose proof Hone as Hone'.
    apply drive_loop_blocked with (B := B) in Hone as (Hb1 & Hsame & new & Htrace & Hnew);
      [|done].
    destruct (IH w1 plan1 Hb1 Hrun) as (Hkeep & Hstatus). split.
    + intros i Hi. destruct (Hkeep i Hi) as (Hsteps & Hev). split.
      * rewrite Hsteps. by apply Hsame.
      * intros e He. apply Hev in He. rewrite Htrace in He.
        apply elem_of_app in He as [He|He]; [done|]. by destruct (Hnew i e Hi).
    + intros Hne _ Hst. destruct k as [|k].
      * simpl in Hrun. injection Hrun as <- <-.
        apply drive_loop_completed in Hone'; [|done|done].
        destruct B as [|i B]; [done|].
        destruct (Hb1 i) as (s & _ & _ & Hi & Hnot & _); [by left|].
        rewrite Forall_forall in Hone'. apply Hnot, Hone'.
        by eapply list_elem_of_lookup_2.
      * apply Hstatus; [done|lia|done].
Qed.

(** ** The Shopify tools report failures as values *)

Lemma callShopifyGraphQL_cases (env : Env) (fetch : Request -> Completion Json)
    (query variables : option Json) :
  (env_set (SHOPIFY_STORE_DOMAIN env) && env_set (SHOPIFY_ADMIN_TOKEN env) = false /\
   callShopifyGraphQL env fetch query variables = (None, Throw missing_credentials)) \/
  (env_set (SHOPIFY_STORE_DOMAIN env) && env_set (SHOPIFY_ADMIN_TOKEN env) = true /\
   exists request,
     fst (callShopifyGraphQL env fetch query variables) = Some request /\
     match fetch request with
     | Throw m => snd (callShopifyGraphQL env fetch query variables) = Throw m
     | Normal result =>
         match result with
         | JObject _ | JArray _ =>
             exists graphql,
               snd (callShopifyGraphQL env fetch query variables)
               = Normal (result, JObject graphql)
         | _ => exists m, snd (callShopifyGraphQL env fetch query variables) = Throw m
         end
     end).
Proof.
  unfold callShopifyGraphQL.
  destruct (SHOPIFY_STORE_DOMAIN env) as [shopDomain|]; [|by left].
  destruct (SHOPIFY_ADMIN_TOKEN env) as [shopToken|];
    [|left; split; [apply andb_false_r|done]].
  destruct (env_set (Some shopDomain) && env_set (Some shopToken)) eqn:Hset;
    [|by left].
  right. split; [done|]. eexists. split.
  { destruct (fetch _) as [[]|]; reflexivity. }
  destruct (fetch _) as [[]|]; simpl; by eauto.
Qed.

Lemma graphql_tool_object (env : Env) (fetch : Request -> Completion Json)
    (property fallback : string) (args : Json) :
  args <> JNull ->
  exists r, snd (graphql_tool env fetch property fallback args) = Normal (JObject r).
Proof.
  intros Hargs. unfold graphql_tool.
  destruct (callShopifyGraphQL _ _ _ _) as [request [[result graphql]|m]].
  - destruct (first_error result); destruct args; try done; by eexists.
  - destruct args; try done; by eexists.
Qed.

Lemma introspectShopifySchema_object (env : Env) (fetch : Request -> Completion Json)
    (options : Json) :
  exists r, snd (introspectShopifySchema env fetch options) = Normal (JObject r).
Proof.
  unfold introspectShopifySchema.
  destruct (introspect env fetch options) as [request [r|m]] eqn:Hin;
    [|by eexists].
  simpl. revert Hin. unfold introspect.
  repeat match goal with
         | |- (let (_, _) := ?x in _) = _ -> _ => destruct x
         | |- match ?x with _ => _ end = _ -> _ => destruct x
         | |- (if ?x then _ else _) = _ -> _ => destruct x
         end;
    intros [= _ <-]; by eexists.
Qed.

(** X11.  The Shopify tools report failures as values.  For whatever
    arguments, environment and network, [introspectShopifySchema] returns
    an object; [executeShopifyQuery] and [executeShopifyMutation] return an
    object for all arguments but [null], which they cannot destructure:
    then they throw before any request is sent. *)
Theorem tools_return_objects (env : Env) (fetch : Request -> Completion Json)
    (args : Json) :
  (exists r, snd (introspectShopifySchema env fetch args) = Normal (JObject r)) /\
  (args <> JNull ->
   (exists r, snd (executeShopifyQuery env fetch args) = Normal (JObject r)) /\
   (exists r, snd (executeShopifyMutation env fetch args) = Normal (JObject r))) /\
  (args = JNull ->
   (exists m, executeShopifyQuery env fetch args = (None, Throw m)) /\
   (exists m, executeShopifyMutation env fetch args = (None, Throw m))).
Proof.
  split_and!.
  - apply introspectShopifySchema_object.
  - intros Hargs. split; by apply graphql_tool_object.
  - intros ->. split; by eexists.
Qed.

(** ** Without credentials *)

Lemma callShopifyGraphQL_unset (env : Env) (fetch : Request -> Completion Json)
    (query variables : option Json) :
  env_set (SHOPIFY_STORE_DOMAIN env) && env_set (SHOPIFY_ADMIN_TOKEN env) = false ->
  callShopifyGraphQL env fetch query variables = (None, Throw missing_credentials).
Proof.
  intros Hunset.
  destruct (callShopifyGraphQL_cases env fetch query variables)
    as [(_ & H)|(Hset & _)]; [done|congruence].
Qed.

Lemma graphql_tool_unset (env : Env) (fetch : Request -> Completion Json)
    (property fallback : string) (args : Json) :
  env_set (SHOPIFY_STORE_DOMAIN env) && env_set (SHOPIFY_ADMIN_TOKEN env) = false ->
  args <> JNull ->
  graphql_tool env fetch property fallback args
  = (None, Normal (JObject [("error", JString missing_credentials)])).
Proof.
  intros Hunset Hargs. unfold graphql_tool.
  rewrite callShopifyGraphQL_unset by done. by destruct args.
Qed.

(** X12.  When the store domain or the access token is missing from the
    environment, no tool sends a request: a query or a mutation, and a
    schema request that names a type, return the error that the
    credentials are missing, so that every invocation of [execute_query]
    and [execute_mutation] is a failure for [executeStep]. *)
Theorem without_credentials (env : Env) (args : Json) :
  env_set (SHOPIFY_STORE_DOMAIN env) && env_set (SHOPIFY_ADMIN_TOKEN env) = false ->
  (forall fetch,
      args <> JNull ->
      executeShopifyQuery env fetch args
        = (None, Normal (JObject [("error", JString missing_credentials)])) /\
      executeShopifyMutation env fetch args
        = (None, Normal (JObject [("error", JString missing_credentials)])) /\
      (truthy_opt (js_index args "type") = true ->
       introspectShopifySchema env fetch args
         = (None, Normal (JObject [("error", JString missing_credentials)])))) /\
  (forall net n,
      tool_fails (shopify_tools env net n "execute_query" args) /\
      tool_fails (shopify_tools env net n "execute_mutation" args)).
Proof.
  intros Hunset. split.
  - intros fetch Hargs. split_and!; [by apply graphql_tool_unset..|].
    intros Htype. unfold introspectShopifySchema, introspect.
    assert (js_prop (Some args) "type" = Normal (js_index args "type")) as ->
      by by destruct args.
    rewrite Htype. by rewrite callShopifyGraphQL_unset.
  - intros net n. unfold shopify_tools. simpl.
    unfold executeShopifyQuery, executeShopifyMutation.
    destruct args; [by split|rewrite !graphql_tool_unset by done; by split..].
Qed.

(** ** What counts as an error of the API *)

Lemma graphql_tool_sent (env : Env) (fetch : Request -> Completion Json)
    (property fallback : string) (args : Json) (request : Request) :
  fst (graphql_tool env fetch property fallback args) = Some request ->
  args <> JNull /\
  fst (callShopifyGraphQL env fetch (js_index args property)
         (Some match js_index args "variables" with
               | Some v => v
               | None => JObject []
               end)) = Some request.
Proof.
  unfold graphql_tool. destruct (callShopifyGraphQL _ _ _ _) as [req [[result graphql]|m]].
  - destruct (first_error result); destruct args; try done.
  - destruct args; try done.
Qed.

Lemma graphql_tool_answered (env : Env) (fetch : Request -> Completion Json)
    (property fallback : string) (args : Json) (request : Request)
    (result : list (string * Json)) :
  fst (graphql_tool env fetch property fallback args) = Some request ->
  fetch request = Normal (JObject result) ->
  exists graphql,
    snd (graphql_tool env fetch property fallback args)
    = Normal
        match first_error (JObject result) with
        | Some e =>
            object_literal
              [("error", Some (js_or (message_of e)
                                     match e with
                                     | JString _ => e
                                     | _ => JString "Unknown error"
                                     end));
               ("_graphql", Some (JObject graphql))]
        | None =>
            object_literal [("data", obj_get result "data");
                            ("_graphql", Some (JObject graphql))]
        end.
Proof.
  intros Hsent Hfetch.
  apply graphql_tool_sent in Hsent as (Hargs & Hsent).
  unfold graphql_tool.
  destruct (callShopifyGraphQL_cases env fetch (js_index args property)
              (Some match js_index args "variables" with
                    | Some v => v
                    | None => JObject []
                    end)) as [(_ & H)|(_ & request' & Hreq & Hres)].
  { rewrite H in Hsent. discriminate Hsent. }
  assert (request' = request) as -> by congruence.
  rewrite Hfetch in Hres. destruct Hres as (graphql & Hres).
  destruct (callShopifyGraphQL _ _ _ _) as [req c]. simpl in Hres. subst c.
  exists graphql. destruct args; try done; by destruct (first_error _).
Qed.

(** X13.  An answer with a non-empty [errors] array whose first entry has
    a non-empty [message] makes a query or a mutation return that message
    as its [error], next to the [_graphql] record; [executeStep] then
    throws an error with that message. *)
Theorem graphql_errors_reported (env : Env) (fetch : Request -> Completion Json)
    (property fallback : string) (args : Json) (request : Request)
    (result : list (string * Json)) (e : Json) (rest : list Json) (m : string) :
  fst (graphql_tool env fetch property fallback args) = Some request ->
  fetch request = Normal (JObject result) ->
  obj_get result "errors" = Some (JArray (e :: rest)) ->
  message_of e = Some (JString m) -> m <> EmptyString ->
  exists graphql,
    snd (graphql_tool env fetch property fallback args)
      = Normal (JObject [("error", JString m); ("_graphql", JObject graphql)]) /\
    check_result (JObject [("error", JString m); ("_graphql", JObject graphql)])
      = Throw m.
Proof.
  intros Hsent Hfetch Herrors Hmsg Hm.
  destruct (graphql_tool_answered _ _ _ _ _ _ _ Hsent Hfetch) as (graphql & ->).
  exists graphql. unfold first_error. simpl. rewrite Herrors, Hmsg. simpl.
  assert (String.eqb m EmptyString = false) as Hne by by apply String.eqb_neq.
  rewrite Hne. simpl. split; [done|].
  unfold check_result. simpl. by rewrite Hne.
Qed.

(** X14.  Only a non-empty array counts as [errors].  Whenever the answer
    is an object whose [errors] is absent, empty or not an array (Shopify
    answers a wrong token with a string there), a query or a mutation
    returns the answer's [data], possibly none, with no [error]: for
    [executeStep] the invocation has succeeded. *)
Theorem errors_must_be_an_array (env : Env) (fetch : Request -> Completion Json)
    (property fallback : string) (args : Json) (request : Request)
    (result : list (string * Json)) :
  fst (graphql_tool env fetch property fallback args) = Some request ->
  fetch request = Normal (JObject result) ->
  first_error (JObject result) = None ->
  exists graphql,
    snd (graphql_tool env fetch property fallback args)
      = Normal (object_literal [("data", obj_get result "data");
                                ("_graphql", Some (JObject graphql))]) /\
    tool_succeeds (snd (graphql_tool env fetch property fallback args)).
Proof.
  intros Hsent Hfetch Hnone.
  destruct (graphql_tool_answered _ _ _ _ _ _ _ Hsent Hfetch) as (graphql & Hres).
  rewrite Hnone in Hres. exists graphql. split; [done|].
  rewrite Hres. unfold object_literal. simpl.
  by destruct (obj_get result "data").
Qed.

(** ** Schema requests *)

(** X15.  A schema request that names no type is answered without the
    network and without credentials: whatever the environment,
    [introspectShopifySchema] returns the list of the eight common types
    and the two examples, which [executeStep] accepts. *)
Theorem introspect_without_type (env : Env) (fetch : Request -> Completion Json)
    (options : Json) :
  options <> JNull ->
  truthy_opt (js_index options "type") = false ->
  introspectShopifySchema env fetch options = (None, Normal common_types_answer) /\
  tool_succeeds (Normal common_types_answer) /\
  exists types,
    js_index common_types_answer "data" = Some (JObject types) /\
    exists entries,
      obj_get types "commonTypes" = Some (JArray entries) /\
      omap (fun entry => js_index entry "name") entries
      = map JString common_type_names.
Proof.
  intros Hopt Htype. split_and!.
  - unfold introspectShopifySchema, introspect.
    assert (js_prop (Some options) "type" = Normal (js_index options "type")) as ->
      by by destruct options.
    by rewrite Htype.
  - done.
  - eexists. split; [reflexivity|]. eexists. split; reflexivity.
Qed.

Lemma find_field_find (fields : list Json) (name : string) :
  Forall (fun f => f <> JNull) fields ->
  find_field fields (JString name)
  = Normal (List.find (fun f => strict_equal (js_index f "name") (JString name)) fields).
Proof.
  induction fields as [|f fields IH]; [done|]. intros H.
  apply Forall_cons in H as (Hf & H). cbn [find_field List.find].
  destruct (strict_equal (js_index f "name") (JString name)).
  - by destruct f.
  - rewrite <- IH by done. by destruct f.
Qed.

Lemma strict_equal_named (f : Json) (name : string) :
  strict_equal (js_index f "name") (JString name) = true -> truthy f = true.
Proof.
  by destruct f.
Qed.

Lemma introspect_request (env : Env) (fetch : Request -> Completion Json)
    (options type : Json) :
  js_index options "type" = Some type -> truthy type = true ->
  fst (introspectShopifySchema env fetch options)
  = fst (callShopifyGraphQL env fetch
           (Some (JString (type_query (js_String type)))) None).
Proof.
  intros Htype Htruthy.
  assert (Hopt : js_prop (Some options) "type" = Normal (js_index options "type")).
  { destruct options; try done. }
  unfold introspectShopifySchema, introspect. rewrite Hopt, Htype. simpl.
  rewrite Htruthy.
  destruct (callShopifyGraphQL _ _ _ _) as [req [[r g]|m]]; [|done].
  repeat case_match; by simplify_eq/=.
Qed.

(** X16.  A schema request for a field of a type returns the first entry
    of the type's [fields] whose [name] is the requested one, and the error
    that the field is not found on the type when there is none, in
    particular when the type has no fields. *)
Theorem introspect_field_lookup (env : Env) (fetch : Request -> Completion Json)
    (options : Json) (typeName fieldName : string) (request : Request)
    (result data info : list (string * Json)) (fields : list Json) :
  js_index options "type" = Some (JString typeName) -> typeName <> EmptyString ->
  js_index options "field" = Some (JString fieldName) -> fieldName <> EmptyString ->
  fst (introspectShopifySchema env fetch options) = Some request ->
  fetch request = Normal (JObject result) ->
  first_error (JObject result) = None ->
  obj_get result "data" = Some (JObject data) ->
  obj_get data "__type" = Some (JObject info) ->
  obj_get info "fields" = Some (JArray fields) ->
  Forall (fun f => f <> JNull) fields ->
  snd (introspectShopifySchema env fetch options)
  = Normal
      match List.find (fun f => strict_equal (js_index f "name") (JString fieldName))
                      fields with
      | Some f => JObject [("data", JObject [("field", f)])]
      | None => JObject [("error", JString (field_not_found fieldName typeName))]
      end.
Proof.
  intros Htype Htn Hfield Hfn Hsent Hfetch Hnone Hdata Hinfo Hfields Hall.
  assert (Hopt : js_prop (Some options) "type" = Normal (js_index options "type")).
  { destruct options; try done. }
  assert (Ht : String.eqb typeName EmptyString = false) by by apply String.eqb_neq.
  assert (Hf : String.eqb fieldName EmptyString = false) by by apply String.eqb_neq.
  rewrite (introspect_request env fetch options (JString typeName)) in Hsent;
    [|done|by simpl; rewrite Ht].
  simpl in Hsent.
  unfold introspectShopifySchema, introspect.
  rewrite Hopt, Htype. simpl. rewrite Ht. simpl.
  destruct (callShopifyGraphQL_cases env fetch
              (Some (JString (type_query typeName))) None)
    as [(_ & Hno)|(_ & request' & Hreq & Hres)].
  { rewrite Hno in Hsent. discriminate Hsent. }
  assert (request' = request) as -> by congruence.
  destruct (callShopifyGraphQL _ _ _ _) as [req c]. simpl in Hreq, Hres. subst req.
  rewrite Hfetch in Hres. destruct Hres as (graphql & ->).
  rewrite Hnone. simpl. rewrite Hdata. simpl. rewrite Hinfo. simpl.
  rewrite Hfield. simpl. rewrite Hf, Hfields. simpl.
  rewrite find_field_find by done.
  destruct (List.find _ fields) as [f|] eqn:Hfind; simpl; [|done].
  apply List.find_some in Hfind as (_ & Hname).
  by rewrite (strict_equal_named f fieldName Hname).
Qed.

(** ** When the network fails, and types that do not exist *)

Lemma callShopifyGraphQL_rejected (env : Env) (fetch : Request -> Completion Json)
    (query variables : option Json) (request : Request) (m : string) :
  fst (callShopifyGraphQL env fetch query variables) = Some request ->
  fetch request = Throw m ->
  callShopifyGraphQL env fetch query variables = (Some request, Throw m).
Proof.
  intros Hsent Hfetch.
  destruct (callShopifyGraphQL_cases env fetch query variables)
    as [(_ & H)|(_ & request' & Hreq & Hres)].
  { rewrite H in Hsent. discriminate Hsent. }
  assert (request' = request) as -> by congruence.
  rewrite Hfetch in Hres.
  destruct (callShopifyGraphQL _ _ _ _) as [req c]. simpl in *. congruence.
Qed.

(** X21.  A request that fails on the network is an error value, not an
    exception: when [fetch] or [response.json()] rejects with a message, a
    query or a mutation returns that message as [error], or its own
    fallback text when the message is empty, which [executeStep] counts as
    a failure; a schema request returns the message as it is, without a
    fallback, which [executeStep] counts as a failure when the message is
    not empty and accepts as a result when it is empty. *)
Theorem network_failure_reported (env : Env) (fetch : Request -> Completion Json)
    (m : string) :
  (forall property fallback args request,
      fst (graphql_tool env fetch property fallback args) = Some request ->
      fetch request = Throw m ->
      snd (graphql_tool env fetch property fallback args)
        = Normal (JObject [("error", JString (if String.eqb m EmptyString
                                              then fallback else m))]) /\
      (fallback <> EmptyString ->
       tool_fails (snd (graphql_tool env fetch property fallback args)))) /\
  (forall options request,
      fst (introspectShopifySchema env fetch options) = Some request ->
      fetch request = Throw m ->
      snd (introspectShopifySchema env fetch options)
        = Normal (JObject [("error", JString m)]) /\
      (m <> EmptyString ->
       tool_fails (snd (introspectShopifySchema env fetch options))) /\
      (m = EmptyString ->
       tool_succeeds (snd (introspectShopifySchema env fetch options)))).
Proof.
  split.
  - intros property fallback args request Hsent Hfetch.
    apply graphql_tool_sent in Hsent as (Hargs & Hsent).
    assert (Hres : snd (graphql_tool env fetch property fallback args)
                   = Normal (JObject [("error", JString (if String.eqb m EmptyString
                                                         then fallback else m))])).
    { unfold graphql_tool.
      rewrite (callShopifyGraphQL_rejected _ _ _ _ _ _ Hsent Hfetch).
      by destruct args. }
    split; [done|]. intros Hfb. rewrite Hres. simpl.
    destruct (String.eqb_spec m EmptyString) as [->|Hm]; simpl.
    + destruct (String.eqb_spec fallback EmptyString); [done|done].
    + by destruct (String.eqb_spec m EmptyString).
  - intros options request Hsent Hfetch.
    assert (Hres : snd (introspectShopifySchema env fetch options)
                   = Normal (JObject [("error", JString m)])).
    { unfold introspectShopifySchema, introspect in *.
      destruct (js_prop (Some options) "type") as [type|]; [|done].
      destruct (truthy_opt type); [|done].
      set (call := callShopifyGraphQL env fetch _ None) in *.
      assert (Hcall : fst call = Some request).
      { destruct call as [req [[r g]|m']]; [|done]. revert Hsent.
        repeat case_match; by simplify_eq/=. }
      subst call. by rewrite (callShopifyGraphQL_rejected _ _ _ _ _ _ Hcall Hfetch). }
    rewrite Hres. split; [done|]. simpl. split.
    + intros Hm. by destruct (String.eqb_spec m EmptyString).
    + intros ->. done.
Qed.

(** X22.  A schema request for a type the schema does not have is an error
    that names the type: when the answer carries no [data], a [null] one,
    or no truthy [__type] in it, [introspectShopifySchema] returns that the
    type was not found. *)
Theorem introspect_unknown_type (env : Env) (fetch : Request -> Completion Json)
    (options : Json) (typeName : string) (request : Request)
    (result : list (string * Json)) :
  js_index options "type" = Some (JString typeName) -> typeName <> EmptyString ->
  fst (introspectShopifySchema env fetch options) = Some request ->
  fetch request = Normal (JObject result) ->
  first_error (JObject result) = None ->
  match obj_get result "data" with
  | Some JNull | None => True
  | Some data => truthy_opt (js_index data "__type") = false
  end ->
  snd (introspectShopifySchema env fetch options)
  = Normal (JObject [("error", JString (type_not_found typeName))]).
Proof.
  intros Htype Htn Hsent Hfetch Hnone Hdata.
  assert (Hopt : js_prop (Some options) "type" = Normal (js_index options "type")).
  { destruct options; try done. }
  assert (Ht : String.eqb typeName EmptyString = false) by by apply String.eqb_neq.
  rewrite (introspect_request env fetch options (JString typeName)) in Hsent;
    [|done|by simpl; rewrite Ht].
  simpl in Hsent.
  unfold introspectShopifySchema, introspect.
  rewrite Hopt, Htype. simpl. rewrite Ht. simpl.
  destruct (callShopifyGraphQL_cases env fetch
              (Some (JString (type_query typeName))) None)
    as [(_ & Hno)|(_ & request' & Hreq & Hres)].
  { rewrite Hno in Hsent. discriminate Hsent. }
  assert (request' = request) as -> by congruence.
  destruct (callShopifyGraphQL _ _ _ _) as [req c]. simpl in Hreq, Hres. subst req.
  rewrite Hfetch in Hres. destruct Hres as (graphql & ->).
  rewrite Hnone. simpl.
  destruct (obj_get result "data") as [data|]; [|done].
  destruct data; try done;
    destruct (js_index _ "__type") as [info|]; try done;
    simpl in Hdata; by rewrite Hdata.
Qed.

(** ** What a request carries *)

Lemma obj_get_elem_of (kvs : list (string * Json)) (k : string) (v : Json) :
  obj_get kvs k = Some v -> (k, v) ∈ kvs.
Proof.
  induction kvs as [|[k' v'] kvs IH]; [done|]. simpl.
  destruct (obj_get kvs k) as [x|].
  - intros [= ->]. right. by apply IH.
  - destruct (String.eqb_spec k' k) as [->|]; [|done]. intros [= ->]. by left.
Qed.

Lemma js_index_well_formed (v : Json) (k : string) (x : Json) :
  well_formed v -> js_index v k = Some x -> well_formed x.
Proof.
  destruct v as [| | |str|l|kvs]; try done.
  - simpl. destruct (String.eqb k "length"); [by intros _ [= <-]|].
    destruct (index_of_key k); [|done].
    destruct (string_nth str n); [|done]. by intros _ [= <-].
  - intros Hwf. apply well_formed_array in Hwf. simpl.
    destruct (String.eqb k "length"); [by intros [= <-]|].
    destruct (index_of_key k) as [n|]; [|done]. intros Hn.
    rewrite Forall_forall in Hwf. apply Hwf. by eapply list_elem_of_lookup_2.
  - intros Hwf. apply well_formed_object in Hwf as (_ & Hwf). simpl. intros Hk.
    apply obj_get_elem_of in Hk. rewrite Forall_forall in Hwf.
    by apply (Hwf (k, x)).
Qed.

(** X23.  The request of a query or a mutation goes to the Admin API of
    the configured store with the access token in its header, and its body
    is the JSON text of an object whose [query] is the document given and
    whose [variables] are the variables given, or the empty object: parsing
    the body gives exactly these back. *)
Theorem request_carries_arguments (env : Env) (fetch : Request -> Completion Json)
    (property fallback : string) (args : Json) (request : Request) :
  fst (graphql_tool env fetch property fallback args) = Some request ->
  well_formed args ->
  exists shopDomain shopToken,
    SHOPIFY_STORE_DOMAIN env = Some shopDomain /\
    SHOPIFY_ADMIN_TOKEN env = Some shopToken /\
    req_url request = "https://" +:+ shopDomain +:+ "/admin/api/2025-01/graphql.json" /\
    req_method request = "POST" /\
    req_headers request = [("Content-Type", "application/json");
                           ("X-Shopify-Access-Token", shopToken)] /\
    JSON_parse (req_body request)
    = Normal (object_literal
                [("query", js_index args property);
                 ("variables", Some match js_index args "variables" with
                                    | Some v => v
                                    | None => JObject []
                                    end)]).
Proof.
  intros Hsent Hwf. apply graphql_tool_sent in Hsent as (_ & Hsent).
  unfold callShopifyGraphQL in Hsent.
  destruct (SHOPIFY_STORE_DOMAIN env) as [shopDomain|]; [|done].
  destruct (SHOPIFY_ADMIN_TOKEN env) as [shopToken|]; [|done].
  destruct (env_set (Some shopDomain) && env_set (Some shopToken)); [|done].
  exists shopDomain, shopToken.
  assert (Hreq : Some request
                 = Some {| req_url := "https://" +:+ shopDomain
                                        +:+ "/admin/api/2025-01/graphql.json";
                           req_method := "POST";
                           req_headers := [("Content-Type", "application/json");
                                           ("X-Shopify-Access-Token", shopToken)];
                           req_body :=
                             JSON_stringify
                               (object_literal
                                  [("query", js_index args property);
                                   ("variables",
                                    Some match js_index args "variables" with
                                         | Some v => v
                                         | None => JObject []
                                         end)]) |}).
  { rewrite <- Hsent. destruct (fetch _) as [[]|]; reflexivity. }
  injection Hreq as ->.
  cbv beta iota delta [req_url req_method req_headers req_body].
  split_and!; [done..|].
  assert (Hvars : well_formed match js_index args "variables" with
                              | Some v => v
                              | None => JObject []
                              end).
  { destruct (js_index args "variables") as [v|] eqn:Hv.
    - by apply (js_index_well_formed args "variables").
    - apply well_formed_object. split; constructor. }
  assert (Hbody : well_formed
                    (object_literal
                       [("query", js_index args property);
                        ("variables", Some match js_index args "variables" with
                                           | Some v => v
                                           | None => JObject []
                                           end)])).
  { unfold object_literal.
    destruct (js_index args property) as [q|] eqn:Hq; simpl.
    - split_and!; try done.
      + apply NoDup_cons. split; [|apply NoDup_singleton].
        intros Hin. apply list_elem_of_singleton in Hin. discriminate Hin.
      + by apply (js_index_well_formed args property).
    - split_and!; try done. apply NoDup_singleton. }
  exact (JSON_parse_stringify _ Hbody).
Qed.

(** ** A store that answers *)

Lemma graphql_tool_request (env : Env) (fetch : Request -> Completion Json)
    (property fallback : string) (args : Json) :
  env_set (SHOPIFY_STORE_DOMAIN env) && env_set (SHOPIFY_ADMIN_TOKEN env) = true ->
  args <> JNull ->
  exists request, fst (graphql_tool env fetch property fallback args) = Some request.
Proof.
  intros Hset Hargs. unfold graphql_tool.
  destruct (callShopifyGraphQL_cases env fetch (js_index args property)
              (Some match js_index args "variables" with
                    | Some v => v
                    | None => JObject []
                    end)) as [(Hunset & _)|(_ & request & Hreq & _)];
    [congruence|].
  exists request.
  destruct (callShopifyGraphQL _ _ _ _) as [req [[result graphql]|m]];
    simpl in Hreq; subst req.
  - destruct (first_error result); by destruct args.
  - by destruct args.
Qed.

(** X24.  With credentials and a store that answers every request with an
    object without an [errors] array, one drive completes a plan of pending
    [execute_query] and [execute_mutation] steps that have no dependencies,
    no placeholders and parameters other than [null]: each step is invoked
    once, in plan order, and ends completed with a result whose [data] is
    the [data] of the answer to its request. *)
Theorem shop_answers_complete (env : Env) (net : nat -> Request -> Completion Json)
    (w : World) (plan : OperationPlan) :
  env_set (SHOPIFY_STORE_DOMAIN env) && env_set (SHOPIFY_ADMIN_TOKEN env) = true ->
  (forall n request,
      exists result, net n request = Normal (JObject result) /\
                     first_error (JObject result) = None) ->
  Forall (fun s => Step.status s = pending /\ Step.dependsOn s = None /\
                   (Step.toolName s = "execute_query" \/
                    Step.toolName s = "execute_mutation") /\
                   well_formed (Step.params s) /\ Step.params s <> JNull /\
                   placeholder_keys 0 (JSON_stringify (Step.params s)) = [])
         (Plan.steps plan) ->
  exists w' plan',
    executeOperationPlan (shopify_tools env net) w plan = Some (w', plan') /\
    Plan.status plan' = plan_completed /\
    calls w' = (calls w + List.length (Plan.steps plan))%nat /\
    trace w' = (trace w ++ happy_trace 0 (Plan.steps plan))%list /\
    forall k s, Plan.steps plan !! k = Some s ->
      exists r request result,
        Plan.steps plan' !! k = Some (after_success r s) /\
        net (calls w + k)%nat request = Normal (JObject result) /\
        js_index r "data" = obj_get result "data" /\
        js_index r "error" = None.
Proof.
  intros Hset Hnet Hsteps.
  assert (Hanswer : forall n s,
             s ∈ Plan.steps plan ->
             exists request result graphql,
               net n request = Normal (JObject result) /\
               shopify_tools env net n (Step.toolName s) (Step.params s)
               = Normal (object_literal [("data", obj_get result "data");
                                         ("_graphql", Some (JObject graphql))])).
  { intros n s Hin. rewrite Forall_forall in Hsteps.
    destruct (Hsteps s Hin) as (_ & _ & Htool & _ & Hnn & _).
    assert (exists property fallback,
               shopify_tools env net n (Step.toolName s) (Step.params s)
               = snd (graphql_tool env (net n) property fallback (Step.params s)))
      as (property & fallback & ->).
    { unfold shopify_tools. destruct Htool as [-> | ->]; simpl; by eexists _, _. }
    destruct (graphql_tool_request env (net n) property fallback (Step.params s)
                Hset Hnn) as (request & Hreq).
    destruct (Hnet n request) as (result & Hres & Hnone).
    destruct (graphql_tool_answered _ _ _ _ _ _ _ Hreq Hres) as (graphql & Hout).
    rewrite Hnone in Hout. by exists request, result, graphql. }
  destruct (drive_loop_happy (shopify_tools env net) (Plan.steps plan) [] w
              (Plan.set_status executing plan)
              (S (List.length (Plan.steps plan))))
    as (plan' & Hrun & Hst & _ & _ & Hnew).
  - done.
  - constructor.
  - eapply Forall_impl; [exact Hsteps|]. simpl.
    intros s (? & ? & Htool & ? & _ & ?). split_and!; try done.
    unfold calls_tool. tauto.
  - intros k s Hk.
    destruct (Hanswer (calls w + k)%nat s) as (request & result & graphql & _ & ->).
    { by eapply list_elem_of_lookup_2. }
    unfold object_literal. simpl. by destruct (obj_get result "data").
  - simpl. lia.
  - eexists _, plan'. split_and!; [exact Hrun|done..|].
    intros k s Hk. destruct (Hnew k s Hk) as (r & Hr & Hat).
    destruct (Hanswer (calls w + k)%nat s) as (request & result & graphql & Hres & Hout).
    { by eapply list_elem_of_lookup_2. }
    exists r, request, result. split_and!; [done|done| |].
    + rewrite Hout in Hr. injection Hr as <-. unfold object_literal. simpl.
      by destruct (obj_get result "data").
    + rewrite Hout in Hr. injection Hr as <-. unfold object_literal. simpl.
      by destruct (obj_get result "data").
Qed.

(** ** Debug information *)

Lemma obj_get_notin (kvs : list (string * Json)) (k : string) :
  k ∉ map fst kvs -> obj_get kvs k = None.
Proof.
  induction kvs as [|[k' v] kvs IH]; [done|]. simpl. intros Hnot.
  apply not_elem_of_cons in Hnot as (Hne & Hnot). rewrite IH by done.
  destruct (String.eqb_spec k' k); [congruence|done].
Qed.

Lemma obj_get_set (kvs : list (string * Json)) (k k' : string) (v : Json) :
  NoDup (map fst kvs) ->
  obj_get (obj_set kvs k v) k' = if String.eqb k k' then Some v else obj_get kvs k'.
Proof.
  induction kvs as [|[k0 v0] kvs IH]; simpl.
  - intros _. rewrite String.eqb_sym. by destruct (String.eqb k' k).
  - intros Hnd. apply NoDup_cons in Hnd as (Hnot & Hnd).
    destruct (String.eqb_spec k0 k) as [->|Hne]; simpl.
    + destruct (String.eqb_spec k k') as [->|Hne'].
      * by rewrite (obj_get_notin kvs k').
      * done.
    + rewrite IH by done.
      destruct (String.eqb_spec k k') as [->|Hne']; [|done].
      by destruct (String.eqb_spec k0 k').
Qed.

(** X17.  [getOperationDebugInfo] lists the steps of the plan in order with
    their id, tool, status, retry count and error.  The result it shows is
    the step's result with the same keys and the same values, except that a
    truthy [_graphql] is replaced by an object holding its [query] and its
    [variables] and nothing else: the raw response is not repeated. *)
Theorem debug_info_drops_response (plan : OperationPlan) (i : nat)
    (step : OperationStep) (r : Json) :
  Plan.steps plan !! i = Some step ->
  Step.result step = Some r -> well_formed r ->
  exists shown r',
    info_steps (getOperationDebugInfo plan) !! i = Some shown /\
    debug_id shown = Step.id step /\ debug_toolName shown = Step.toolName step /\
    debug_status shown = Step.status step /\
    debug_retryCount shown = Step.retryCount step /\
    debug_error shown = Step.error step /\
    debug_result shown = Some r' /\
    js_keys r' = js_keys r /\
    (forall k, k <> "_graphql" -> js_index r' k = js_index r k) /\
    (truthy_opt (js_index r "_graphql") = false -> r' = r) /\
    (forall g, js_index r "_graphql" = Some g -> truthy g = true ->
       exists shown_graphql,
         js_index r' "_graphql" = Some (JObject shown_graphql) /\
         obj_get shown_graphql "query" = js_index g "query" /\
         obj_get shown_graphql "variables" = js_index g "variables" /\
         forall k, k ∈ map fst shown_graphql -> k = "query" \/ k = "variables").
Proof.
  intros Hi Hres Hwf. unfold getOperationDebugInfo. simpl.
  rewrite list_lookup_fmap, Hi. simpl. rewrite Hres.
  destruct (truthy_opt (js_index r "_graphql")) eqn:Htruthy.
  - destruct (js_index r "_graphql") as [g|] eqn:Hg; [|done]. simpl in Htruthy.
    destruct r as [| | | | |kvs]; try done; try (by vm_compute in Hg).
    apply well_formed_object in Hwf as (Hnd & _).
    eexists _, _. unfold strip_response. rewrite Hg, Htruthy.
    split_and!; try reflexivity.
    + simpl. rewrite obj_set_keys. rewrite bool_decide_eq_true_2; [done|].
      simpl in Hg. destruct (decide ("_graphql" ∈ map fst kvs)) as [|Hnot]; [done|].
      by rewrite (obj_get_notin _ _ Hnot) in Hg.
    + intros k Hk. simpl. rewrite obj_get_set by done.
      destruct (String.eqb_spec "_graphql" k); [congruence|done].
    + done.
    + intros g' [= <-] _. eexists. split_and!.
      * simpl. rewrite obj_get_set by done. reflexivity.
      * by destruct (js_index g "query"), (js_index g "variables").
      * by destruct (js_index g "query"), (js_index g "variables").
      * intros k. destruct (js_index g "query"), (js_index g "variables"); simpl;
          rewrite ?elem_of_cons, ?elem_of_nil; tauto.
  - exists {| debug_id := Step.id step; debug_toolName := Step.toolName step;
              debug_status := Step.status step;
              debug_retryCount := Step.retryCount step;
              debug_error := Step.error step;
              debug_result := strip_response (Some r) |}, r.
    assert (strip_response (Some r) = Some r) as ->.
    { unfold strip_response. destruct r; try done;
        destruct (js_index _ "_graphql") as [g|]; try done;
        simpl in Htruthy; by rewrite Htruthy. }
    split_and!; try done.
    intros g Hg Hgt. rewrite Hg in Htruthy. simpl in Htruthy. congruence.
Qed.

(** ** The session store *)

Lemma generateSessionId_truthy (now : Z) (random : string) :
  chat_id (Some (generateSessionId now random)) = Some (generateSessionId now random).
Proof. done. Qed.

(** X18.  What is stored under a session is what the session reads back:
    after [storeChatHistory] or [storeActiveOperation], a request that
    carries the returned cookie gets the messages, or the operation, just
    stored, whether the chat id was there or was generated; the entries of
    every other chat are as they were. *)
Theorem store_then_get (now : Z) (random : string) (store : Store)
    (session : Session) (messages : list Json) (operation : OperationPlan) :
  let newId := generateSessionId now random in
  let stored := storeChatHistory newId store session messages in
  let kept := storeActiveOperation newId store session operation in
  getChatHistory (fst stored) (snd stored) = messages /\
  getActiveOperation (fst stored) (snd stored) = getActiveOperation store (snd stored) /\
  getActiveOperation (fst kept) (snd kept) = Some operation /\
  getChatHistory (fst kept) (snd kept) = getChatHistory store (snd kept) /\
  snd stored = snd kept /\
  forall other,
    Some other <> chat_id (snd stored) ->
    getChatHistory (fst stored) (Some other) = getChatHistory store (Some other) /\
    getActiveOperation (fst kept) (Some other) = getActiveOperation store (Some other).
Proof.
  intros newId stored kept. subst stored kept.
  unfold storeChatHistory, storeActiveOperation, getChatHistory, getActiveOperation.
  cbn [fst snd chatHistories activeOperations].
  assert (Hid : chat_id (Some match chat_id session with
                              | Some chatId => chatId
                              | None => newId
                              end)
                = Some match chat_id session with
                       | Some chatId => chatId
                       | None => newId
                       end).
  { destruct session as [id|]; [|done]. simpl.
    destruct (String.eqb id EmptyString) eqn:He; [done|]. simpl. by rewrite He. }
  rewrite Hid. rewrite !lookup_insert_eq. split_and!; [done..|].
  intros other Hother.
  destruct (chat_id (Some other)) as [id|] eqn:Hoid; [|done].
  assert (id = other) as ->.
  { simpl in Hoid. destruct (String.eqb other EmptyString); congruence. }
  rewrite !lookup_insert_ne; [done|congruence..].
Qed.

(** X19.  Clearing the conversation drops the chat's history and its
    active operation together, while aborting the operation keeps the
    history; both leave the cookie's session and every other chat as they
    were. *)
Theorem clear_then_get (store : Store) (session : Session) :
  let cleared := clearChatHistory store session in
  let aborted := clearActiveOperation store session in
  getChatHistory (fst cleared) (snd cleared) = [] /\
  getActiveOperation (fst cleared) (snd cleared) = None /\
  getActiveOperation (fst aborted) (snd aborted) = None /\
  getChatHistory (fst aborted) (snd aborted) = getChatHistory store session /\
  snd cleared = session /\ snd aborted = session /\
  forall other,
    chat_id (Some other) <> chat_id session ->
    getChatHistory (fst cleared) (Some other) = getChatHistory store (Some other) /\
    getActiveOperation (fst cleared) (Some other)
      = getActiveOperation store (Some other) /\
    getActiveOperation (fst aborted) (Some other)
      = getActiveOperation store (Some other).
Proof.
  intros cleared aborted. subst cleared aborted.
  unfold clearChatHistory, clearActiveOperation, getChatHistory, getActiveOperation.
  destruct (chat_id session) as [chatId|] eqn:Hid;
    cbn [fst snd chatHistories activeOperations]; rewrite Hid.
  - rewrite !lookup_delete_eq. split_and!; [done..|].
    intros other Hother. destruct (chat_id (Some other)) as [id|]; [|done].
    rewrite !lookup_delete_ne; [done|congruence..].
  - split_and!; done.
Qed.

(** X20.  A first message loses its history when it starts an operation.
    When the request carries no chat id, [action] lets [storeChatHistory]
    and [storeActiveOperation] each generate an id of their own and answers
    with the cookie of the second: unless the two ids happen to be equal,
    the next request finds the operation but none of the messages just
    stored, which stay in the store under an id no cookie names. *)
Theorem first_message_history_lost (now1 now2 : Z) (random1 random2 : string)
    (store : Store) (session : Session) (messages : list Json)
    (operation : OperationPlan) (operationAborted : bool) :
  let id1 := generateSessionId now1 random1 in
  let id2 := generateSessionId now2 random2 in
  let after := persist id1 id2 store session messages (Some operation)
                 operationAborted (getActiveOperation store session) in
  chat_id session = None -> id1 <> id2 ->
  getActiveOperation (fst after) (snd after) = Some operation /\
  getChatHistory (fst after) (snd after) = getChatHistory store (Some id2) /\
  chatHistories (fst after) !! id1 = Some messages /\
  (chatHistories store !! id2 = None -> getChatHistory (fst after) (snd after) = []).
Proof.
  intros id1 id2 after Hnone Hne. subst after.
  unfold persist, storeChatHistory, storeActiveOperation, getActiveOperation,
    getChatHistory.
  rewrite Hnone. cbn [fst snd chatHistories activeOperations].
  change (chat_id (Some id2)) with (Some id2).
  cbv beta iota.
  rewrite lookup_insert_eq, lookup_insert_ne, lookup_insert_eq by done.
  split_and!; [done..|]. by intros ->.
Qed.

(** ** Object values break the parameters *)

Lemma quote_char_head (c : ascii) :
  exists c0 t, quote_char c = String c0 t /\ (c0 = backslash \/ c0 = c).
Proof.
  destruct c as [[] [] [] [] [] [] [] []]; vm_compute; eexists _, _; split;
    try reflexivity; auto.
Qed.

Lemma slice_object_text (k : string) (v : Json) (rest : list (string * Json)) :
  exists tail,
    slice_1_m1 (JSON_stringify (JObject ((k, v) :: rest)))
    = String dquote (quote_body k +:+ tail).
Proof.
  cbn [JSON_stringify map fst snd].
  destruct rest as [|kv rest].
  - exists (str1 dquote +:+ ":" +:+ JSON_stringify v).
    change ("{" +:+ ?x +:+ "}") with (String "{" (x +:+ str1 "}")).
    unfold slice_1_m1. rewrite drop_last_snoc. unfold quote.
    cbn [map String.concat].
    by rewrite app_cons, !string_app_assoc.
  - exists (str1 dquote +:+ ":" +:+ JSON_stringify v +:+ ","
            +:+ String.concat ","
                  (map (fun kv => quote (fst kv) +:+ ":" +:+ JSON_stringify (snd kv))
                       (kv :: rest))).
    cbn [map]. rewrite concat_cons.
    change ("{" +:+ ?x +:+ "}") with (String "{" (x +:+ str1 "}")).
    unfold slice_1_m1. rewrite drop_last_snoc. unfold quote.
    rewrite !string_app_assoc. rewrite (app_cons dquote).
    by rewrite !string_app_assoc.
Qed.

(** X25.  A placeholder bound to an object breaks the parameters.  When
    the context binds [foo] to an object whose first key starts with a
    character other than white space, a comma and a closing brace (such as
    the result stored under a step's id, whose first key is [data], [error]
    or [_graphql]), resolving a string field [{{foo}}] throws a syntax
    error: the object's text, without its braces, ends the string it is
    pasted into. *)
Theorem resolver_rejects_object_values (c : ascii) (k : string) (v : Json)
    (rest : list (string * Json)) (context : gmap string Json) :
  context !! "foo" = Some (JObject ((String c k, v) :: rest)) ->
  is_ws c = false -> code c <> 44%N -> code c <> 125%N ->
  exists m,
    processStepParameters (JObject [("id", JString "{{foo}}")]) context = Throw m.
Proof.
  intros Hfoo Hws Hcomma Hbrace.
  unfold processStepParameters. rewrite replace_in_example.
  unfold substitute, context_get. rewrite Hfoo.
  destruct (slice_object_text (String c k) v rest) as (tail & ->).
  cbn [quote_body].
  destruct (quote_char_head c) as (c0 & t & -> & Hc0).
  assert (Hc0ws : is_ws c0 = false) by by destruct Hc0 as [-> | ->].
  assert (Hc044 : (code c0 =? 44)%N = false).
  { destruct Hc0 as [-> | ->]; [done|]. by apply N.eqb_neq. }
  assert (Hc0125 : (code c0 =? 125)%N = false).
  { destruct Hc0 as [-> | ->]; [done|]. by apply N.eqb_neq. }
  unfold JSON_parse. simpl.
  rewrite Hc0ws, Hc044, Hc0125. by eexists.
Qed.

(** ** Parameters that do not resolve *)

Lemma executeStep_unresolved invoke (i : nat) (w : World) (s : OperationStep)
    (context : gmap string Json) (m : string) :
  processStepParameters (Step.params s) context = Throw m ->
  executeStep invoke i w s context
  = (world_after i [] (Step.status (after_failure m s)) w, after_failure m s, Throw m).
Proof.
  intros Hp. unfold executeStep, attempt. simpl. rewrite Hp.
  unfold after_failure, world_after, emit. simpl.
  destruct (Step.maxRetries s <? Step.retryCount s + 1); simpl;
    by rewrite Nat.add_0_r, <- !app_assoc.
Qed.

Lemma executeOperationPlan_unresolved invoke (w : World) (plan : OperationPlan)
    (i : nat) (s : OperationStep) (m : string) :
  getNextExecutableStep plan = Some (i, s) ->
  processStepParameters (Step.params s) (Plan.context plan) = Throw m ->
  executeOperationPlan invoke w plan
  = Some (world_after i [] (Step.status (after_failure m s)) w,
          plan_after i (Throw m) s (Plan.set_status executing plan)).
Proof.
  intros Hnext Hp. unfold executeOperationPlan.
  change (drive_loop invoke (S ?n) w ?p)
    with (match getNextExecutableStep plan with
          | None => Some (w, settle p)
          | Some (i, nextStep) =>
              let '(w, nextStep, c) := executeStep invoke i w nextStep (Plan.context plan) in
              let plan := Plan.set_steps (<[i := nextStep]> (Plan.steps p)) p in
              let caught (plan : OperationPlan) :=
                if bool_decide (Step.status nextStep = failed)
                then Plan.set_status plan_failed plan
                else plan in
              match c with
              | Throw _ => Some (w, caught plan)
              | Normal _ =>
                  match updateOperationContext plan nextStep with
                  | (plan, Normal _) => drive_loop invoke n w plan
                  | (plan, Throw _) => Some (w, caught plan)
                  end
              end
          end).
  rewrite Hnext, (executeStep_unresolved _ _ _ _ _ m Hp). done.
Qed.

Lemma failures_fields (m : string) (s : OperationStep) (k : nat) :
  Step.retryCount (Nat.iter k (after_failure m) s) = Step.retryCount s + Z.of_nat k /\
  Step.maxRetries (Nat.iter k (after_failure m) s) = Step.maxRetries s /\
  Step.params (Nat.iter k (after_failure m) s) = Step.params s.
Proof.
  induction k as [|k (Hrc & Hmax & Hp)]; [simpl; split_and!; [lia|done..]|].
  rewrite Nat.iter_succ.
  destruct (after_failure_status m (Nat.iter k (after_failure m) s)) as (-> & _).
  destruct (step_after_sched_eq (Throw m) (Nat.iter k (after_failure m) s))
    as (_ & _ & Hp' & _ & Hmax').
  simpl in Hp', Hmax'. rewrite Hp', Hmax', Hrc. split_and!; [lia|done..].
Qed.

Lemma drive_n_unresolved invoke (k : nat) (w : World) (plan : OperationPlan)
    (i : nat) (s : OperationStep) (m : string) :
  getNextExecutableStep plan = Some (i, s) ->
  processStepParameters (Step.params s) (Plan.context plan) = Throw m ->
  exists w' plan',
    drive_n invoke k w plan = Some (w', plan') /\
    calls w' = calls w /\
    getNextExecutableStep plan' = Some (i, Nat.iter k (after_failure m) s) /\
    Plan.context plan' = Plan.context plan /\
    ((1 <= k)%nat ->
     Plan.status plan'
     = if bool_decide (Step.status (Nat.iter k (after_failure m) s) = failed)
       then plan_failed else executing).
Proof.
  revert w plan s. induction k as [|k IH]; intros w plan s Hnext Hp.
  - exists w, plan. simpl. split_and!; [done..|lia].
  - set (w1 := world_after i [] (Step.status (after_failure m s)) w).
    set (plan1 := plan_after i (Throw m) s (Plan.set_status executing plan)).
    assert (Hnext1 : getNextExecutableStep plan1 = Some (i, after_failure m s))
      by by apply getNext_after_failure.
    assert (Hctx1 : Plan.context plan1 = Plan.context plan)
      by (unfold plan1; by rewrite plan_after_throw_context).
    assert (Hp1 : processStepParameters (Step.params (after_failure m s))
                    (Plan.context plan1) = Throw m).
    { destruct (step_after_sched_eq (Throw m) s) as (_ & _ & Hps & _).
      simpl in Hps. by rewrite Hps, Hctx1. }
    destruct (IH w1 plan1 (after_failure m s) Hnext1 Hp1)
      as (w' & plan' & Hdrive & Hcalls & Hnext' & Hctx & Hstatus).
    exists w', plan'. rewrite Nat.iter_succ_r. split_and!.
    + simpl. by rewrite (executeOperationPlan_unresolved _ _ _ _ _ m Hnext Hp).
    + rewrite Hcalls. unfold w1, world_after. simpl. lia.
    + done.
    + by rewrite Hctx.
    + intros _. destruct k as [|k]; [|apply Hstatus; lia].
      simpl in Hdrive. injection Hdrive as <- <-. simpl.
      unfold plan1. by rewrite plan_after_throw_status.
Qed.

(** X26.  Parameters that do not resolve use up the retries without a
    call.  When the parameters of the step the scheduler selects throw in
    [processStepParameters] for the plan's context, every drive fails the
    step in the same way: no tool is ever invoked, after [k <= maxRetries]
    drives the step is pending with the resolver's message annotated with
    [k], and after [maxRetries + 1] drives the step and the plan are failed
    with that message. *)
Theorem unresolved_step_never_calls invoke (w : World) (plan : OperationPlan)
    (i : nat) (s : OperationStep) (m : string) (k : nat) :
  getNextExecutableStep plan = Some (i, s) ->
  processStepParameters (Step.params s) (Plan.context plan) = Throw m ->
  Step.retryCount s = 0 -> 0 <= Step.maxRetries s ->
  (1 <= k <= S (Z.to_nat (Step.maxRetries s)))%nat ->
  exists w' plan' s',
    drive_n invoke k w plan = Some (w', plan') /\
    calls w' = calls w /\
    Plan.steps plan' !! i = Some s' /\
    Step.retryCount s' = Z.of_nat k /\
    (Z.of_nat k <= Step.maxRetries s ->
     Step.status s' = pending /\ Plan.status plan' = executing /\
     Step.error s' = Some (retry_message (Z.of_nat k) (Step.maxRetries s) m)) /\
    (k = S (Z.to_nat (Step.maxRetries s)) ->
     Step.status s' = failed /\ Plan.status plan' = plan_failed /\
     Step.error s' = Some m).
Proof.
  intros Hnext Hp Hrc Hmax Hk.
  destruct (drive_n_unresolved invoke k w plan i s m Hnext Hp)
    as (w' & plan' & Hdrive & Hcalls & Hnext' & _ & Hstatus).
  exists w', plan', (Nat.iter k (after_failure m) s).
  destruct k as [|k]; [lia|]. rewrite Nat.iter_succ in *.
  destruct (failures_fields m s k) as (Hrck & Hmaxk & _).
  destruct (after_failure_status m (Nat.iter k (after_failure m) s))
    as (Hrc' & _ & Hcase).
  rewrite Hrck, Hmaxk, Hrc in *.
  split_and!; [done|done|by apply getNext_lookup|lia|..].
  - intros Hle. destruct Hcase as [(Hlt & _)|(_ & Hst & Herr)]; [lia|].
    rewrite Hstatus, Hst by lia. split_and!; [done..|].
    rewrite Herr. do 2 f_equal. lia.
  - intros Heq. destruct Hcase as [(_ & Hst & Herr)|(Hle & _)]; [|lia].
    rewrite Hstatus, Hst by lia. done.
Qed.

(** ** A session that has its chat id *)

Lemma chat_id_Some (session : Session) (c : string) :
  chat_id session = Some c -> session = Some c /\ chat_id (Some c) = Some c.
Proof.
  destruct session as [x|]; [|done]. simpl.
  destruct (String.eqb x EmptyString) eqn:Hx; [done|].
  intros [= <-]. by rewrite Hx.
Qed.

(** X27.  A session with a chat id keeps what [action] stores.  When the
    request carries a chat id, the cookie [action] answers with still
    names it, and the next request reads the messages just stored and, as
    its active operation, the operation of the outcome: none when the
    outcome has none, whether an operation was aborted, had been active, or
    there never was one. *)
Theorem returning_session_persists (id1 id2 c : string) (store : Store)
    (session : Session) (messages : list Json) (operation : option OperationPlan)
    (operationAborted : bool) :
  let after := persist id1 id2 store session messages operation
                 operationAborted (getActiveOperation store session) in
  chat_id session = Some c ->
  chat_id (snd after) = Some c /\
  getChatHistory (fst after) (snd after) = messages /\
  getActiveOperation (fst after) (snd after) = operation.
Proof.
  intros after Hc. subst after.
  destruct (chat_id_Some _ _ Hc) as (-> & Hc').
  unfold persist, storeChatHistory, storeActiveOperation, clearActiveOperation,
    getActiveOperation, getChatHistory.
  rewrite !Hc'. cbn [fst snd chatHistories activeOperations].
  destruct operation as [op|].
  - cbn [fst snd chatHistories activeOperations]. rewrite !Hc'.
    cbn [fst snd chatHistories activeOperations].
    by rewrite !lookup_insert_eq.
  - destruct operationAborted; cbn [orb].
    + cbn [fst snd chatHistories activeOperations]. rewrite !Hc'.
      cbn [fst snd chatHistories activeOperations].
      by rewrite lookup_insert_eq, lookup_delete_eq.
    + destruct (activeOperations store !! c) as [act|] eqn:Hact.
      * rewrite bool_decide_eq_true_2 by eauto.
        cbn [fst snd chatHistories activeOperations]. rewrite !Hc'.
        cbn [fst snd chatHistories activeOperations].
        by rewrite lookup_insert_eq, lookup_delete_eq.
      * rewrite bool_decide_eq_false_2 by (by intros [? ?]).
        cbn [fst snd chatHistories activeOperations]. rewrite !Hc'.
        cbn [fst snd chatHistories activeOperations].
        by rewrite lookup_insert_eq, Hact.
Qed.

(** ** The scenarios, run *)

Import Scenario.

Lemma single_plan_built :
  createOperationPlan "plan-1" [query_call] "find a variant" = Normal
    (Plan.mk "plan-1" [query_step] 0 planning ∅ "find a variant" None).
Proof. vm_compute. reflexivity. Qed.

Lemma failed_plan_reached :
  exists w, drive_n boom 4 world0 single_plan = Some (w, failed_plan).
Proof. eexists. vm_compute. reflexivity. Qed.

Lemma completed_plan_reached :
  exists w, drive_n answers 1 world0 single_plan = Some (w, completed_plan).
Proof. eexists. vm_compute. reflexivity. Qed.

Lemma drive_n_reachable invoke (n : nat) (w w' : World) (plan plan' : OperationPlan) :
  reachable plan -> drive_n invoke n w plan = Some (w', plan') -> reachable plan'.
Proof.
  revert w plan. induction n as [|n IH]; intros w plan Hreach Hrun; simpl in Hrun.
  - by injection Hrun as _ <-.
  - destruct (executeOperationPlan invoke w plan) as [[w1 plan1]|] eqn:Hone;
      [|discriminate].
    apply (IH w1 plan1); [|done]. by apply (reach_drive invoke w plan w1).
Qed.

Lemma single_plan_fresh : fresh single_plan.
Proof. repeat constructor. Qed.

Lemma failed_plan_reachable : reachable failed_plan.
Proof.
  destruct failed_plan_reached as (w & Hw).
  apply (drive_n_reachable boom 4 world0 w single_plan); [|done].
  apply reach_fresh, single_plan_fresh.
Qed.


Lemma unknown_tool_retried_witness :
  exists w' s' m,
    executeStep boom 0 world0 unknown_step ∅ = (w', s', Throw m) /\
    calls w' = 0%nat /\ Step.retryCount s' = 1.
Proof.
  destruct (unknown_tool_retried boom 0 world0 unknown_step ∅)
    as (w' & s' & m & Hexec & Hcalls & _ & Hrc & _).
  - unfold recognized. simpl. intros [H|[H|[H|H]]]; discriminate H.
  - exists w', s', m. repeat split; assumption.
Defined.

(** A step that names no recognized tool is pending, not failed, after its
    first attempt. *)
Lemma unknown_tool_not_failed_at_once :
  ~ (forall invoke i w s context,
        ~ recognized (Step.toolName s) ->
        Step.status (snd (fst (executeStep invoke i w s context))) = failed).
Proof.
  intros H. specialize (H boom 0%nat world0 unknown_step ∅).
  assert (Hunk : ~ recognized (Step.toolName unknown_step)).
  { unfold recognized. simpl. intros [H'|[H'|[H'|H']]]; discriminate H'. }
  specialize (H Hunk). vm_compute in H. discriminate H.
Qed.

Lemma drive_completed_noop_witness :
  executeOperationPlan boom world0 completed_plan = Some (world0, completed_plan).
Proof.
  apply (proj1 (drive_completed_noop boom world0 completed_plan)).
  - reflexivity.
  - repeat constructor.
Defined.

(** Driving the failed plan again starts its failed step once more and
    invokes its tool a fifth time. *)
Lemma failed_plan_is_driven_again :
  ~ (forall invoke w plan,
        reachable plan ->
        Plan.status plan = plan_completed \/ Plan.status plan = plan_failed ->
        executeOperationPlan invoke w plan = Some (w, plan)).
Proof.
  intros H.
  specialize (H boom world0 failed_plan failed_plan_reachable (or_intror eq_refl)).
  apply (f_equal (fun o => match o with
                           | Some (w, _) => calls w
                           | None => 0%nat
                           end)) in H.
  vm_compute in H. discriminate H.
Qed.

Lemma step_transitions_witness :
  (exists w' plan' s',
      executeOperationPlan boom world0 single_plan = Some (w', plan') /\
      Plan.steps plan' !! 0%nat = Some s' /\
      status_writes 0 (trace w') = [running; Step.status s'] /\
      Step.retryCount s' = 1) /\
  (exists w' plan',
      drive_n boom 3 world0 completed_plan = Some (w', plan') /\
      Plan.steps plan' !! 0%nat = Some completed_step).
Proof.
  split.
  - destruct (executeOperationPlan boom world0 single_plan) as [[w' plan']|] eqn:Hrun;
      [|vm_compute in Hrun; discriminate Hrun].
    destruct (proj1 (step_transitions boom world0 single_plan) w' plan' Hrun)
      as (new & Htrace & Hall).
    destruct (Hall 0%nat query_step eq_refl)
      as [(_ & Hsame)|(_ & s' & Hi & Hwr & Hcase)].
    + vm_compute in Hrun. injection Hrun as <- <-.
      vm_compute in Hsame. discriminate Hsame.
    + exists w', plan', s'. rewrite Htrace. simpl.
      repeat split; try assumption.
      destruct Hcase as [Hc|(_ & Hrc)]; [|exact Hrc].
      vm_compute in Hrun. injection Hrun as <- <-.
      vm_compute in Hi. injection Hi as <-. discriminate Hc.
  - destruct (drive_n boom 3 world0 completed_plan) as [[w' plan']|] eqn:Hrun;
      [|vm_compute in Hrun; discriminate Hrun].
    exists w', plan'. split; [reflexivity|].
    exact (proj1 (proj2 (step_transitions boom world0 completed_plan)
                    3%nat w' plan' Hrun 0%nat completed_step eq_refl eq_refl)).
Defined.

(** A failed step re-enters [running] at the next drive. *)
Lemma failed_step_runs_again :
  ~ (forall invoke w plan w' plan' i s,
        reachable plan ->
        Plan.steps plan !! i = Some s ->
        Step.status s = completed \/ Step.status s = failed ->
        executeOperationPlan invoke w plan = Some (w', plan') ->
        status_writes i (trace w') = status_writes i (trace w)).
Proof.
  intros H.
  destruct (executeOperationPlan boom world0 failed_plan) as [[w' plan']|] eqn:Hrun;
    [|vm_compute in Hrun; discriminate Hrun].
  specialize (H boom world0 failed_plan w' plan' 0%nat failed_step
                failed_plan_reachable eq_refl (or_intror eq_refl) Hrun).
  vm_compute in Hrun. injection Hrun as <- <-.
  vm_compute in H. discriminate H.
Qed.

Lemma fail_fast_witness :
  exists w' plan' s1' s2',
    drive_n answers_once 4 world0 three_plan = Some (w', plan') /\
    Plan.status plan' = plan_failed /\
    Plan.steps plan' = [s1'; s2'; third_step] /\
    Step.status s2' = failed /\
    forall e, (2%nat, e) ∈ trace w' -> (2%nat, e) ∈ trace world0.
Proof.
  destruct (fail_fast answers_once world0 three_plan
              query_step mutation_step third_step variant_payload 4)
    as (w' & plan' & s1' & s2' & Hrun & Hst & Hsteps & _ & Hs2 & _ & _ & Hev).
  - reflexivity.
  - intros s Hs. apply elem_of_cons in Hs as [->|Hs]; [split; reflexivity|].
    apply elem_of_cons in Hs as [->|Hs]; [split; reflexivity|].
    apply elem_of_cons in Hs as [->|Hs]; [split; reflexivity|].
    apply elem_of_nil in Hs. destruct Hs.
  - reflexivity.
  - simpl. lia.
  - vm_compute. reflexivity.
  - intros [|n] args Hn; [lia|reflexivity].
  - simpl. lia.
  - exists w', plan', s1', s2'. repeat split; assumption.
Defined.

Lemma context_fold_witness :
  exists w' plan' (new : list (nat * Event)),
    drive_n answers 1 world0 chained_plan = Some (w', plan') /\
    trace w' = new /\
    Plan.context plan' = context_after (Plan.steps plan') new ∅ /\
    Plan.context plan' !! "variantId" = Some (JString "gid://1") /\
    forall pre args post,
      new = (pre ++ (0%nat, Invoked "execute_mutation" args) :: post)%list ->
      processStepParameters (Step.params dependent_step)
        (context_after (Plan.steps plan') pre ∅) = Normal args.
Proof.
  destruct (proj2 (context_fold answers) 1%nat world0 chained_plan)
    as (w' & plan' & new & Hrun & Htrace & _ & Hfold).
  - reflexivity.
  - exists w', plan', new. split; [exact Hrun|]. split; [exact Htrace|].
    assert (Hplan : plan' = snd (w', plan')) by reflexivity.
    rewrite <- (f_equal (fun o => match o with Some x => x | None => (w', plan') end)
                  Hrun) in Hplan.
    vm_compute in Hplan.
    destruct Hfold as (Hctx & Hres).
    + intros i s' Hi Hs. rewrite Hplan in Hi.
      destruct i as [|[|i]]; simpl in Hi; [| |discriminate Hi];
        injection Hi as <-; unfold writes, copied; simpl;
        rewrite !elem_of_cons, elem_of_nil; intuition discriminate.
    + split; [exact Hctx|]. split.
      * rewrite Hplan. reflexivity.
      * intros pre args post Hnew.
        destruct (Hres pre 0%nat "execute_mutation" args post Hnew)
          as (t & Ht & _ & Hp).
        injection Ht as <-. exact Hp.
Defined.

(** The payload of a completed [introspect_schema] step is not copied. *)
Lemma introspection_payload_not_copied :
  ~ (forall invoke i w s context w' s' r plan data k,
        executeStep invoke i w s context = (w', s', Normal r) ->
        js_index r "data" = Some data ->
        k ∈ js_keys data ->
        Plan.context (fst (updateOperationContext plan s')) !! k = js_index data k).
Proof.
  intros H.
  destruct (executeStep describes 0 world0 introspect_step ∅)
    as [[w' s'] c] eqn:Hexec.
  assert (c = Normal type_payload) as ->.
  { vm_compute in Hexec. injection Hexec as _ _ <-. reflexivity. }
  specialize (H describes 0%nat world0 introspect_step ∅ w' s' type_payload
                single_plan (JObject [("type", JObject [("name", JString "Product")])])
                "type" Hexec eq_refl).
  assert (Hin : "type" ∈ js_keys
                  (JObject [("type", JObject [("name", JString "Product")])])).
  { simpl. apply elem_of_cons. by left. }
  specialize (H Hin).
  vm_compute in Hexec. injection Hexec as _ <-.
  vm_compute in H. discriminate H.
Qed.

Lemma scheduler_selection_witness :
  getNextExecutableStep chained_plan = Some (1%nat, query_step) /\
  qualifies (Plan.steps chained_plan) query_step /\
  ~ qualifies (Plan.steps chained_plan) dependent_step.
Proof.
  destruct (proj1 (proj1 (scheduler_selection chained_plan) 1%nat query_step))
    as (_ & Hq & Hfirst).
  - reflexivity.
  - split; [reflexivity|]. split; [exact Hq|].
    apply (Hfirst 0%nat dependent_step); [lia|reflexivity].
Defined.

Lemma plan_status_invariant_witness :
  exists w' plan',
    executeOperationPlan boom world0 single_plan = Some (w', plan') /\
    Plan.status plan' = executing /\
    ~ Exists (fun s => Step.status s = failed) (Plan.steps plan').
Proof.
  destruct (executeOperationPlan boom world0 single_plan) as [[w' plan']|] eqn:Hrun;
    [|vm_compute in Hrun; discriminate Hrun].
  destruct (plan_status_invariant boom world0 w' single_plan plan'
              (reach_fresh single_plan single_plan_fresh) Hrun)
    as (_ & Hfailed & _ & _ & _).
  exists w', plan'. split; [reflexivity|].
  vm_compute in Hrun. injection Hrun as <- <-.
  split; [reflexivity|].
  intros Hex. apply Hfailed in Hex. discriminate Hex.
Defined.

Import Cases.

(** Well-formedness of a concrete value: its keys are listed and compared. *)
Local Ltac distinct_keys :=
  repeat first
    [ apply NoDup_nil_2
    | apply NoDup_cons_2;
      [rewrite ?elem_of_cons, ?elem_of_nil; intuition discriminate|] ].

Local Ltac concrete_well_formed :=
  simpl;
  repeat match goal with
         | |- _ /\ _ => split
         | |- True => exact I
         | |- NoDup _ => distinct_keys
         end.

Lemma createOperationPlan_shape_witness :
  Plan.status single_plan = planning /\ Plan.context single_plan = ∅ /\
  Forall2 (fun toolCall step =>
             Step.id step = tc_id toolCall /\ Step.status step = pending /\
             Step.retryCount step = 0 /\ Step.maxRetries step = 3)
          [query_call] (Plan.steps single_plan).
Proof.
  destruct (createOperationPlan_shape "plan-1" [search_call; query_call]
              "find a variant" single_plan)
    as (_ & _ & Hst & Hctx & _ & _ & Hsteps).
  - vm_compute. reflexivity.
  - split; [exact Hst|]. split; [exact Hctx|].
    eapply Forall2_impl; [exact Hsteps|]. simpl.
    intros tc s (_ & Hid & _ & Hp & _ & Hrc & Hmax & _). auto.
Defined.


Lemma resolver_leaves_unbound_keys_witness :
  processStepParameters (JObject [("id", JString "{{foo}}")]) {["bar" := JNum 1]}
  = Normal (JObject [("id", JString "{{foo}}")]).
Proof.
  apply resolver_leaves_unbound_keys.
  - concrete_well_formed.
  - vm_compute. constructor; [split; reflexivity|constructor].
Defined.


Lemma resolver_number_loses_ends_witness :
  processStepParameters (JObject [("id", JString "{{foo}}")]) {["foo" := JNum 5]}
  = Normal (JObject [("id", JString EmptyString)]) /\
  processStepParameters (JObject [("id", JString "{{foo}}")]) {["foo" := JNum (-1234)]}
  = Normal (JObject [("id", JString "123")]).
Proof.
  split.
  - apply (resolver_number_loses_ends 5); [split; reflexivity|reflexivity].
  - apply (resolver_number_loses_ends (-1234)); [split; reflexivity|reflexivity].
Defined.

Lemma web_search_always_fails_witness :
  exists w' s',
    executeStep answers 0 world0 search_step ∅ = (w', s', Throw web_search_error) /\
    calls w' = 0%nat /\ Step.status s' = pending /\ Step.retryCount s' = 1.
Proof.
  destruct (web_search_always_fails answers 0 world0 search_step ∅)
    as (w' & s' & m & Hexec & Hcalls & _ & Hrc & Hcase & Hmsg).
  - reflexivity.
  - exists w', s'. rewrite (Hmsg (JObject [("q", JString "variants")])) in Hexec.
    + split; [exact Hexec|]. split; [exact Hcalls|]. split; [|exact Hrc].
      destruct Hcase as [(Hlt & _)|(_ & Hst & _)]; [|exact Hst].
      simpl in Hlt. lia.
    + vm_compute. reflexivity.
Defined.

Lemma completion_keeps_error_witness :
  exists w' plan' s',
    executeOperationPlan answers world0 retried_plan = Some (w', plan') /\
    Plan.steps plan' !! 0%nat = Some s' /\ Step.status s' = completed /\
    Step.error s' = Some "Error (retry 1/3): boom" /\ Step.retryCount s' = 1.
Proof.
  destruct (executeOperationPlan answers world0 retried_plan)
    as [[w' plan']|] eqn:Hrun; [|vm_compute in Hrun; discriminate Hrun].
  destruct (Plan.steps plan' !! 0%nat) as [s'|] eqn:Hi'.
  2:{ vm_compute in Hrun. injection Hrun as <- <-.
      vm_compute in Hi'. discriminate Hi'. }
  assert (Hst : Step.status s' = completed).
  { vm_compute in Hrun. injection Hrun as <- <-.
    vm_compute in Hi'. injection Hi' as <-. reflexivity. }
  destruct (completion_keeps_error answers world0 w' retried_plan plan' 0
              retried_step s' Hrun eq_refl Hi' Hst) as (Herr & Hrc & _).
  exists w', plan', s'.
  split; [reflexivity|]. split; [exact Hi'|]. split; [exact Hst|].
  split; [exact Herr|exact Hrc].
Defined.

Lemma all_succeed_completes_witness :
  exists w' plan',
    executeOperationPlan answers world0 two_plan = Some (w', plan') /\
    Plan.status plan' = plan_completed /\ calls w' = 2%nat /\
    trace w' = [(0%nat, Wrote running);
                (0%nat, Invoked "execute_query" query_params);
                (0%nat, Wrote completed);
                (1%nat, Wrote running);
                (1%nat, Invoked "execute_query" query_params);
                (1%nat, Wrote completed)].
Proof.
  destruct (all_succeed_completes answers world0 two_plan)
    as (w' & plan' & Hrun & Hst & Hcalls & Htrace & _).
  - assert (Hwf : well_formed query_params).
    { concrete_well_formed. }
    constructor; [|constructor; [|constructor]];
      (split; [reflexivity|]; split; [reflexivity|]; split; [left; reflexivity|];
       split; [exact Hwf|vm_compute; reflexivity]).
  - intros k s _. split; [discriminate|reflexivity].
  - exists w', plan'. split; [exact Hrun|]. split; [exact Hst|].
    split; [exact Hcalls|exact Htrace].
Defined.

Lemma dependencies_complete_first_witness :
  exists w' plan',
    executeOperationPlan answers world0 chained_plan = Some (w', plan') /\
    respects_dependencies (Plan.steps chained_plan) [] (trace w') = true /\
    fst <$> trace w' = [1; 1; 1; 0; 0; 0]%nat /\
    respects_dependencies (Plan.steps chained_plan) [] [(0%nat, Wrote running)]
    = false.
Proof.
  destruct (executeOperationPlan answers world0 chained_plan)
    as [[w' plan']|] eqn:Hrun; [|vm_compute in Hrun; discriminate Hrun].
  destruct (dependencies_complete_first answers world0 w' chained_plan plan' Hrun)
    as (new & Htrace & Hrespects).
  exists w', plan'. split; [reflexivity|]. simpl in Htrace. subst new.
  split; [exact Hrespects|]. split; [|reflexivity].
  vm_compute in Hrun. injection Hrun as <- _. reflexivity.
Defined.

Lemma blocked_steps_never_run_witness :
  exists w' plan',
    drive_n answers 3 world0 waiting_plan = Some (w', plan') /\
    Plan.steps plan' !! 1%nat = Some waiting_step /\
    Plan.status plan' <> plan_completed /\
    forall e, (1%nat, e) ∉ trace w'.
Proof.
  destruct (drive_n answers 3 world0 waiting_plan) as [[w' plan']|] eqn:Hrun;
    [|vm_compute in Hrun; discriminate Hrun].
  destruct (blocked_steps_never_run answers 3 world0 w' waiting_plan plan' [1%nat])
    as (Hkeep & Hstatus).
  - intros i Hi. apply elem_of_cons in Hi as [->|Hi].
    + exists waiting_step, ["call_0"], "call_0".
      split; [reflexivity|]. split; [discriminate|]. split; [reflexivity|].
      split; [apply elem_of_cons; left; reflexivity|]. vm_compute. exact I.
    + apply elem_of_nil in Hi. destruct Hi.
  - exact Hrun.
  - destruct (Hkeep 1%nat) as (Hsame & Hev); [apply elem_of_cons; left; reflexivity|].
    exists w', plan'. split; [reflexivity|]. split; [exact Hsame|].
    split; [apply Hstatus; [discriminate|lia]|].
    intros e He. apply Hev in He. simpl in He. apply elem_of_nil in He. exact He.
Defined.

Lemma without_credentials_witness :
  executeShopifyQuery no_token unauthorized query_params
    = (None, Normal (JObject [("error", JString missing_credentials)])) /\
  tool_fails (shopify_tools no_token (fun _ => unauthorized) 0
                "execute_mutation" query_params).
Proof.
  destruct (without_credentials no_token query_params) as (Hvalue & Hfails).
  - reflexivity.
  - split.
    + destruct (Hvalue unauthorized) as (Hq & _); [discriminate|exact Hq].
    + destruct (Hfails (fun _ => unauthorized) 0%nat) as (_ & Hm). exact Hm.
Defined.

Lemma graphql_errors_reported_witness :
  exists graphql,
    snd (executeShopifyQuery shop refuses query_params)
      = Normal (JObject [("error", JString "Field 'id' doesn't exist");
                         ("_graphql", JObject graphql)]) /\
    check_result (JObject [("error", JString "Field 'id' doesn't exist");
                           ("_graphql", JObject graphql)])
      = Throw "Field 'id' doesn't exist".
Proof.
  apply (graphql_errors_reported shop refuses "query" "Error executing GraphQL query"
           query_params query_request
           [("errors", JArray [JObject [("message", JString "Field 'id' doesn't exist")]])]
           (JObject [("message", JString "Field 'id' doesn't exist")]) []).
  - vm_compute. reflexivity.
  - reflexivity.
  - reflexivity.
  - reflexivity.
  - discriminate.
Defined.

Lemma errors_must_be_an_array_witness :
  exists graphql,
    snd (executeShopifyQuery shop unauthorized query_params)
      = Normal (JObject [("_graphql", JObject graphql)]) /\
    tool_succeeds (snd (executeShopifyQuery shop unauthorized query_params)).
Proof.
  apply (errors_must_be_an_array shop unauthorized "query"
           "Error executing GraphQL query" query_params query_request
           [("errors", JString "[API] Invalid API key or access token")]).
  - vm_compute. reflexivity.
  - reflexivity.
  - reflexivity.
Defined.

Lemma introspect_without_type_witness :
  introspectShopifySchema no_token unauthorized (JObject [])
  = (None, Normal common_types_answer).
Proof.
  destruct (introspect_without_type no_token unauthorized (JObject []))
    as (Hanswer & _).
  - discriminate.
  - reflexivity.
  - exact Hanswer.
Defined.

Lemma introspect_field_lookup_witness :
  snd (introspectShopifySchema shop describes_product product_options)
  = Normal (JObject [("data", JObject [("field", title_field)])]).
Proof.
  apply (introspect_field_lookup shop describes_product product_options
           "Product" "title" product_request
           [("data",
             JObject
               [("__type",
                 JObject [("name", JString "Product");
                          ("fields", JArray [JObject [("name", JString "id")];
                                             title_field])])])]
           [("__type",
             JObject [("name", JString "Product");
                      ("fields", JArray [JObject [("name", JString "id")];
                                         title_field])])]
           [("name", JString "Product");
            ("fields", JArray [JObject [("name", JString "id")]; title_field])]
           [JObject [("name", JString "id")]; title_field]).
  - reflexivity.
  - discriminate.
  - reflexivity.
  - discriminate.
  - vm_compute. reflexivity.
  - reflexivity.
  - reflexivity.
  - reflexivity.
  - reflexivity.
  - reflexivity.
  - repeat constructor; discriminate.
Defined.

Lemma debug_info_drops_response_witness :
  exists shown,
    info_steps (getOperationDebugInfo traced_plan) !! 0%nat = Some shown /\
    debug_result shown
    = Some (JObject
              [("data", JObject [("variantId", JString "gid://1")]);
               ("_graphql",
                JObject [("query", JString "{ productVariants(first: 1) { id } }");
                         ("variables", JObject [])])]).
Proof.
  destruct (debug_info_drops_response traced_plan 0 traced_step traced_result)
    as (shown & r' & Hshown & _).
  - reflexivity.
  - reflexivity.
  - concrete_well_formed.
  - exists shown. split; [exact Hshown|].
    vm_compute in Hshown. injection Hshown as <-. reflexivity.
Defined.

Lemma first_message_history_lost_witness :
  let after := persist (generateSessionId 1 "a") (generateSessionId 2 "b")
                 empty_store None [JString "hello"] (Some single_plan) false None in
  getActiveOperation (fst after) (snd after) = Some single_plan /\
  getChatHistory (fst after) (snd after) = [].
Proof.
  destruct (first_message_history_lost 1 2 "a" "b" empty_store None
              [JString "hello"] single_plan false)
    as (Hop & _ & _ & Hlost).
  - reflexivity.
  - intros H. vm_compute in H. discriminate H.
  - split; [exact Hop|]. apply Hlost. reflexivity.
Defined.

Lemma network_failure_reported_witness :
  snd (executeShopifyQuery shop offline query_params)
    = Normal (JObject [("error", JString "fetch failed")]) /\
  snd (introspectShopifySchema shop offline product_options)
    = Normal (JObject [("error", JString "fetch failed")]).
Proof.
  destruct (network_failure_reported shop offline "fetch failed") as (Htool & Hschema).
  split.
  - destruct (Htool "query" "Error executing GraphQL query" query_params query_request)
      as (Hvalue & _).
    + vm_compute. reflexivity.
    + reflexivity.
    + exact Hvalue.
  - destruct (Hschema product_options product_request) as (Hvalue & _).
    + vm_compute. reflexivity.
    + reflexivity.
    + exact Hvalue.
Defined.

Lemma introspect_unknown_type_witness :
  snd (introspectShopifySchema shop no_such_type gadget_options)
  = Normal (JObject [("error", JString (type_not_found "Gadget"))]).
Proof.
  apply (introspect_unknown_type shop no_such_type gadget_options "Gadget"
           gadget_request [("data", JObject [("__type", JNull)])]).
  - reflexivity.
  - discriminate.
  - vm_compute. reflexivity.
  - reflexivity.
  - reflexivity.
  - reflexivity.
Defined.

Lemma request_carries_arguments_witness :
  fst (executeShopifyQuery shop unauthorized query_params) = Some query_request /\
  JSON_parse (req_body query_request)
  = Normal (JObject [("query", JString "{ productVariants(first: 1) { id } }");
                     ("variables", JObject [])]).
Proof.
  assert (Hsent : fst (executeShopifyQuery shop unauthorized query_params)
                  = Some query_request).
  { vm_compute. reflexivity. }
  split; [exact Hsent|].
  destruct (request_carries_arguments shop unauthorized "query"
              "Error executing GraphQL query" query_params query_request Hsent)
    as (shopDomain & shopToken & _ & _ & _ & _ & _ & Hbody).
  - concrete_well_formed.
  - exact Hbody.
Defined.

Lemma shop_answers_complete_witness :
  exists w' plan',
    executeOperationPlan (shopify_tools shop stocked) world0 two_plan
      = Some (w', plan') /\
    Plan.status plan' = plan_completed /\ calls w' = 2%nat.
Proof.
  destruct (shop_answers_complete shop stocked world0 two_plan)
    as (w' & plan' & Hrun & Hst & Hcalls & _).
  - reflexivity.
  - intros n request. eexists. split; reflexivity.
  - assert (Hwf : well_formed query_params).
    { concrete_well_formed. }
    constructor; [|constructor; [|constructor]];
      (split; [reflexivity|]; split; [reflexivity|]; split; [left; reflexivity|];
       split; [exact Hwf|]; split; [discriminate|vm_compute; reflexivity]).
  - exists w', plan'. split; [exact Hrun|]. split; [exact Hst|exact Hcalls].
Defined.

Lemma resolver_rejects_object_values_witness :
  exists m,
    processStepParameters (JObject [("id", JString "{{foo}}")])
                          {["foo" := traced_result]} = Throw m.
Proof.
  apply (resolver_rejects_object_values "d" "ata"
           (JObject [("variantId", JString "gid://1")])
           [("_graphql",
             JObject [("query", JString "{ productVariants(first: 1) { id } }");
                      ("variables", JObject []);
                      ("response",
                       JObject [("data", JObject [("variantId", JString "gid://1")])])])]).
  - reflexivity.
  - reflexivity.
  - discriminate.
  - discriminate.
Defined.

Lemma unresolved_step_never_calls_witness :
  exists w' plan' s',
    drive_n answers 4 world0 follow_plan = Some (w', plan') /\
    calls w' = 0%nat /\
    Plan.steps plan' !! 1%nat = Some s' /\
    Step.status s' = failed /\ Plan.status plan' = plan_failed /\
    exists m,
      processStepParameters (Step.params follow_step) (Plan.context follow_plan)
      = Throw m /\
      Step.error s' = Some m.
Proof.
  destruct (processStepParameters (Step.params follow_step)
              (Plan.context follow_plan)) as [pp|m] eqn:Hp;
    [vm_compute in Hp; discriminate Hp|].
  destruct (unresolved_step_never_calls answers world0 follow_plan 1 follow_step m 4)
    as (w' & plan' & s' & Hrun & Hcalls & Hi & _ & _ & Hlast).
  - reflexivity.
  - exact Hp.
  - reflexivity.
  - vm_compute. discriminate.
  - vm_compute. split; repeat constructor.
  - exists w', plan', s'.
    destruct Hlast as (Hst & Hplan & Herr); [reflexivity|].
    split; [exact Hrun|]. split; [exact Hcalls|]. split; [exact Hi|].
    split; [exact Hst|]. split; [exact Hplan|]. exists m. split; [reflexivity|exact Herr].
Defined.

Lemma returning_session_persists_witness :
  let after := persist (generateSessionId 1 "a") (generateSessionId 2 "b")
                 empty_store returning [JString "hello"] (Some single_plan) false
                 (getActiveOperation empty_store returning) in
  chat_id (snd after) = Some "chat_1_a" /\
  getChatHistory (fst after) (snd after) = [JString "hello"] /\
  getActiveOperation (fst after) (snd after) = Some single_plan.
Proof.
  apply (returning_session_persists (generateSessionId 1 "a")
           (generateSessionId 2 "b") "chat_1_a" empty_store returning
           [JString "hello"] (Some single_plan) false).
  reflexivity.
Defined.

(** ** End to end *)

(** A mutation declared first but depending on a query declared second: the
    query runs first, its payload key [variantId] enters the context, the
    mutation's placeholder resolves to it, and the plan completes. *)
Example chained_plan_completes :
  exists w' plan',
    executeOperationPlan answers world0 chained_plan = Some (w', plan') /\
    Plan.status plan' = plan_completed /\
    Plan.context plan' !! "variantId" = Some (JString "gid://1") /\
    trace w' =
      [(1%nat, Wrote running);
       (1%nat, Invoked "execute_query" query_params);
       (1%nat, Wrote completed);
       (0%nat, Wrote running);
       (0%nat, Invoked "execute_mutation"
                 (JObject [("mutation", JString "mutation { touch }");
                           ("variables", JObject [("id", JString "gid://1")])]));
       (0%nat, Wrote completed)].
Proof. do 2 eexists. vm_compute. repeat split. Qed.
